(** * IGP2: macro actions, forward projection and MCTS nodes

    A shallow embedding of [igp2/planlibrary/macro_action.py],
    [igp2/planning/node.py], the trajectory agent and the macro-action
    selection of [igp2/agent.py], and the control loop of
    [igp2/carla/carla_client.py].

    Conventions of the embedding:
    - Python floats are read as exact rationals ([Q]); comparisons are the
      boolean tests [Qle_bool] and [Qltb]. Rounding, infinities and NaN are
      outside the model, but for the quotients by a speed of zero in the gap
      analysis of a lane change, whose infinite values are followed case by
      case ([find_change_at_rest]).
    - A Python [dict] is an association list in insertion order whose keys are
      pairwise distinct ([dict_get], [dict_set], [dict_keys]): the code
      iterates over frames, and the order of iteration decides which
      exception is met first and how ties are sorted.
    - Lane, road and junction objects are handles into the stores of the
      [Map.t] record, so that cyclic successor links can be expressed.
    - The classes of the map, of agent states, of trajectories and of
      maneuvers are defined in other modules of the package; they appear as
      records that hold the attributes and methods the code calls.
    - A Python call ends in an [outcome]: a value, a raised exception, or
      [OutOfFuel] when the bounded unrolling of a [while] loop is used up. *)

From Stdlib Require Import QArith Qabs Lqa Lia Sorted.
From stdpp Require Import base list strings.

Local Open Scope Q_scope.

(** ** Numbers *)

Definition Qltb (x y : Q) : bool := negb (Qle_bool y x).

(** ** Outcomes of Python calls *)

Inductive exn : Set :=
| AssertionError
| AttributeError
| IndexError
| KeyError
| NotImplementedError
| RuntimeError
| TypeError
| ValueError
| ZeroDivisionError.

Inductive outcome (A : Type) : Type :=
| Done (a : A)
| Raise (e : exn)
| OutOfFuel.

Arguments Done {A} a.
Arguments Raise {A} e.
Arguments OutOfFuel {A}.

#[global] Instance outcome_ret : MRet outcome := fun A a => Done a.

#[global] Instance outcome_bind : MBind outcome := fun A B f c =>
  match c with
  | Done a => f a
  | Raise e => Raise e
  | OutOfFuel => OutOfFuel
  end.

(** A call that comes back to its caller, with a value or an exception. *)
Definition terminates {A} (o : outcome A) : Prop := o <> OutOfFuel.

(** A call that hands a value to its caller. *)
Definition returns {A} (o : outcome A) : Prop := exists a, o = Done a.

(** ** Dictionaries in insertion order *)

Section dict.
Context {K A : Type} `{EqDecision K}.

Fixpoint dict_get (k : K) (d : list (K * A)) : option A :=
  match d with
  | [] => None
  | (k', v) :: d' => if decide (k' = k) then Some v else dict_get k d'
  end.

(** [d[k] = v]: overwrite in place, or append a new entry. *)
Fixpoint dict_set (k : K) (v : A) (d : list (K * A)) : list (K * A) :=
  match d with
  | [] => [(k, v)]
  | (k', v') :: d' =>
      if decide (k' = k) then (k, v) :: d' else (k', v') :: dict_set k v d'
  end.

Definition dict_keys (d : list (K * A)) : list K := d.*1.
End dict.

(** ** Data model *)

Definition Point : Type := Q * Q.

Module AgentState.
(** The attributes of [AgentState] that the code reads. [copy] of a state
    is the record itself; assigning an attribute of the copy is a record
    update. *)
Record t : Type := mk {
  time : Q;
  position : Point;
  velocity : Q;
  acceleration : Q;
  heading : Q;
  speed : Q
}.

Definition set_position (s : t) (p : Point) : t :=
  mk (time s) p (velocity s) (acceleration s) (heading s) (speed s).

Definition set_heading (s : t) (h : Q) : t :=
  mk (time s) (position s) (velocity s) (acceleration s) h (speed s).
End AgentState.

Definition Frame : Type := list (Z * AgentState.t).

Definition LaneRef : Type := nat.
Definition RoadRef : Type := nat.
Definition JunctionRef : Type := nat.

Module LaneSection.
Record t : Type := mk {
  all_lanes : list LaneRef;
  get_lane : Z -> option LaneRef
}.
End LaneSection.

Module Lane.
(** [successor] is [lane.link.successor]; [midline_end] is
    [lane.midline.coords[-1]]; [boundary_distance p] is
    [lane.boundary.distance(Point(p))]. *)
Record t : Type := mk {
  id : Z;
  length : Q;
  successor : option (list LaneRef);
  parent_road : RoadRef;
  lane_section : LaneSection.t;
  midline_end : Point;
  distance_at : Point -> Q;
  point_at : Q -> Point;
  get_heading_at : Q -> Q;
  boundary_distance : Point -> Q
}.
End Lane.

Module Road.
Record t : Type := mk {
  id : Z;
  junction : option JunctionRef
}.
End Road.

Module Map.
(** The lane network query of [igp2.opendrive.map] together with the
    object stores [lane] and [road]. [lanes_at p None] is the call without
    [max_distance]; [best_lane_at_drivable] is [best_lane_at] with
    [drivable_only=True]. *)
Record t : Type := mk {
  lane : LaneRef -> Lane.t;
  road : RoadRef -> Road.t;
  best_lane_at : Point -> Q -> option LaneRef;
  best_lane_at_drivable : Point -> Q -> option LaneRef;
  lanes_at : Point -> option Q -> list LaneRef;
  lanes_within_angle : Point -> Q -> Q -> Q -> list LaneRef;
  junction_at : Point -> option JunctionRef;
  road_in_roundabout : RoadRef -> bool;
  get_adjacent_lanes : LaneRef -> list LaneRef
}.
End Map.

(** ** Trajectories, maneuvers, macro actions *)

Module VelocityTrajectory.
(** [VelocityTrajectory(points, velocity)]; either argument is [None] when
    it is built from an empty maneuver list. *)
Record t : Type := mk {
  path : option (list Point);
  velocity : option (list Q)
}.
End VelocityTrajectory.

(** The derived attributes of a trajectory, computed by the trajectory class
    from its samples. *)
Record TrajectoryClass : Type := {
  final_agent_state : VelocityTrajectory.t -> AgentState.t;
  duration : VelocityTrajectory.t -> Q
}.

Inductive Action : Type := mkAction (acceleration steer_angle : Q).

Module Maneuver.
Record t : Type := mk {
  path : list Point;
  velocity : list Q;
  done : Frame -> Map.t -> bool;
  next_action : Frame -> Map.t -> Action
}.
End Maneuver.

(** What the attribute [_current_maneuver] can hold at run time. *)
Inductive current_maneuver_value : Type :=
| CurNone
| CurManeuver (man : Maneuver.t)
| CurList (mans : list Maneuver.t).

Module MacroAction.
Record t : Type := mk {
  open_loop : bool;
  agent_id : Z;
  start_frame : Frame;
  final_frame : option Frame;
  scenario_map : Map.t;
  _maneuvers : option (list Maneuver.t);
  _current_maneuver : current_maneuver_value
}.
End MacroAction.

(** [MacroAction.get_trajectory] *)

(** The loop body: [points] and [velocity] after one more maneuver. *)
Definition append_maneuver (acc : option (list Point) * option (list Q))
    (maneuver : Maneuver.t) : option (list Point) * option (list Q) :=
  let points := match acc.1 with
                | None => Maneuver.path maneuver
                | Some ps => ps ++ tail (Maneuver.path maneuver)
                end in
  let velocity := match acc.2 with
                  | None => Maneuver.velocity maneuver
                  | Some vs => vs ++ tail (Maneuver.velocity maneuver)
                  end in
  (Some points, Some velocity).

Definition get_trajectory (self : MacroAction.t) : outcome VelocityTrajectory.t :=
  if negb (MacroAction.open_loop self) then Raise ValueError
  else match MacroAction._maneuvers self with
       | None => Raise ValueError
       | Some maneuvers =>
           let acc := fold_left append_maneuver maneuvers (None, None) in
           Done (VelocityTrajectory.mk acc.1 acc.2)
       end.

(** [_lane_at_distance], the local function of
    [play_forward_macro_action]: the [while True] loop, one iteration per unit
    of fuel, started with [total_length = 0]. *)
Fixpoint _lane_at_distance_loop (fuel : nat) (m : Map.t)
    (current_lane : LaneRef) (total_length ds : Q) : outcome (LaneRef * Q) :=
  match fuel with
  | O => OutOfFuel
  | S fuel' =>
      let len := Lane.length (Map.lane m current_lane) in
      if Qle_bool total_length ds && Qltb ds (total_length + len)
      then Done (current_lane, ds - total_length)
      else
        match Lane.successor (Map.lane m current_lane) with
        | None => Done (current_lane, len)
        | Some [] => Raise IndexError
        | Some (s :: _) => _lane_at_distance_loop fuel' m s (total_length + len) ds
        end
  end.

Definition _lane_at_distance (fuel : nat) (m : Map.t) (lane : LaneRef) (ds : Q)
  : outcome (LaneRef * Q) :=
  _lane_at_distance_loop fuel m lane 0 ds.

(** The arc length at which another agent is looked up. *)
Definition agent_distance (m : Map.t) (duration : Q) (agent : AgentState.t)
    (agent_lane : LaneRef) : Q :=
  Lane.distance_at (Map.lane m agent_lane) (AgentState.position agent)
  + duration * AgentState.speed agent.

(** The state written for another agent once its final lane is known. *)
Definition projected_state (m : Map.t) (agent : AgentState.t)
    (final_lane : LaneRef) (distance_in_lane : Q) : AgentState.t :=
  let state := agent in
  let state := AgentState.set_position state
                 (Lane.point_at (Map.lane m final_lane) distance_in_lane) in
  AgentState.set_heading state
    (Lane.get_heading_at (Map.lane m final_lane) distance_in_lane).

(** The [for aid, agent in frame.items()] loop. *)
Fixpoint play_forward_loop (fuel : nat) (agent_id : Z) (m : Map.t) (duration : Q)
    (items : list (Z * AgentState.t)) (new_frame : Frame) : outcome Frame :=
  match items with
  | [] => Done new_frame
  | (aid, agent) :: rest =>
      if Z.eqb aid agent_id then play_forward_loop fuel agent_id m duration rest new_frame
      else
        match Map.best_lane_at m (AgentState.position agent) (AgentState.heading agent) with
        | None => play_forward_loop fuel agent_id m duration rest new_frame
        | Some agent_lane =>
            r ← _lane_at_distance fuel m agent_lane (agent_distance m duration agent agent_lane);
            let state := projected_state m agent r.1 r.2 in
            play_forward_loop fuel agent_id m duration rest (dict_set aid state new_frame)
        end
  end.

(** [MacroAction.play_forward_macro_action]; [macro_action = None] is the
    falsy argument of the guard [if not macro_action]. *)
Definition play_forward_macro_action (fuel : nat) (tc : TrajectoryClass)
    (agent_id : Z) (scenario_map : Map.t) (frame : Frame)
    (macro_action : option MacroAction.t) : outcome Frame :=
  match macro_action with
  | None => Done frame
  | Some ma =>
      trajectory ← get_trajectory ma;
      let new_frame := [(agent_id, final_agent_state tc trajectory)] in
      let duration := duration tc trajectory in
      play_forward_loop fuel agent_id scenario_map duration frame new_frame
  end.

(** ** Construction and closed-loop stepping of a macro action *)

(** [MacroAction.__init__]. The subclass method [get_maneuvers] sees the
    attributes set so far and hands back the maneuver list together with the
    value it stored in [final_frame]. *)
Definition MacroAction__init__
    (get_maneuvers : bool -> Z -> Frame -> Map.t ->
                     outcome (list Maneuver.t * option Frame))
    (agent_id : Z) (frame : Frame) (scenario_map : Map.t) (open_loop : bool)
  : outcome MacroAction.t :=
  r ← get_maneuvers open_loop agent_id frame scenario_map;
  Done (MacroAction.mk open_loop agent_id frame r.2 scenario_map (Some r.1) CurNone).

(** The base class method. *)
Definition MacroAction_get_maneuvers (open_loop : bool) (agent_id : Z)
    (frame : Frame) (scenario_map : Map.t)
  : outcome (list Maneuver.t * option Frame) :=
  Raise NotImplementedError.

Definition set_current_maneuver (self : MacroAction.t) (v : current_maneuver_value)
  : MacroAction.t :=
  MacroAction.mk (MacroAction.open_loop self) (MacroAction.agent_id self)
    (MacroAction.start_frame self) (MacroAction.final_frame self)
    (MacroAction.scenario_map self) (MacroAction._maneuvers self) v.

(** [value.done(frame, scenario_map)] on whatever [_current_maneuver] holds:
    only a maneuver has the method. *)
Definition call_done (v : current_maneuver_value) (frame : Frame) (m : Map.t)
  : outcome bool :=
  match v with
  | CurManeuver man => Done (Maneuver.done man frame m)
  | CurNone | CurList _ => Raise AttributeError
  end.

Definition call_next_action (v : current_maneuver_value) (frame : Frame) (m : Map.t)
  : outcome Action :=
  match v with
  | CurManeuver man => Done (Maneuver.next_action man frame m)
  | CurNone | CurList _ => Raise AttributeError
  end.

(** [MacroAction.next_action]: the object after the call and what the call
    hands back. [self._maneuvers[1:]] is [drop 1]. *)
Definition next_action (self : MacroAction.t) (frame : Frame) (m : Map.t)
  : MacroAction.t * outcome Action :=
  match call_done (MacroAction._current_maneuver self) frame m with
  | Done true =>
      match MacroAction._maneuvers self with
      | Some maneuvers =>
          let self := set_current_maneuver self (CurList (drop 1 maneuvers)) in
          (self, call_next_action (MacroAction._current_maneuver self) frame m)
      | None => (self, Raise TypeError)
      end
  | Done false => (self, call_next_action (MacroAction._current_maneuver self) frame m)
  | Raise e => (self, Raise e)
  | OutOfFuel => (self, OutOfFuel)
  end.

(** The object after a series of calls of [next_action], each with its frame
    and map, whatever the calls hand back. *)
Fixpoint next_actions (self : MacroAction.t) (calls : list (Frame * Map.t))
  : MacroAction.t :=
  match calls with
  | [] => self
  | (frame, m) :: calls' => next_actions (next_action self frame m).1 calls'
  end.

(** ** Lane changes *)

(** The class constants of [SwitchLane], defined in the maneuver library. *)
Record SwitchLaneClass : Type := {
  MIN_SWITCH_LENGTH : Q;
  TARGET_SWITCH_LENGTH : Q
}.

(** [min(xs, key=lambda x: x[0])]: the first element with the least key. *)
Fixpoint min_by_key {A} (best : Q * A) (xs : list (Q * A)) : Q * A :=
  match xs with
  | [] => best
  | x :: xs' => min_by_key (if Qltb x.1 best.1 then x else best) xs'
  end.

Definition py_min {A} (xs : list (Q * A)) : outcome (Q * A) :=
  match xs with
  | [] => Raise ValueError
  | x :: xs' => Done (min_by_key x xs')
  end.

(** [all([len(lane.lane_section.all_lanes) <= 2 for lane in successor])] *)
Definition all_single_laned (m : Map.t) (successor : list LaneRef) : bool :=
  forallb (fun lane =>
             Nat.leb (List.length (LaneSection.all_lanes
                                     (Lane.lane_section (Map.lane m lane)))) 2)
          successor.

Definition in_junction_road (m : Map.t) (lane : LaneRef) : bool :=
  bool_decide (is_Some (Road.junction (Map.road m (Lane.parent_road (Map.lane m lane))))).

(** [ChangeLane.check_change_validity]. The result is [Some b] for a Python
    bool and [None] where the function ends without a [return]. *)
Definition check_change_validity (sl : SwitchLaneClass) (state : AgentState.t)
    (m : Map.t) : outcome (option bool) :=
  let in_junction := bool_decide (is_Some (Map.junction_at m (AgentState.position state))) in
  if in_junction then Done (Some false)
  else
    match Map.best_lane_at m (AgentState.position state) (AgentState.heading state) with
    | None => Raise AttributeError
    | Some current_lane =>
        match Lane.successor (Map.lane m current_lane) with
        | Some successor =>
            let successor_distances :=
              map (fun s => (Lane.boundary_distance (Map.lane m s)
                               (AgentState.position state), s)) successor in
            nearest ← py_min successor_distances;
            let distance_to_successor := nearest.1 in
            let nearest_successor := nearest.2 in
            if all_single_laned m successor
            then Done (Some (Qltb (MIN_SWITCH_LENGTH sl) distance_to_successor))
            else if in_junction_road m nearest_successor
            then Done (Some (Qltb (TARGET_SWITCH_LENGTH sl) distance_to_successor
                             || Map.road_in_roundabout m
                                  (Lane.parent_road (Map.lane m current_lane))))
            else Done None
        | None => Done (Some true)
        end
    end.

(** [ChangeLane._get_target_lane]: [np.sign(id) > 0] is [id > 0]. *)
Definition _get_target_lane (left : bool) (m : Map.t) (current_lane : LaneRef)
  : option LaneRef :=
  let id := Lane.id (Map.lane m current_lane) in
  let tid := (id + (if Z.ltb 0 id then 1 else -1) * (if left then -1 else 1))%Z in
  LaneSection.get_lane (Lane.lane_section (Map.lane m current_lane)) tid.

(** Modelled from the spec: [SwitchLaneLeft.applicable] and
    [SwitchLaneRight.applicable] of [igp2/planlibrary/maneuver.py], whose
    source is missing. The specification asks of a lane switch that a
    target lane exists and that it is not the center lane (id 0); the target
    lane is the one [_get_target_lane] looks up on the side of the change. *)
Definition SwitchLane_applicable (left : bool) (state : AgentState.t) (m : Map.t)
  : outcome bool :=
  match Map.best_lane_at m (AgentState.position state) (AgentState.heading state) with
  | None => Done false
  | Some current_lane =>
      match _get_target_lane left m current_lane with
      | None => Done false
      | Some target_lane => Done (negb (Z.eqb (Lane.id (Map.lane m target_lane)) 0))
      end
  end.

(** [ChangeLaneLeft.applicable] ([left = true]) and
    [ChangeLaneRight.applicable]: [a and b] is [a] when [a] is falsy and [b]
    otherwise. *)
Definition ChangeLane_applicable (left : bool) (sl : SwitchLaneClass)
    (state : AgentState.t) (m : Map.t) : outcome (option bool) :=
  a ← SwitchLane_applicable left state m;
  if a : bool then check_change_validity sl state m else Done (Some false).

(** ** The maneuvers of a lane change *)

Module LineString.
(** What the code asks of a shapely [LineString]. *)
Record t : Type := mk {
  length : Q;
  project : Point -> Q;
  interpolate : Q -> Point
}.
End LineString.

(** The parts of the maneuver library and of the geometry library that
    [ChangeLane.get_maneuvers] calls: the line through the midlines of a lane
    sequence, the maneuver constructors (given the type and the termination
    point of their configuration) and the forward projection of a maneuver. *)
Record ManeuverLibrary : Type := {
  line_of_lanes : Map.t -> list LaneRef -> LineString.t;
  FollowLane : Point -> Z -> Frame -> Map.t -> outcome Maneuver.t;
  SwitchLaneLeft : string -> Point -> Z -> Frame -> Map.t -> outcome Maneuver.t;
  SwitchLaneRight : string -> Point -> Z -> Frame -> Map.t -> outcome Maneuver.t;
  play_forward_maneuver : Z -> Map.t -> Frame -> Maneuver.t -> outcome Frame
}.

(** The lane with which the loop of [_get_lane_sequence] goes on; [None]
    ends the loop. Where no branch assigns, the current lane stays. *)
Definition next_lane (m : Map.t) (current_lane : LaneRef) : option LaneRef :=
  match Lane.successor (Map.lane m current_lane) with
  | None => None
  | Some [] => Some current_lane
  | Some [s] => Some s
  | Some successors =>
      let possible_lanes :=
        List.filter (fun s => Nat.ltb 0 (List.length (Map.get_adjacent_lanes m s)))
                    successors in
      match possible_lanes with
      | [] => None
      | [lane] => Some lane
      | _ =>
          if Map.road_in_roundabout m (Lane.parent_road (Map.lane m current_lane))
          then List.find (fun lane => Map.road_in_roundabout m
                                        (Lane.parent_road (Map.lane m lane)))
                         possible_lanes
          else Some current_lane
      end
  end.

(** [ChangeLane._get_lane_sequence]: the [while] loop, one iteration per unit
    of fuel. *)
Fixpoint _get_lane_sequence_loop (fuel : nat) (left : bool) (m : Map.t)
    (current_lane : option LaneRef) (distance threshold : Q) (ls : list LaneRef)
  : outcome (list LaneRef) :=
  match fuel with
  | O => OutOfFuel
  | S fuel' =>
      match current_lane with
      | Some lane =>
          if Qle_bool distance threshold then
            let distance := distance + Lane.length (Map.lane m lane) in
            match _get_target_lane left m lane with
            | None => Done ls
            | Some target_lane =>
                if Z.eqb (Lane.id (Map.lane m target_lane)) 0 then Done ls
                else _get_lane_sequence_loop fuel' left m (next_lane m lane)
                       distance threshold (ls ++ [target_lane])
            end
          else Done ls
      | None => Done ls
      end
  end.

Definition _get_lane_sequence (fuel : nat) (left : bool) (state : AgentState.t)
    (m : Map.t) (current_lane : LaneRef) (threshold : Q) : outcome (list LaneRef) :=
  _get_lane_sequence_loop fuel left m (Some current_lane)
    (- Lane.distance_at (Map.lane m current_lane) (AgentState.position state))
    threshold [].

(** [ChangeLane._get_lane_sequence_midline]: [lane_sequence[-1]] raises on an
    empty sequence. *)
Definition _get_lane_sequence_midline (lib : ManeuverLibrary) (m : Map.t)
    (lane_sequence : list LaneRef) : outcome LineString.t :=
  match lane_sequence with
  | [] => Raise IndexError
  | _ => Done (line_of_lanes lib m lane_sequence)
  end.

(** [np.isclose(a, b)] with the default tolerances. *)
Definition isclose (a b : Q) : bool :=
  Qle_bool (Qabs (a - b)) (0.00000001 + 0.00001 * Qabs b).

(** [max(0, x)] *)
Definition py_max0 (x : Q) : Q := if Qltb 0 x then x else 0.

(** [sorted(intervals, key=lambda period: period[0])]: insertion after the
    entries whose key is not greater keeps the sort stable. *)
Fixpoint insert_interval (x : Q * Q * Q) (l : list (Q * Q * Q)) : list (Q * Q * Q) :=
  match l with
  | [] => [x]
  | y :: l' => if Qltb x.1.1 y.1.1 then x :: y :: l' else y :: insert_interval x l'
  end.

Definition sorted_by_start (l : list (Q * Q * Q)) : list (Q * Q * Q) :=
  fold_left (fun acc x => insert_interval x acc) l [].

(** The neighbour [agent] is on the target lane sequence. *)
Definition on_lane_sequence (m : Map.t) (target_lane_sequence : list LaneRef)
    (agent : AgentState.t) : bool :=
  existsb (fun l => bool_decide (l ∈ target_lane_sequence))
          (Map.lanes_at m (AgentState.position agent) None).

(** The loop of [ChangeLane._get_oncoming_vehicle_intervals] over the start
    frame. An interval is [(start, end, d_distance)]. *)
Fixpoint oncoming_loop (sl : SwitchLaneClass) (m : Map.t) (agent_id : Z)
    (state : AgentState.t) (target_lane_sequence : list LaneRef)
    (target_midline : LineString.t) (items : list (Z * AgentState.t))
    (oncoming_intervals : list (Q * Q * Q)) : outcome (list (Q * Q * Q)) :=
  match items with
  | [] => Done oncoming_intervals
  | (aid, agent) :: rest =>
      let continue := oncoming_loop sl m agent_id state target_lane_sequence
                        target_midline rest in
      if Z.eqb agent_id aid then continue oncoming_intervals
      else if on_lane_sequence m target_lane_sequence agent then
        let d_speed := AgentState.speed state - AgentState.speed agent in
        let d_distance :=
          LineString.project target_midline (AgentState.position agent)
          - LineString.project target_midline (AgentState.position state) in
        if isclose d_speed 0 then
          if Qltb (Qabs d_distance) (MIN_SWITCH_LENGTH sl) then Raise RuntimeError
          else continue oncoming_intervals
        else
          let time_until_pass := d_distance / d_speed in
          let pass_time := Qabs (MIN_SWITCH_LENGTH sl / d_speed) in
          let interval_end_time := time_until_pass + pass_time in
          if Qltb 0 interval_end_time then
            let interval_start_time := py_max0 (time_until_pass - pass_time) in
            continue (oncoming_intervals
                      ++ [(interval_start_time, interval_end_time, d_distance)])
          else continue oncoming_intervals
      else continue oncoming_intervals
  end.

Definition _get_oncoming_vehicle_intervals (sl : SwitchLaneClass) (m : Map.t)
    (agent_id : Z) (start_frame : Frame) (target_lane_sequence : list LaneRef)
    (target_midline : LineString.t) : outcome (list (Q * Q * Q)) :=
  match dict_get agent_id start_frame with
  | None => Raise KeyError
  | Some state =>
      oncoming_intervals ← oncoming_loop sl m agent_id state target_lane_sequence
                             target_midline start_frame [];
      Done (sorted_by_start oncoming_intervals)
  end.

(** The [for] loop over the intervals: the time at which a change of length
    [d_change], lasting [t_change], can start. *)
Definition first_free_time (oncoming_intervals : list (Q * Q * Q))
    (d_change t_change : Q) : Q :=
  fold_left
    (fun t_start (iv : Q * Q * Q) =>
       if Qltb (Qabs iv.2) d_change && Qltb t_start iv.1.2
          && Qltb iv.1.1 (t_start + t_change)
       then iv.1.2 else t_start)
    oncoming_intervals 0.

(** The [while d_change >= MIN_SWITCH_LENGTH] loop with its [else] branch;
    the result is [(d_change, t_start)]. *)
Fixpoint find_change (fuel : nat) (sl : SwitchLaneClass) (speed : Q)
    (oncoming_intervals : list (Q * Q * Q)) (t_lane_end d_change : Q)
  : outcome (Q * Q) :=
  match fuel with
  | O => OutOfFuel
  | S fuel' =>
      if Qle_bool (MIN_SWITCH_LENGTH sl) d_change then
        let t_change := d_change / speed in
        let t_start := first_free_time oncoming_intervals d_change t_change in
        if Qle_bool t_lane_end (t_start + t_change)
        then find_change fuel' sl speed oncoming_intervals t_lane_end (d_change - 5)
        else Done (d_change, t_start)
      else Raise AssertionError
  end.

(** The same [for] loop for an ego whose speed is zero and a change of
    positive length: the speed is a numpy float, so that
    [t_change = d_change / state.speed] is [inf] and raises nothing;
    [iv_start < t_start + t_change] then holds of every interval. *)
Definition first_free_time_at_rest (oncoming_intervals : list (Q * Q * Q))
    (d_change : Q) : Q :=
  fold_left
    (fun t_start (iv : Q * Q * Q) =>
       if Qltb (Qabs iv.2) d_change && Qltb t_start iv.1.2
       then iv.1.2 else t_start)
    oncoming_intervals 0.

(** The same [while] loop for an ego whose speed is zero; [remaining] is
    the numerator [target_midline.length - target_midline.project(...)] of
    [t_lane_end]. Dividing by the numpy zero gives [inf], [-inf] or [nan] by
    the sign of the numerator:
    - [d_change > 0]: [t_change] is [inf], and [t_start + t_change >=
      t_lane_end] holds unless [t_lane_end] is [nan], that is unless
      [remaining] is zero;
    - [d_change = 0]: [t_change] is [nan], every comparison with it fails,
      [t_start] stays [0.0] and the loop is left;
    - [d_change < 0]: [t_change] is [-inf], no interval moves [t_start], and
      [-inf >= t_lane_end] holds only of [t_lane_end = -inf], that is of a
      negative [remaining]. *)
Fixpoint find_change_at_rest (fuel : nat) (sl : SwitchLaneClass)
    (oncoming_intervals : list (Q * Q * Q)) (remaining d_change : Q)
  : outcome (Q * Q) :=
  match fuel with
  | O => OutOfFuel
  | S fuel' =>
      if Qle_bool (MIN_SWITCH_LENGTH sl) d_change then
        if Qltb 0 d_change then
          let t_start := first_free_time_at_rest oncoming_intervals d_change in
          if Qeq_bool remaining 0
          then Done (d_change, t_start)
          else find_change_at_rest fuel' sl oncoming_intervals remaining (d_change - 5)
        else if Qeq_bool d_change 0 then Done (d_change, 0)
        else if Qltb remaining 0
        then find_change_at_rest fuel' sl oncoming_intervals remaining (d_change - 5)
        else Done (d_change, 0)
      else Raise AssertionError
  end.

(** The block guarded by [ChangeLane.CHECK_ONCOMING]: the maneuvers so far,
    the frame, [d_change] and [lane_follow_end_point]. A division by a speed
    of zero raises nothing: [state.speed] is a numpy float, and the loop then
    runs on infinite times ([find_change_at_rest]). *)
Definition wait_for_gap (fuel : nat) (lib : ManeuverLibrary) (sl : SwitchLaneClass)
    (agent_id : Z) (start_frame : Frame) (m : Map.t) (state : AgentState.t)
    (current_lane : LaneRef) (target_lane_sequence : list LaneRef)
    (target_midline : LineString.t)
  : outcome (list Maneuver.t * Frame * Q * Point) :=
  let current_distance :=
    Lane.distance_at (Map.lane m current_lane) (AgentState.position state) in
  oncoming_intervals ← _get_oncoming_vehicle_intervals sl m agent_id start_frame
                         target_lane_sequence target_midline;
  let remaining :=
    LineString.length target_midline
    - LineString.project target_midline (AgentState.position state) in
  change ← (if Qeq_bool (AgentState.speed state) 0
            then find_change_at_rest fuel sl oncoming_intervals remaining
                   (TARGET_SWITCH_LENGTH sl)
            else find_change fuel sl (AgentState.speed state) oncoming_intervals
                   (remaining / AgentState.speed state) (TARGET_SWITCH_LENGTH sl));
  let d_change := change.1 in
  let t_start := change.2 in
  let distance_until_change := t_start * AgentState.speed state in
  let lane_follow_end_distance := current_distance + distance_until_change in
  if Qltb 0 t_start then
    let lane_follow_end_point :=
      Lane.point_at (Map.lane m current_lane) lane_follow_end_distance in
    man ← FollowLane lib lane_follow_end_point agent_id start_frame m;
    frame ← play_forward_maneuver lib agent_id m start_frame man;
    Done ([man], frame, d_change, lane_follow_end_point)
  else Done ([], start_frame, d_change, AgentState.position state).

(** [ChangeLane.get_maneuvers]. The type of the switch configuration is
    ["switch-" + "left" if self.left else "right"]. *)
Definition ChangeLane_get_maneuvers (fuel : nat) (lib : ManeuverLibrary)
    (sl : SwitchLaneClass) (CHECK_ONCOMING left : bool)
    (open_loop : bool) (agent_id : Z) (start_frame : Frame) (m : Map.t)
  : outcome (list Maneuver.t * option Frame) :=
  match dict_get agent_id start_frame with
  | None => Raise KeyError
  | Some state =>
      match Map.best_lane_at m (AgentState.position state) (AgentState.heading state) with
      | None => Raise AttributeError
      | Some current_lane =>
          target_lane_sequence ← _get_lane_sequence fuel left state m current_lane
                                   (TARGET_SWITCH_LENGTH sl);
          target_midline ← _get_lane_sequence_midline lib m target_lane_sequence;
          if open_loop then
            waited ← (if CHECK_ONCOMING
                      then wait_for_gap fuel lib sl agent_id start_frame m state
                             current_lane target_lane_sequence target_midline
                      else Done ([], start_frame, TARGET_SWITCH_LENGTH sl,
                                 AgentState.position state));
            let maneuvers := waited.1.1.1 in
            let frame := waited.1.1.2 in
            let d_change := waited.1.2 in
            let lane_follow_end_point := waited.2 in
            let termination_point :=
              LineString.interpolate target_midline
                (LineString.project target_midline lane_follow_end_point + d_change) in
            man ← (if left
                   then SwitchLaneLeft lib "switch-left" termination_point
                          agent_id frame m
                   else SwitchLaneRight lib "right" termination_point
                          agent_id frame m);
            final_frame ← play_forward_maneuver lib agent_id m frame man;
            Done (maneuvers ++ [man], Some final_frame)
          else Done ([], None)
      end
  end.

(** [ChangeLane.__init__] *)
Definition ChangeLane__init__ (fuel : nat) (lib : ManeuverLibrary)
    (sl : SwitchLaneClass) (CHECK_ONCOMING left : bool)
    (agent_id : Z) (frame : Frame) (scenario_map : Map.t) (open_loop : bool)
  : outcome MacroAction.t :=
  MacroAction__init__ (ChangeLane_get_maneuvers fuel lib sl CHECK_ONCOMING left)
    agent_id frame scenario_map open_loop.

(** ** Exits and the choice of the arguments of a macro action *)

(** [np.allclose(p, target, atol=atol)], with the default [rtol] of 1e-5,
    on points: [|p - target| <= atol + rtol * |target|] on both
    coordinates. *)
Definition allclose (atol : Q) (p target : Point) : bool :=
  Qle_bool (Qabs (p.1 - target.1)) (atol + 0.00001 * Qabs target.1)
  && Qle_bool (Qabs (p.2 - target.2)) (atol + 0.00001 * Qabs target.2).

(** The keyword arguments that [get_possible_args] hands out: [{}],
    [{"termination_point": p}] and [{"turn_target": t}]. *)
Inductive kwargs : Type :=
| NoArguments
| TerminationPoint (p : Point)
| TurnTarget (t : Point).

(** [Exit.LANE_ANGLE_THRESHOLD]: the float [np.pi / 9], in its shortest
    decimal form. *)
Definition LANE_ANGLE_THRESHOLD : Q := 0.3490658503988659.

(** The lanes looked at inside a junction: those within the angle threshold,
    or, when there is none, the best drivable lane. With no such lane either
    the list holds [None], and reading its midline raises. *)
Definition Exit_junction_lanes (state : AgentState.t) (m : Map.t)
  : outcome (list LaneRef) :=
  let lanes := Map.lanes_within_angle m (AgentState.position state)
                 (AgentState.heading state) LANE_ANGLE_THRESHOLD 0.5 in
  match lanes with
  | [] =>
      match Map.best_lane_at_drivable m (AgentState.position state)
              (AgentState.heading state) with
      | Some lane => Done [lane]
      | None => Raise AttributeError
      end
  | _ => Done lanes
  end.

(** One round of the loop over the lanes inside a junction. *)
Definition collect_target (m : Map.t) (targets : list Point) (lane : LaneRef)
  : list Point :=
  let target := Lane.midline_end (Map.lane m lane) in
  if existsb (fun p => allclose 0.25 p target) targets
  then targets
  else targets ++ [target].

(** [Exit.get_possible_args] *)
Definition Exit_get_possible_args (state : AgentState.t) (m : Map.t)
    (goal_point : option Point) : outcome (list kwargs) :=
  let in_junction := bool_decide (is_Some (Map.junction_at m (AgentState.position state))) in
  targets ←
    (if in_junction then
       lanes ← Exit_junction_lanes state m;
       Done (fold_left (collect_target m) lanes [])
     else
       match Map.best_lane_at m (AgentState.position state) (AgentState.heading state) with
       | None => Raise AttributeError
       | Some current_lane =>
           match Lane.successor (Map.lane m current_lane) with
           | None => Raise TypeError
           | Some successor =>
               Done (map (fun connecting_lane =>
                            Lane.midline_end (Map.lane m connecting_lane))
                       (filter (fun connecting_lane =>
                                  Map.road_in_roundabout m
                                    (Lane.parent_road (Map.lane m connecting_lane)) = false)
                               successor))
           end
       end);
  Done (map TurnTarget targets).

(** [Continue.get_possible_args] *)
Definition Continue_get_possible_args (state : AgentState.t) (m : Map.t)
    (goal_point : option Point) : outcome (list kwargs) :=
  match goal_point with
  | Some goal =>
      let current_lane :=
        Map.best_lane_at m (AgentState.position state) (AgentState.heading state) in
      let goal_lanes := Map.lanes_at m goal (Some 0.5) in
      match current_lane with
      | Some lane =>
          if bool_decide (lane ∈ goal_lanes) then Done [TerminationPoint goal]
          else Done [NoArguments]
      | None => Done [NoArguments]
      end
  | None => Done [NoArguments]
  end.

(** The subclasses of [MacroAction]. *)
Inductive macro_class : Type :=
| Continue
| ContinueNextExit
| ChangeLaneLeft
| ChangeLaneRight
| Exit.

(** [cls.get_possible_args]; the classes that do not override it inherit
    [MacroAction.get_possible_args], which returns [[{}]]. *)
Definition get_possible_args (cls : macro_class) (state : AgentState.t) (m : Map.t)
    (goal_point : option Point) : outcome (list kwargs) :=
  match cls with
  | Continue => Continue_get_possible_args state m goal_point
  | Exit => Exit_get_possible_args state m goal_point
  | ContinueNextExit | ChangeLaneLeft | ChangeLaneRight => Done [NoArguments]
  end.

(** The square of [np.linalg.norm(p - goal)]. The norm is a strictly
    increasing function of its square, so [np.argmin] over the norms picks
    the index that the first minimum of the squares has. *)
Definition norm2 (p goal : Point) : Q :=
  (p.1 - goal.1) * (p.1 - goal.1) + (p.2 - goal.2) * (p.2 - goal.2).

(** [[t["turn_target"] for t in possible_args if "turn_target" in t]] *)
Definition turn_targets (possible_args : list kwargs) : list Point :=
  omap (fun t => match t with TurnTarget p => Some p | _ => None end) possible_args.

Module MacroAgent.
Record t : Type := mk {
  agent_id : Z;
  goal_center : option Point;
  _current_macro : option MacroAction.t
}.
End MacroAgent.

(** The first part of [MacroAgent.update_macro_action]: the argument sets the
    macro action will be built with. [self._goal] is [None] for an agent
    without a goal; [isinstance(new_macro_action, type(Exit))] holds for
    every class, [type(Exit)] being the metaclass. *)
Definition select_possible_args (self : MacroAgent.t) (new_macro_action : macro_class)
    (frame : Frame) (m : Map.t) : outcome (list kwargs) :=
  match dict_get (MacroAgent.agent_id self) frame with
  | None => Raise KeyError
  | Some state =>
      match MacroAgent.goal_center self with
      | None => Raise AttributeError
      | Some center =>
          possible_args ← get_possible_args new_macro_action state m (Some center);
          if Nat.ltb 1 (List.length possible_args) then
            let ps := turn_targets possible_args in
            closest ← py_min (map (fun p => (norm2 p center, p)) ps);
            Done [TurnTarget closest.2]
          else Done possible_args
      end
  end.

(** [MacroAgent.update_macro_action]: every argument set is built in turn,
    closed loop, and the last one built stays. [construct] is the call of the
    class. *)
Definition update_macro_action
    (construct : macro_class -> kwargs -> Z -> Frame -> Map.t -> bool ->
                 outcome MacroAction.t)
    (self : MacroAgent.t) (new_macro_action : macro_class)
    (frame : Frame) (m : Map.t) : MacroAgent.t * outcome unit :=
  match select_possible_args self new_macro_action frame m with
  | Done possible_args =>
      fold_left
        (fun (acc : MacroAgent.t * outcome unit) arguments =>
           match acc.2 with
           | Done _ =>
               match construct new_macro_action arguments
                       (MacroAgent.agent_id acc.1) frame m false with
               | Done macro =>
                   (MacroAgent.mk (MacroAgent.agent_id acc.1)
                      (MacroAgent.goal_center acc.1) (Some macro), Done tt)
               | Raise e => (acc.1, Raise e)
               | OutOfFuel => (acc.1, OutOfFuel)
               end
           | _ => acc
           end)
        possible_args (self, Done tt)
  | Raise e => (self, Raise e)
  | OutOfFuel => (self, OutOfFuel)
  end.

(** ** Search nodes *)

(** Python values that can be passed as the key of a node. *)
#[warnings="-register-all"]
Inductive PyValue : Type :=
| PyNone
| PyInt (z : Z)
| PyStr (s : string)
| PyTuple (items : list PyValue).

#[global] Instance PyValue_eq_dec : EqDecision PyValue.
Proof.
  refine (fix go (x y : PyValue) {struct x} : Decision (x = y) :=
    match x, y with
    | PyNone, PyNone => left _
    | PyInt a, PyInt b => cast_if (decide (a = b))
    | PyStr a, PyStr b => cast_if (decide (a = b))
    | PyTuple xs, PyTuple ys => cast_if (@list_eq_dec _ go xs ys)
    | _, _ => right _
    end); congruence.
Defined.

(** [isinstance(key, Tuple)] *)
Definition is_tuple (v : PyValue) : bool :=
  match v with
  | PyTuple _ => true
  | _ => false
  end.

Module Node.

#[warnings="-register-all"]
Inductive t : Type := mk {
  _key : PyValue;
  _state : Frame;
  _actions : option (list MacroAction.t);
  _children : list (PyValue * t);
  _state_visits : Z;
  _q_values : option (list Q);
  _action_visits : option (list Z)
}.

Definition __init__ (key : PyValue) (state : Frame)
    (actions : option (list MacroAction.t)) : outcome t :=
  if bool_decide (key = PyNone) || negb (is_tuple key) then Raise TypeError
  else Done (mk key state actions [] 0 None None).

(** [np.zeros(len(actions))] and [np.zeros(len(actions), dtype=np.int32)] *)
Definition expand (self : t) : outcome t :=
  match _actions self with
  | None => Raise TypeError
  | Some actions =>
      Done (mk (_key self) (_state self) (_actions self) (_children self)
              (_state_visits self)
              (Some (repeat 0 (List.length actions)))
              (Some (repeat 0%Z (List.length actions))))
  end.

Definition add_child (self child : t) : t :=
  mk (_key self) (_state self) (_actions self)
    (dict_set (_key child) child (_children self))
    (_state_visits self) (_q_values self) (_action_visits self).

(** The setters of the properties [q_values] and [state_visits]. *)
Definition set_q_values (self : t) (value : option (list Q)) : t :=
  mk (_key self) (_state self) (_actions self) (_children self)
    (_state_visits self) value (_action_visits self).

Definition set_state_visits (self : t) (value : Z) : t :=
  mk (_key self) (_state self) (_actions self) (_children self)
    value (_q_values self) (_action_visits self).

Definition is_leaf (self : t) : bool :=
  bool_decide (List.length (_children self) = 0%nat).

(** The two states of the specification. *)
Definition unexpanded (n : t) : Prop :=
  _q_values n = None /\ _action_visits n = None.

Definition expanded (n : t) : Prop :=
  exists q v actions,
    _q_values n = Some q /\ _action_visits n = Some v /\ _actions n = Some actions /\
    List.length q = List.length actions /\ List.length v = List.length actions.

Definition two_states (n : t) : Prop := unexpanded n \/ expanded n.

(** The calls a client can make on a node. *)
Inductive call : Type :=
| Expand
| AddChild (child : t)
| SetQValues (value : option (list Q))
| SetStateVisits (value : Z).

Definition run (c : call) (self : t) : outcome t :=
  match c with
  | Expand => expand self
  | AddChild child => Done (add_child self child)
  | SetQValues value => Done (set_q_values self value)
  | SetStateVisits value => Done (set_state_visits self value)
  end.

(** A call that keeps the arrays in step with the action list: everything
    but an assignment to [q_values] of anything other than an array of
    [len(actions)] entries on an expanded node. *)
Definition in_step (c : call) (self : t) : Prop :=
  match c with
  | SetQValues value =>
      exists q actions, value = Some q /\ _actions self = Some actions /\
                        List.length q = List.length actions /\
                        is_Some (_action_visits self)
  | _ => True
  end.

(** Nodes obtained from the constructor by calls that come back; a raised
    exception leaves the node as it was. *)
Inductive built : (call -> t -> Prop) -> t -> Prop :=
| built_init allowed key state actions n :
    __init__ key state actions = Done n -> built allowed n
| built_call allowed c n n' :
    built allowed n -> allowed c n -> run c n = Done n' -> built allowed n'.

End Node.

(** ** The lane walk, declaratively *)

(** [chain_at m l total n]: the lane reached from [l] after [n] hops along
    first successors, with the accumulated length of the lanes left behind
    (starting from [total]). *)
Fixpoint chain_at (m : Map.t) (l : LaneRef) (total : Q) (n : nat)
  : option (LaneRef * Q) :=
  match n with
  | O => Some (l, total)
  | S n' =>
      match Lane.successor (Map.lane m l) with
      | Some (s :: _) => chain_at m s (total + Lane.length (Map.lane m l)) n'
      | _ => None
      end
  end.

(** The arc length [ds] falls on lane [x.1], which starts at arc length [x.2]. *)
Definition contains (m : Map.t) (ds : Q) (x : LaneRef * Q) : Prop :=
  x.2 <= ds /\ ds < x.2 + Lane.length (Map.lane m x.1).

(** [r] is the lane and offset found at arc length [ds] on the chain that
    starts at [l] with accumulated length [total]: the first lane of the chain
    that contains [ds]. *)
Definition at_arc_length (m : Map.t) (l : LaneRef) (total ds : Q)
    (r : LaneRef * Q) : Prop :=
  exists n t, chain_at m l total n = Some (r.1, t) /\
              contains m ds (r.1, t) /\ r.2 = ds - t /\
              forall k x, (k < n)%nat -> chain_at m l total k = Some x ->
                          ~ contains m ds x.

(** [r] is the end of the last lane of the chain, and no lane of the chain
    contains [ds]. *)
Definition at_chain_end (m : Map.t) (l : LaneRef) (total ds : Q)
    (r : LaneRef * Q) : Prop :=
  exists n t, chain_at m l total n = Some (r.1, t) /\
              Lane.successor (Map.lane m r.1) = None /\
              r.2 = Lane.length (Map.lane m r.1) /\
              forall k x, chain_at m l total k = Some x -> ~ contains m ds x.

(** The chain reaches a lane whose successor list is empty, and no lane of
    the chain contains [ds]. *)
Definition at_broken_link (m : Map.t) (l : LaneRef) (total ds : Q) : Prop :=
  exists n x, chain_at m l total n = Some x /\
              Lane.successor (Map.lane m x.1) = Some [] /\
              forall k y, chain_at m l total k = Some y -> ~ contains m ds y.

(** ** Scenarios

    Small road layouts and frames on which the definitions are run. Lanes are
    straight and lie along the x axis: the lane starting at [x0] maps the arc
    length [d] to the point [(x0 + d, 0)]. *)

Module Scenario.

(** The lane with the given id, road and lane section that starts at
    [(x0, y0)] and runs for [len] along the x axis. *)
Definition make_lane (id : Z) (road : RoadRef) (section : LaneSection.t)
    (x0 y0 len : Q) (succ : option (list LaneRef)) : Lane.t :=
  Lane.mk id len succ road section
    (x0 + len, y0)
    (fun p => p.1 - x0)
    (fun d => (x0 + d, y0))
    (fun _ => 0)
    (fun p => Qabs (p.1 - x0)).

Definition straight_lane (x0 len : Q) (succ : option (list LaneRef)) : Lane.t :=
  make_lane (-1) 0%nat (LaneSection.mk [] (fun _ => None)) x0 0 len succ.

(** A map made of the lanes given by [lanes]; every point with ordinate 0
    lies on lane 0, every other point on no lane. *)
Definition road_map (lanes : LaneRef -> Lane.t) : Map.t :=
  Map.mk lanes (fun _ => Road.mk 0 None)
    (fun p _ => if Qeq_bool p.2 0 then Some 0%nat else None)
    (fun p _ => if Qeq_bool p.2 0 then Some 0%nat else None)
    (fun _ _ => []) (fun _ _ _ _ => []) (fun _ => None) (fun _ => false)
    (fun _ => []).

(** One lane of length 10 with no successor. *)
Definition dead_end : Map.t := road_map (fun _ => straight_lane 0 10 None).

(** Two lanes of length 10 in a row. *)
Definition two_lanes : Map.t :=
  road_map (fun l => match l with
                     | O => straight_lane 0 10 (Some [1%nat])
                     | _ => straight_lane 10 10 None
                     end).

(** A roundabout made of one lane of length [len] that is its own
    successor. *)
Definition roundabout (len : Q) : Map.t :=
  road_map (fun _ => straight_lane 0 len (Some [0%nat])).

Definition agent (x y v : Q) : AgentState.t := AgentState.mk 0 (x, y) v 0 0 v.

(** The ego on the lane, one agent on the lane and one agent off the road. *)
Definition frame : Frame :=
  [ (0%Z, agent 0 0 1); (1%Z, agent 5 0 2); (2%Z, agent 3 50 1) ].

(** The same dictionary, filled in another order. *)
Definition frame_reordered : Frame :=
  [ (2%Z, agent 3 50 1); (1%Z, agent 5 0 2); (0%Z, agent 0 0 1) ].

(** A trajectory class: the final state is the last sample, reached with
    the last velocity; the duration is the number of samples after the
    first. *)
Definition trajectory_class : TrajectoryClass :=
  {| final_agent_state := fun tr =>
       let p := last (default [] (VelocityTrajectory.path tr)) in
       let v := last (default [] (VelocityTrajectory.velocity tr)) in
       AgentState.mk 0 (default (0, 0) p) (default 0 v) 0 0 (default 0 v);
     duration := fun tr =>
       inject_Z (Z.of_nat (Nat.pred (List.length (default [] (VelocityTrajectory.path tr))))) |}.

Definition follow : Maneuver.t :=
  Maneuver.mk [(0, 0); (1, 0); (2, 0)] [1; 1; 1]
    (fun _ _ => false) (fun _ _ => mkAction 0 0).

Definition follow_on : Maneuver.t :=
  Maneuver.mk [(2, 0); (3, 0); (4, 0)] [1; 1; 1]
    (fun _ _ => false) (fun _ _ => mkAction 0 0).

Definition macro (open_loop : bool) (m : Map.t) (mans : list Maneuver.t) : MacroAction.t :=
  MacroAction.mk open_loop 0 frame None m (Some mans) CurNone.

Definition macro_dead_end : MacroAction.t := macro true dead_end [follow; follow_on].

Definition macro_two_lanes : MacroAction.t := macro true two_lanes [follow; follow_on].

(** The trajectory of both macro actions: five samples, duration 4. *)
Definition trajectory : VelocityTrajectory.t :=
  VelocityTrajectory.mk (Some [(0, 0); (1, 0); (2, 0); (3, 0); (4, 0)])
                        (Some [1; 1; 1; 1; 1]).

(** A road with two lanes (ids -1 and -2, handles 0 and 1) beside its center
    lane (id 0, handle 2), 50 long, leading into a junction road with one
    lane (handle 3) beside its center lane (handle 4). Points with ordinate 0
    lie on lane -1, points with ordinate -3 on lane -2; points beyond
    abscissa 50 lie in the junction. *)
Definition approach_section : LaneSection.t :=
  LaneSection.mk [2%nat; 0%nat; 1%nat]
    (fun tid => if Z.eqb tid 0 then Some 2%nat
                else if Z.eqb tid (-1) then Some 0%nat
                else if Z.eqb tid (-2) then Some 1%nat
                else None).

Definition junction_section : LaneSection.t :=
  LaneSection.mk [4%nat; 3%nat]
    (fun tid => if Z.eqb tid 0 then Some 4%nat
                else if Z.eqb tid (-1) then Some 3%nat
                else None).

Definition approach : Map.t :=
  Map.mk
    (fun l => match l with
              | 0%nat => make_lane (-1) 0%nat approach_section 0 0 50 (Some [3%nat])
              | 1%nat => make_lane (-2) 0%nat approach_section 0 (-3) 50 (Some [3%nat])
              | 2%nat => make_lane 0 0%nat approach_section 0 0 50 None
              | 3%nat => make_lane (-1) 1%nat junction_section 50 0 20 None
              | _ => make_lane 0 1%nat junction_section 50 0 20 None
              end)
    (fun r => match r with
              | 0%nat => Road.mk 0 None
              | _ => Road.mk 1 (Some 0%nat)
              end)
    (fun p _ => if Qeq_bool p.2 0 then Some 0%nat
                else if Qeq_bool p.2 (-3) then Some 1%nat else None)
    (fun p _ => if Qeq_bool p.2 0 then Some 0%nat
                else if Qeq_bool p.2 (-3) then Some 1%nat else None)
    (fun p _ => if Qeq_bool p.2 0 then [0%nat]
                else if Qeq_bool p.2 (-3) then [1%nat] else [])
    (fun _ _ _ _ => [])
    (fun p => if Qltb 50 p.1 then Some 0%nat else None)
    (fun _ => false)
    (fun _ => []).

Definition switch_lane : SwitchLaneClass :=
  {| MIN_SWITCH_LENGTH := 5; TARGET_SWITCH_LENGTH := 20 |}.

(** A maneuver library for the approach: the line of a lane sequence is the
    x axis from 0 to 50, every constructor hands back a maneuver that ends at
    its termination point, and projecting a maneuver keeps the frame. *)
Definition maneuver_to (termination_point : Point) : Maneuver.t :=
  Maneuver.mk [termination_point] [5] (fun _ _ => false) (fun _ _ => mkAction 0 0).

Definition library : ManeuverLibrary :=
  {| line_of_lanes := fun _ _ => LineString.mk 50 (fun p => p.1) (fun d => (d, 0));
     FollowLane := fun p _ _ _ => Done (maneuver_to p);
     SwitchLaneLeft := fun _ p _ _ _ => Done (maneuver_to p);
     SwitchLaneRight := fun _ p _ _ _ => Done (maneuver_to p);
     play_forward_maneuver := fun _ _ frame _ => Done frame |}.

(** The ego on lane -2 at abscissa 10, with a neighbour of the same speed
    two units ahead on lane -1. *)
Definition frame_blocked : Frame :=
  [ (0%Z, agent 10 (-3) 5); (1%Z, agent 12 0 5) ].

(** The ego on lane -2, alone, five units before the end of the lanes. *)
Definition frame_short : Frame := [ (0%Z, agent 45 (-3) 5) ].

(** The ego on lane -2 at abscissa 10 with a slower neighbour two units
    ahead on lane -1. *)
Definition frame_crowded : Frame :=
  [ (0%Z, agent 10 (-3) 5); (1%Z, agent 12 0 4) ].

(** The same pair of agents ten units further back. *)
Definition frame_passing : Frame :=
  [ (0%Z, agent 0 (-3) 5); (1%Z, agent 2 0 4) ].

(** A junction: every point lies in it. Three lanes are within the angle
    threshold of any heading at points with ordinate 0, the first two ending
    a tenth of a unit apart; at other points no lane is, and the best
    drivable lane is lane 2. *)
Definition crossing : Map.t :=
  Map.mk
    (fun l => match l with
              | 0%nat => make_lane (-1) 1%nat junction_section 0 0 20 None
              | 1%nat => make_lane (-1) 1%nat junction_section 0 0 20.1 None
              | _ => make_lane (-1) 1%nat junction_section 0 5 20 None
              end)
    (fun _ => Road.mk 1 (Some 0%nat))
    (fun _ _ => Some 2%nat)
    (fun _ _ => Some 2%nat)
    (fun _ _ => [])
    (fun p _ _ _ => if Qeq_bool p.2 0 then [0%nat; 1%nat; 2%nat] else [])
    (fun _ => Some 0%nat)
    (fun _ => false)
    (fun _ => []).

(** A fork outside any junction: lane 0 is followed by lanes 1 and 2, which
    end at [(20, 0)] and [(20, 5)], and by lane 3 on a roundabout road. *)
Definition fork : Map.t :=
  Map.mk
    (fun l => match l with
              | 0%nat => make_lane (-1) 0%nat approach_section 0 0 10
                           (Some [1%nat; 2%nat; 3%nat])
              | 1%nat => make_lane (-1) 1%nat junction_section 10 0 10 None
              | 2%nat => make_lane (-1) 1%nat junction_section 10 5 10 None
              | _ => make_lane (-1) 2%nat junction_section 10 (-5) 10 None
              end)
    (fun r => match r with
              | 0%nat => Road.mk 0 None
              | _ => Road.mk 1 (Some 0%nat)
              end)
    (fun _ _ => Some 0%nat)
    (fun _ _ => Some 0%nat)
    (fun _ _ => []) (fun _ _ _ _ => [])
    (fun _ => None)
    (fun r => match r with 2%nat => true | _ => false end)
    (fun _ => []).

Definition macro_agent (goal : Point) : MacroAgent.t :=
  MacroAgent.mk 0 (Some goal) None.

(** A subclass whose [get_maneuvers] hands back one lane-follow maneuver. *)
Definition get_maneuvers (open_loop : bool) (agent_id : Z) (frame : Frame)
    (m : Map.t) : outcome (list Maneuver.t * option Frame) :=
  Done ([follow], None).

Definition constructed : MacroAction.t :=
  MacroAction.mk false 0 frame None dead_end (Some [follow]) CurNone.

(** The call of a macro action class, reduced to what the agent needs of it:
    an [Exit] takes a turn target, and the built object remembers it as the
    last point of its only maneuver. *)
Definition construct (cls : macro_class) (arguments : kwargs) (agent_id : Z)
    (frame : Frame) (m : Map.t) (open_loop : bool) : outcome MacroAction.t :=
  match cls, arguments with
  | Exit, TurnTarget t =>
      Done (MacroAction.mk open_loop agent_id frame None m
              (Some [Maneuver.mk [t] [] (fun _ _ => false) (fun _ _ => mkAction 0 0)])
              CurNone)
  | Exit, _ => Raise TypeError
  | _, NoArguments =>
      Done (MacroAction.mk open_loop agent_id frame None m (Some []) CurNone)
  | _, _ => Raise TypeError
  end.

(** A macro action whose current maneuver has been set by hand to a
    maneuver that reports done. *)
Definition finished : Maneuver.t :=
  Maneuver.mk [(0, 0); (1, 0)] [1; 1] (fun _ _ => true) (fun _ _ => mkAction 0 0).

Definition stepping : MacroAction.t :=
  MacroAction.mk false 0 frame None dead_end (Some [finished; follow])
    (CurManeuver finished).

(** The root of a search tree with two actions. *)
Definition root : Node.t :=
  Node.mk (PyTuple [PyStr "Root"]) frame (Some [macro_dead_end; macro_two_lanes])
    [] 0 None None.

Definition root_expanded : Node.t :=
  Node.mk (PyTuple [PyStr "Root"]) frame (Some [macro_dead_end; macro_two_lanes])
    [] 0 (Some [0; 0]) (Some [0%Z; 0%Z]).

End Scenario.

(** ** Statements of the specification, and predicates of the properties *)

(** [state'] is [agent] moved to the offset [r.2] of the lane [r.1]:
    position and heading are those of the lane geometry there, every other
    attribute is the one of [agent]. *)
Definition moved_to (m : Map.t) (agent : AgentState.t) (r : LaneRef * Q)
    (state' : AgentState.t) : Prop :=
  AgentState.position state' = Lane.point_at (Map.lane m r.1) r.2 /\
  AgentState.heading state' = Lane.get_heading_at (Map.lane m r.1) r.2 /\
  AgentState.time state' = AgentState.time agent /\
  AgentState.velocity state' = AgentState.velocity agent /\
  AgentState.acceleration state' = AgentState.acceleration agent /\
  AgentState.speed state' = AgentState.speed agent.

(** The forward projection as the specification words it: a frame comes
    back in which the ego holds the final sample of the trajectory and every
    other agent of the input frame stands at the arc length
    [distance + duration * speed] of the lane chain it is on. *)
Definition projects_every_agent (tc : TrajectoryClass) (ego : Z) (m : Map.t)
    (frame : Frame) (ma : MacroAction.t) : Prop :=
  exists fuel trajectory new_frame,
    get_trajectory ma = Done trajectory /\
    play_forward_macro_action fuel tc ego m frame (Some ma) = Done new_frame /\
    dict_get ego new_frame = Some (final_agent_state tc trajectory) /\
    forall aid agent, aid <> ego -> dict_get aid frame = Some agent ->
      exists l0 r state',
        Map.best_lane_at m (AgentState.position agent) (AgentState.heading agent) = Some l0 /\
        at_arc_length m l0 0
          (Lane.distance_at (Map.lane m l0) (AgentState.position agent)
           + duration tc trajectory * AgentState.speed agent) r /\
        dict_get aid new_frame = Some state' /\
        moved_to m agent r state'.

(** The ids of a projected frame as the specification words them: the ego,
    and the other ids of the input frame whose agent the map places on a
    lane. *)
Definition ids_of_projection (ego : Z) (m : Map.t) (frame new_frame : Frame) : Prop :=
  forall aid,
    aid ∈ dict_keys new_frame <->
    aid = ego \/
    exists agent, dict_get aid frame = Some agent /\
      is_Some (Map.best_lane_at m (AgentState.position agent) (AgentState.heading agent)).

(** The lane walk as the specification words it: it comes back on the
    input at hand. *)
Definition lane_walk_comes_back (m : Map.t) (lane : LaneRef) (ds : Q) : Prop :=
  exists fuel, terminates (_lane_at_distance fuel m lane ds).

(** One iteration count within which the walk comes back on all inputs. *)
Definition lane_walk_bounded : Prop :=
  exists bound, forall m lane ds, terminates (_lane_at_distance bound m lane ds).

(** The closed-loop cursor as the specification words it: the current
    maneuver is never [None] and never a list. *)
Definition tracks_current_maneuver (ma : MacroAction.t) : Prop :=
  MacroAction._current_maneuver ma <> CurNone /\
  forall mans, MacroAction._current_maneuver ma <> CurList mans.

(** The enumeration inside a junction as the specification words it: every
    turn target is the endpoint of a lane within the angle threshold. *)
Definition targets_within_angle (state : AgentState.t) (m : Map.t)
    (possible_args : list kwargs) : Prop :=
  forall t, TurnTarget t ∈ possible_args ->
    exists lane,
      lane ∈ Map.lanes_within_angle m (AgentState.position state)
               (AgentState.heading state) LANE_ANGLE_THRESHOLD 0.5 /\
      t = Lane.midline_end (Map.lane m lane).

(** No target of the list is close to a later one. *)
Definition distinct_targets (targets : list Point) : Prop :=
  forall i j p q, (i < j)%nat -> targets !! i = Some p -> targets !! j = Some q ->
                  allclose 0.25 p q = false.

(** The entry of the start frame is a neighbour on the target lane sequence
    with the speed of the ego, closer than the minimum switch length. *)
Definition blocks (sl : SwitchLaneClass) (m : Map.t) (agent_id : Z)
    (state : AgentState.t) (target_lane_sequence : list LaneRef)
    (target_midline : LineString.t) (entry : Z * AgentState.t) : Prop :=
  entry.1 <> agent_id /\
  on_lane_sequence m target_lane_sequence entry.2 = true /\
  isclose (AgentState.speed state - AgentState.speed entry.2) 0 = true /\
  Qabs (LineString.project target_midline (AgentState.position entry.2)
        - LineString.project target_midline (AgentState.position state))
  < MIN_SWITCH_LENGTH sl.

(** The switch lengths tried in turn: [d], [d - 5], [d - 5 - 5], ... *)
Fixpoint candidate (d : Q) (k : nat) : Q :=
  match k with
  | O => d
  | S k' => candidate (d - 5) k'
  end.

(** A change of length [d_change] started at the first free time is not over
    when the lane ends. *)
Definition too_long (speed : Q) (oncoming_intervals : list (Q * Q * Q))
    (t_lane_end d_change : Q) : Prop :=
  t_lane_end <= first_free_time oncoming_intervals d_change (d_change / speed)
                + d_change / speed.

(** ** Further methods of the macro action classes *)

(** [MacroAction.done]: [len(self._maneuvers) == 0 and
    self._current_maneuver.done(frame, scenario_map)]; [len(None)] raises. *)
Definition MacroAction_done (self : MacroAction.t) (frame : Frame) (m : Map.t)
  : outcome bool :=
  match MacroAction._maneuvers self with
  | None => Raise TypeError
  | Some maneuvers =>
      if Nat.eqb (List.length maneuvers) 0
      then call_done (MacroAction._current_maneuver self) frame m
      else Done false
  end.

(** The entries of the input frame that forward projection writes. *)
Definition projected (ego : Z) (m : Map.t) (e : Z * AgentState.t) : Prop :=
  e.1 <> ego /\
  is_Some (Map.best_lane_at m (AgentState.position e.2) (AgentState.heading e.2)).

#[local] Instance projected_dec ego m e : Decision (projected ego m e).
Proof. unfold projected. apply _. Defined.

(** The children dictionary of a node is keyed by the children's own keys,
    each key once. *)
Definition keyed_children (n : Node.t) : Prop :=
  NoDup (dict_keys (Node._children n)) /\
  forall k child, (k, child) ∈ Node._children n -> Node._key child = k.

(** An interval of [_get_oncoming_vehicle_intervals] is in order: it starts
    at a time that is not negative and ends later, after time 0. *)
Definition interval_ok (iv : Q * Q * Q) : Prop :=
  0 <= iv.1.1 /\ iv.1.1 <= iv.1.2 /\ 0 < iv.1.2.

(** The intervals come by ascending start time. *)
Definition starts_ascending (l : list (Q * Q * Q)) : Prop :=
  StronglySorted (fun x y : Q * Q * Q => x.1.1 <= y.1.1) l.

(** A change of length [d_change] that starts at [t_start] and lasts
    [t_change] does not meet the interval [iv], as far as the vehicle of the
    interval is closer than the length of the change. *)
Definition clear_of (d_change t_start t_change : Q) (iv : Q * Q * Q) : Prop :=
  Qabs iv.2 < d_change -> iv.1.2 <= t_start \/ t_start + t_change <= iv.1.1.


(** The lane has no lane to change to on the given side: there is no lane
    with the target id in its lane section, or that lane is the center
    lane. *)
Definition no_target_lane (left : bool) (m : Map.t) (lane : LaneRef) : Prop :=
  match _get_target_lane left m lane with
  | None => True
  | Some target_lane => Lane.id (Map.lane m target_lane) = 0%Z
  end.

(** ** The maneuvers of an exit *)

(** [Exit.GIVE_WAY_DISTANCE] and [Exit.TURN_TARGET_THRESHOLD] *)
Definition GIVE_WAY_DISTANCE : Q := 10.

Definition TURN_TARGET_THRESHOLD : Q := 1.

(** The loop of [Exit._nearest_lane_to_goal]. Distances are compared by
    their squares, as in [norm2]; [best_distance = None] is [np.inf]. *)
Fixpoint nearest_lane_loop (m : Map.t) (turn_target : Point) (lane_list : list LaneRef)
    (best_lane : option LaneRef) (best_distance : option Q) : option LaneRef :=
  match lane_list with
  | [] => best_lane
  | connecting_lane :: rest =>
      let distance := norm2 turn_target (Lane.midline_end (Map.lane m connecting_lane)) in
      if Qltb distance (TURN_TARGET_THRESHOLD * TURN_TARGET_THRESHOLD)
         && match best_distance with
            | None => true
            | Some best => Qltb distance best
            end
      then nearest_lane_loop m turn_target rest (Some connecting_lane) (Some distance)
      else nearest_lane_loop m turn_target rest best_lane best_distance
  end.

Definition _nearest_lane_to_goal (m : Map.t) (turn_target : Point)
    (lane_list : list LaneRef) : option LaneRef :=
  nearest_lane_loop m turn_target lane_list None None.

(** [Exit._find_current_lane] *)
Definition _find_current_lane (m : Map.t) (turn_target : Point) (state : AgentState.t)
    (in_junction : bool) : option LaneRef :=
  if negb in_junction
  then Map.best_lane_at m (AgentState.position state) (AgentState.heading state)
  else _nearest_lane_to_goal m turn_target
         (Map.lanes_at m (AgentState.position state) (Some 0.5)).

(** [Exit._find_connecting_lane]: iterating over a successor link that is
    [None] raises. *)
Definition _find_connecting_lane (m : Map.t) (turn_target : Point)
    (current_lane : LaneRef) : outcome (option LaneRef) :=
  match Lane.successor (Map.lane m current_lane) with
  | None => Raise TypeError
  | Some successor => Done (_nearest_lane_to_goal m turn_target successor)
  end.

(** The maneuvers of a junction, defined in the maneuver library: the
    constructors [GiveWay] and [Turn], given the termination point, the
    junction road id and the junction lane id of their configuration, and
    the constant [Maneuver.POINT_SPACING]. *)
Record JunctionManeuvers : Type := {
  POINT_SPACING : Q;
  GiveWay : Point -> Z -> Z -> Z -> Frame -> Map.t -> outcome Maneuver.t;
  Turn : Point -> Z -> Z -> Z -> Frame -> Map.t -> outcome Maneuver.t
}.

(** The part of [Exit.get_maneuvers] that runs ahead of a junction: the
    maneuvers up to the junction, the frame after them and the connecting
    lane. Reading [parent_road] of a connecting lane that is [None]
    raises. *)
Definition Exit_approach (lib : ManeuverLibrary) (jm : JunctionManeuvers)
    (turn_target : Point) (agent_id : Z) (start_frame : Frame) (m : Map.t)
    (current_lane : LaneRef) (current_distance : Q)
  : outcome (list Maneuver.t * Frame * LaneRef) :=
  followed ←
    (if Qltb (GIVE_WAY_DISTANCE + POINT_SPACING jm)
             (Lane.length (Map.lane m current_lane) - current_distance)
     then
       let distance_of_termination :=
         Lane.length (Map.lane m current_lane) - GIVE_WAY_DISTANCE in
       let lane_follow_termination :=
         Lane.point_at (Map.lane m current_lane) distance_of_termination in
       man ← FollowLane lib lane_follow_termination agent_id start_frame m;
       frame ← play_forward_maneuver lib agent_id m start_frame man;
       Done ([man], frame)
     else Done ([], start_frame));
  connecting ← _find_connecting_lane m turn_target current_lane;
  match connecting with
  | None => Raise AttributeError
  | Some connecting_lane =>
      man ← GiveWay jm (Lane.midline_end (Map.lane m current_lane))
              (Road.id (Map.road m (Lane.parent_road (Map.lane m connecting_lane))))
              (Lane.id (Map.lane m connecting_lane))
              agent_id followed.2 m;
      frame ← play_forward_maneuver lib agent_id m followed.2 man;
      Done (followed.1 ++ [man], frame, connecting_lane)
  end.

(** [Exit.get_maneuvers]. Calling [distance_at] on a current lane that is
    [None] raises. *)
Definition Exit_get_maneuvers (lib : ManeuverLibrary) (jm : JunctionManeuvers)
    (turn_target : Point) (open_loop : bool) (agent_id : Z) (start_frame : Frame)
    (m : Map.t) : outcome (list Maneuver.t * option Frame) :=
  match dict_get agent_id start_frame with
  | None => Raise KeyError
  | Some state =>
      let in_junction :=
        bool_decide (is_Some (Map.junction_at m (AgentState.position state))) in
      match _find_current_lane m turn_target state in_junction with
      | None => Raise AttributeError
      | Some current_lane =>
          let current_distance :=
            Lane.distance_at (Map.lane m current_lane) (AgentState.position state) in
          if open_loop then
            approached ←
              (if negb in_junction
               then Exit_approach lib jm turn_target agent_id start_frame m
                      current_lane current_distance
               else Done ([], start_frame, current_lane));
            let maneuvers := approached.1.1 in
            let frame := approached.1.2 in
            let connecting_lane := approached.2 in
            man ← Turn jm turn_target
                    (Road.id (Map.road m (Lane.parent_road (Map.lane m connecting_lane))))
                    (Lane.id (Map.lane m connecting_lane))
                    agent_id frame m;
            final_frame ← play_forward_maneuver lib agent_id m frame man;
            Done (maneuvers ++ [man], Some final_frame)
          else Done ([], None)
      end
  end.

(** [Exit.__init__] *)
Definition Exit__init__ (lib : ManeuverLibrary) (jm : JunctionManeuvers)
    (turn_target : Point) (agent_id : Z) (frame : Frame) (scenario_map : Map.t)
    (open_loop : bool) : outcome MacroAction.t :=
  MacroAction__init__ (Exit_get_maneuvers lib jm turn_target)
    agent_id frame scenario_map open_loop.

(** The lane is in the list, its midline ends within the threshold of the
    turn target, and no lane of the list ends nearer to the target. *)
Definition nearest_within (m : Map.t) (turn_target : Point) (lane_list : list LaneRef)
    (lane : LaneRef) : Prop :=
  lane ∈ lane_list /\
  norm2 turn_target (Lane.midline_end (Map.lane m lane))
  < TURN_TARGET_THRESHOLD * TURN_TARGET_THRESHOLD /\
  forall other, other ∈ lane_list ->
    norm2 turn_target (Lane.midline_end (Map.lane m lane))
    <= norm2 turn_target (Lane.midline_end (Map.lane m other)).

(** No lane of the list ends within the threshold of the turn target. *)
Definition none_within (m : Map.t) (turn_target : Point) (lane_list : list LaneRef)
  : Prop :=
  forall other, other ∈ lane_list ->
    TURN_TARGET_THRESHOLD * TURN_TARGET_THRESHOLD
    <= norm2 turn_target (Lane.midline_end (Map.lane m other)).

Module ExitScenario.

(** Junction maneuvers in the manner of [Scenario.library]: every
    constructor hands back a maneuver that ends at its termination point. *)
Definition junction_maneuvers : JunctionManeuvers :=
  {| POINT_SPACING := 0.25;
     GiveWay := fun p _ _ _ _ _ => Done (Scenario.maneuver_to p);
     Turn := fun p _ _ _ _ _ => Done (Scenario.maneuver_to p) |}.

End ExitScenario.

(** ** Trajectory agents *)

(** [xs[i]] on a Python sequence or a numpy array: an index below zero
    counts from the end, an index out of range raises. *)
Definition py_index {A} (xs : list A) (i : Z) : outcome A :=
  let n := Z.of_nat (List.length xs) in
  let j := if (i <? 0)%Z then (n + i)%Z else i in
  if (0 <=? j)%Z && (j <? n)%Z
  then match xs !! Z.to_nat j with
       | Some x => Done x
       | None => Raise IndexError
       end
  else Raise IndexError.

Module AgentTrajectory.
(** The arrays of a trajectory that a trajectory agent reads. *)
Record t : Type := mk {
  path : list Point;
  acceleration : list Q;
  angular_velocity : list Q
}.
End AgentTrajectory.

Module TrajectoryAgent.

Record t : Type := mk {
  agent_id : Z;
  alive : bool;
  _t : Z;
  open_loop : bool;
  _trajectory : option AgentTrajectory.t;
  _maneuver : option Maneuver.t
}.

Definition set_alive (self : t) (value : bool) : t :=
  mk (agent_id self) value (_t self) (open_loop self) (_trajectory self) (_maneuver self).

Definition set_t (self : t) (value : Z) : t :=
  mk (agent_id self) (alive self) value (open_loop self) (_trajectory self)
    (_maneuver self).

Definition set_maneuver (self : t) (value : option Maneuver.t) : t :=
  mk (agent_id self) (alive self) (_t self) (open_loop self) (_trajectory self) value.

(** [TrajectoryAgent.done]: the agent after the call and what the call
    hands back. Reading [path] of a trajectory that is [None] raises; the
    distance to the last point is compared by its square. *)
Definition done (self : t) (frame : Frame) : t * outcome bool :=
  match _trajectory self with
  | None => (self, Raise AttributeError)
  | Some trajectory =>
      let done :=
        if open_loop self
        then Done (Z.eqb (_t self)
                     (Z.of_nat (List.length (AgentTrajectory.path trajectory)) - 1))
        else
          p ← py_index (AgentTrajectory.path trajectory) (-1);
          match dict_get (agent_id self) frame with
          | None => Raise KeyError
          | Some state => Done (Qltb (norm2 p (AgentState.position state)) (0.5 * 0.5))
          end in
      match done with
      | Done d => (if alive self && d then set_alive self false else self, Done d)
      | Raise e => (self, Raise e)
      | OutOfFuel => (self, OutOfFuel)
      end
  end.

(** [TrajectoryAgent.next_action]; [maneuver_cl] is the constructor
    [TrajectoryManeuverCL] of the closed-loop maneuver library, given the
    termination point of its configuration. *)
Definition next_action
    (maneuver_cl : Point -> Z -> Frame -> Map.t -> AgentTrajectory.t -> outcome Maneuver.t)
    (self : t) (frame : Frame) (m : Map.t) : t * outcome (option Action) :=
  match _trajectory self with
  | None => (self, Raise AssertionError)
  | Some trajectory =>
      let r := done self frame in
      match r.2 with
      | Done true => (r.1, Done None)
      | Done false =>
          let self := set_t r.1 (_t r.1 + 1) in
          if open_loop self then
            (self,
             a ← py_index (AgentTrajectory.acceleration trajectory) (_t self);
             w ← py_index (AgentTrajectory.angular_velocity trajectory) (_t self);
             Done (Some (mkAction a w)))
          else
            match _maneuver self with
            | Some man => (self, Done (Some (Maneuver.next_action man frame m)))
            | None =>
                match py_index (AgentTrajectory.path trajectory) (-1) with
                | Done p =>
                    match maneuver_cl p (agent_id self) frame m trajectory with
                    | Done man =>
                        (set_maneuver self (Some man),
                         Done (Some (Maneuver.next_action man frame m)))
                    | Raise e => (self, Raise e)
                    | OutOfFuel => (self, OutOfFuel)
                    end
                | Raise e => (self, Raise e)
                | OutOfFuel => (self, OutOfFuel)
                end
            end
      | Raise e => (r.1, Raise e)
      | OutOfFuel => (r.1, OutOfFuel)
      end
  end.

(** A series of calls of [next_action], one per observation: the agent
    after the calls and what each call handed back. *)
Fixpoint next_actions
    (maneuver_cl : Point -> Z -> Frame -> Map.t -> AgentTrajectory.t -> outcome Maneuver.t)
    (self : t) (observations : list (Frame * Map.t))
  : t * list (outcome (option Action)) :=
  match observations with
  | [] => (self, [])
  | (frame, m) :: rest =>
      let r := next_action maneuver_cl self frame m in
      let rs := next_actions maneuver_cl r.1 rest in
      (rs.1, r.2 :: rs.2)
  end.

End TrajectoryAgent.

(** The action that an open-loop agent reads at index [i] of its
    trajectory. *)
Definition action_at (trajectory : AgentTrajectory.t) (i : nat) : Action :=
  mkAction (nth i (AgentTrajectory.acceleration trajectory) 0)
           (nth i (AgentTrajectory.angular_velocity trajectory) 0).

(** An open-loop agent that has just been given a trajectory whose arrays
    have one entry per point. *)
Definition fresh_open_loop (agent : TrajectoryAgent.t) (trajectory : AgentTrajectory.t)
  : Prop :=
  TrajectoryAgent._trajectory agent = Some trajectory /\
  TrajectoryAgent.open_loop agent = true /\
  TrajectoryAgent.alive agent = true /\
  TrajectoryAgent._t agent = 0%Z /\
  List.length (AgentTrajectory.acceleration trajectory)
  = List.length (AgentTrajectory.path trajectory) /\
  List.length (AgentTrajectory.angular_velocity trajectory)
  = List.length (AgentTrajectory.path trajectory).

(** ** The control loop of the CARLA simulation *)

Module CarlaSim.

Definition MAX_ACCELERATION : Q := 5.

Record VehicleControl : Type := mkControl {
  throttle : Q;
  brake : Q;
  steer : Q;
  hand_brake : bool;
  manual_gear_shift : bool
}.

(** [min(a, b)] of Python: the first argument unless the second is
    smaller. *)
Definition py_min2 (a b : Q) : Q := if Qltb b a then b else a.

(** The control that [__take_actions] of [igp2/carla/carla_client.py]
    works out for an action. *)
Definition control_of (action : Action) : VehicleControl :=
  match action with
  | mkAction acceleration steer_angle =>
      let norm_acceleration := acceleration / MAX_ACCELERATION in
      if Qle_bool 0 acceleration
      then mkControl (py_min2 1 norm_acceleration) 0 (- steer_angle) false false
      else mkControl 0 (py_min2 (- norm_acceleration) 1) (- steer_angle) false false
  end.

(** One round of the loop of [__take_actions] for a trajectory agent that
    is not dead: the agent after the round and the control applied to its
    actor, or [None] when the actor is destroyed and the agent joins the dead
    agents. *)
Definition take_action
    (maneuver_cl : Point -> Z -> Frame -> Map.t -> AgentTrajectory.t -> outcome Maneuver.t)
    (agent : TrajectoryAgent.t) (frame : Frame) (m : Map.t)
  : TrajectoryAgent.t * outcome (option VehicleControl) :=
  let r := TrajectoryAgent.next_action maneuver_cl agent frame m in
  match r.2 with
  | Done None => (r.1, Done None)
  | Done (Some action) =>
      let d := TrajectoryAgent.done r.1 frame in
      match d.2 with
      | Done true => (d.1, Done None)
      | Done false => (d.1, Done (Some (control_of action)))
      | Raise e => (d.1, Raise e)
      | OutOfFuel => (d.1, OutOfFuel)
      end
  | Raise e => (r.1, Raise e)
  | OutOfFuel => (r.1, OutOfFuel)
  end.

(** The rounds of an agent over a series of observations, up to the round
    in which its actor is destroyed or an exception is raised: the controls
    applied, and whether the agent has joined the dead agents. *)
Fixpoint take_actions
    (maneuver_cl : Point -> Z -> Frame -> Map.t -> AgentTrajectory.t -> outcome Maneuver.t)
    (agent : TrajectoryAgent.t) (observations : list (Frame * Map.t))
  : outcome (list VehicleControl * bool) :=
  match observations with
  | [] => Done ([], false)
  | (frame, m) :: rest =>
      let r := take_action maneuver_cl agent frame m in
      match r.2 with
      | Done None => Done ([], true)
      | Done (Some control) =>
          rs ← take_actions maneuver_cl r.1 rest;
          Done (control :: rs.1, rs.2)
      | Raise e => Raise e
      | OutOfFuel => OutOfFuel
      end
  end.

End CarlaSim.

Module AgentScenario.

(** A trajectory of four samples and an open-loop agent that has just been
    given it. *)
Definition trajectory : AgentTrajectory.t :=
  AgentTrajectory.mk [(0, 0); (1, 0); (2, 0); (3, 0)] [0; 1; -2; 10] [0; 0.1; 0.2; 0.3].

Definition agent : TrajectoryAgent.t :=
  TrajectoryAgent.mk 0 true 0 true (Some trajectory) None.

Definition maneuver_cl (p : Point) (agent_id : Z) (frame : Frame) (m : Map.t)
    (tr : AgentTrajectory.t) : outcome Maneuver.t :=
  Done (Scenario.maneuver_to p).

Definition observations (k : nat) : list (Frame * Map.t) :=
  repeat (Scenario.frame, Scenario.dead_end) k.

End AgentScenario.

Module MoreScenarios.

(** Two lanes of length 10 in a row, the second with an empty successor
    list. *)
Definition broken_link : Map.t :=
  Scenario.road_map (fun l => match l with
                              | O => Scenario.straight_lane 0 10 (Some [1%nat])
                              | _ => Scenario.straight_lane 10 10 (Some [])
                              end).

(** The ego at rest on lane -2 of the approach, alone. *)
Definition frame_at_rest : Frame := [ (0%Z, Scenario.agent 10 (-3) 0) ].

(** Children for the root of the search tree; the third has the key of the
    first and another visit count. *)
Definition child_a : Node.t :=
  Node.mk (PyTuple [PyStr "Root"; PyStr "a"]) Scenario.frame None [] 0 None None.

Definition child_b : Node.t :=
  Node.mk (PyTuple [PyStr "Root"; PyStr "b"]) Scenario.frame None [] 0 None None.

Definition child_a' : Node.t :=
  Node.mk (PyTuple [PyStr "Root"; PyStr "a"]) Scenario.frame None [] 7 None None.

Definition family : Node.t :=
  Node.add_child
    (Node.add_child (Node.add_child Scenario.root_expanded child_a) child_b) child_a'.

End MoreScenarios.

(** * Properties *)

(** ** Outcomes and dictionaries *)

Lemma Qltb_lt x y : Qltb x y = true <-> x < y.
Proof.
  unfold Qltb. rewrite negb_true_iff, <- not_true_iff_false, Qle_bool_iff.
  split; [apply Qnot_le_lt | apply Qlt_not_le].
Qed.

Lemma contains_test m ds l t :
  Qle_bool t ds && Qltb ds (t + Lane.length (Map.lane m l)) = true
  <-> contains m ds (l, t).
Proof.
  unfold contains; simpl. rewrite andb_true_iff, Qle_bool_iff, Qltb_lt. tauto.
Qed.

Section dict_facts.
Context {K A : Type} `{EqDecision K}.
Implicit Types (k : K) (v : A) (d : list (K * A)).

Lemma dict_get_set_eq k v d : dict_get k (dict_set k v d) = Some v.
Proof.
  induction d as [|[k' v'] d IH]; simpl.
  - by rewrite decide_True.
  - destruct (decide (k' = k)) as [->|Hne]; simpl.
    + by rewrite decide_True.
    + by rewrite decide_False.
Qed.

Lemma dict_get_set_ne k k' v d :
  k <> k' -> dict_get k' (dict_set k v d) = dict_get k' d.
Proof.
  intros Hne. induction d as [|[k0 v0] d IH]; simpl.
  - by rewrite decide_False.
  - destruct (decide (k0 = k)) as [->|Hne0]; simpl.
    + by rewrite !decide_False.
    + by rewrite IH.
Qed.

Lemma dict_get_None k d : dict_get k d = None <-> k ∉ dict_keys d.
Proof.
  unfold dict_keys. induction d as [|[k' v] d IH]; simpl.
  - split; [intros _; apply not_elem_of_nil | done].
  - rewrite not_elem_of_cons. destruct (decide (k' = k)) as [->|Hne].
    + split; [done | intros [? _]; done].
    + rewrite IH. split; [intros ?; split; [congruence | done] | tauto].
Qed.

Lemma dict_get_Some_keys k d : k ∈ dict_keys d <-> exists v, dict_get k d = Some v.
Proof.
  destruct (dict_get k d) as [v|] eqn:E.
  - split; [eauto|]. intros _.
    destruct (decide (k ∈ dict_keys d)) as [|Hn]; [done|].
    apply dict_get_None in Hn. congruence.
  - split; [|intros [? ?]; done]. intros Hin. by apply dict_get_None in E.
Qed.

Lemma dict_get_In k v d :
  NoDup (dict_keys d) -> (dict_get k d = Some v <-> (k, v) ∈ d).
Proof.
  unfold dict_keys. induction d as [|[k' v'] d IH]; simpl; intros Hnd.
  - split; [done | intros Hin; by apply elem_of_nil in Hin].
  - apply NoDup_cons in Hnd as [Hk' Hnd]. rewrite elem_of_cons.
    destruct (decide (k' = k)) as [->|Hne].
    + split; [intros [= ->]; by left|].
      intros [[= ->]|Hin]; [done|].
      exfalso. apply Hk'. apply list_elem_of_fmap. by exists (k, v).
    + rewrite (IH Hnd). split; [by right|]. intros [[= -> ->]|Hin]; done.
Qed.
End dict_facts.

(** ** The lane walk *)

Lemma walk_mono fuel fuel' m l t ds :
  (fuel <= fuel')%nat ->
  terminates (_lane_at_distance_loop fuel m l t ds) ->
  _lane_at_distance_loop fuel' m l t ds = _lane_at_distance_loop fuel m l t ds.
Proof.
  revert fuel' l t. induction fuel as [|fuel IH]; intros fuel' l t Hle Hterm.
  - by destruct Hterm.
  - destruct fuel' as [|fuel']; [lia|]. simpl in *.
    destruct (Qle_bool t ds && Qltb ds (t + Lane.length (Map.lane m l))); [done|].
    destruct (Lane.successor (Map.lane m l)) as [[|s ss]|]; try done.
    apply IH; [lia | done].
Qed.

Lemma walk_sound fuel m l t ds r :
  _lane_at_distance_loop fuel m l t ds = Done r ->
  at_arc_length m l t ds r \/ at_chain_end m l t ds r.
Proof.
  revert l t. induction fuel as [|fuel IH]; intros l t; simpl; [done|].
  destruct (Qle_bool t ds && Qltb ds (t + Lane.length (Map.lane m l))) eqn:Htest.
  - intros [= <-]. left. exists 0%nat, t. simpl.
    apply contains_test in Htest. repeat split; try done; try apply Htest.
    intros k x Hk. lia.
  - assert (Hnot : ~ contains m ds (l, t)).
    { intros Hc. apply contains_test in Hc. congruence. }
    destruct (Lane.successor (Map.lane m l)) as [[|s ss]|] eqn:Hsucc; [done| |].
    + intros Hrec. apply IH in Hrec as [(n & t' & Hch & Hc & Hd & Hfirst)|(n & t' & Hch & Hs & Hd & Hall)].
      * left. exists (S n), t'. simpl. rewrite Hsucc. repeat split; try done; try apply Hc.
        intros [|k] x Hk; simpl; [by intros [= <-]|].
        rewrite Hsucc. apply Hfirst. lia.
      * right. exists (S n), t'. simpl. rewrite Hsucc. repeat split; try done.
        intros [|k] x; simpl; [by intros [= <-]|].
        rewrite Hsucc. apply Hall.
    + intros [= <-]. right. exists 0%nat, t. simpl. repeat split; try done.
      intros [|k] x; simpl; [by intros [= <-]|]. by rewrite Hsucc.
Qed.

Lemma walk_complete_found m l t ds r :
  at_arc_length m l t ds r ->
  exists n, forall fuel, (n < fuel)%nat ->
    _lane_at_distance_loop fuel m l t ds = Done r.
Proof.
  intros (n & t' & Hch & Hc & Hd & Hfirst). exists n.
  revert l t Hch Hfirst. induction n as [|n IH]; intros l t Hch Hfirst fuel Hfuel;
    (destruct fuel as [|fuel]; [lia|]); simpl in *.
  - injection Hch as -> ->. apply contains_test in Hc. rewrite Hc.
    destruct r; simpl in *; by subst.
  - assert (Htest : Qle_bool t ds && Qltb ds (t + Lane.length (Map.lane m l)) = false).
    { apply not_true_iff_false. intros Hc'. apply contains_test in Hc'.
      by apply (Hfirst 0%nat (l, t)); [lia| |]. }
    rewrite Htest. destruct (Lane.successor (Map.lane m l)) as [[|s ss]|] eqn:Hsucc; try done.
    apply IH; [done| |lia].
    intros k x Hk Hx. apply (Hfirst (S k) x); [lia|]. simpl. by rewrite Hsucc.
Qed.

Lemma walk_complete_end m l t ds r :
  at_chain_end m l t ds r ->
  exists n, forall fuel, (n < fuel)%nat ->
    _lane_at_distance_loop fuel m l t ds = Done r.
Proof.
  intros (n & t' & Hch & Hs & Hd & Hall). exists n.
  revert l t Hch Hall. induction n as [|n IH]; intros l t Hch Hall fuel Hfuel;
    (destruct fuel as [|fuel]; [lia|]); simpl in *.
  - injection Hch as -> ->.
    assert (Htest : Qle_bool t' ds && Qltb ds (t' + Lane.length (Map.lane m r.1)) = false).
    { apply not_true_iff_false. intros Hc'. apply contains_test in Hc'.
      by apply (Hall 0%nat (r.1, t')). }
    rewrite Htest, Hs. destruct r; simpl in *; by subst.
  - assert (Htest : Qle_bool t ds && Qltb ds (t + Lane.length (Map.lane m l)) = false).
    { apply not_true_iff_false. intros Hc'. apply contains_test in Hc'.
      by apply (Hall 0%nat (l, t)). }
    rewrite Htest. destruct (Lane.successor (Map.lane m l)) as [[|s ss]|] eqn:Hsucc; try done.
    apply IH; [done| |lia].
    intros k x Hx. apply (Hall (S k) x). simpl. by rewrite Hsucc.
Qed.

(** ** The loop over the frame *)

Lemma play_forward_loop_mono fuel fuel' ego m dur items nf :
  (fuel <= fuel')%nat ->
  terminates (play_forward_loop fuel ego m dur items nf) ->
  play_forward_loop fuel' ego m dur items nf = play_forward_loop fuel ego m dur items nf.
Proof.
  intros Hle. revert nf. induction items as [|[aid agent] items IH]; intros nf; simpl; [done|].
  destruct (Z.eqb aid ego); [apply IH|].
  destruct (Map.best_lane_at m _ _) as [l0|]; [|apply IH].
  unfold _lane_at_distance.
  destruct (_lane_at_distance_loop fuel m l0 0 _) as [r| |] eqn:Hw; simpl.
  - intros Hterm. rewrite (walk_mono fuel fuel'), Hw; [|done|by rewrite Hw]. simpl.
    by apply IH.
  - intros _. rewrite (walk_mono fuel fuel'), Hw; [done|done|by rewrite Hw].
  - intros Hterm. by destruct Hterm.
Qed.

Lemma play_forward_loop_skip fuel ego m dur items nf f' k :
  play_forward_loop fuel ego m dur items nf = Done f' ->
  k = ego \/ k ∉ dict_keys items ->
  dict_get k f' = dict_get k nf.
Proof.
  revert nf. induction items as [|[aid agent] items IH]; intros nf; simpl.
  - by intros [= <-].
  - intros Hloop Hk.
    assert (Hk' : k = ego \/ k ∉ dict_keys items).
    { destruct Hk as [?|Hk]; [by left|]. right.
      unfold dict_keys in *. simpl in Hk. apply not_elem_of_cons in Hk. tauto. }
    destruct (Z.eqb_spec aid ego) as [->|Hne]; [by apply IH|].
    destruct (Map.best_lane_at m _ _) as [l0|]; [|by apply IH].
    destruct (_lane_at_distance fuel m l0 _) as [r| |]; simpl in Hloop; try done.
    rewrite (IH _ Hloop Hk'). apply dict_get_set_ne.
    destruct Hk as [->|Hk]; [done|].
    unfold dict_keys in Hk. simpl in Hk. apply not_elem_of_cons in Hk. intros ->. tauto.
Qed.

Lemma play_forward_loop_no_lane fuel ego m dur items nf f' k agent :
  NoDup (dict_keys items) ->
  play_forward_loop fuel ego m dur items nf = Done f' ->
  (k, agent) ∈ items ->
  Map.best_lane_at m (AgentState.position agent) (AgentState.heading agent) = None ->
  dict_get k f' = dict_get k nf.
Proof.
  revert nf. induction items as [|[aid a] items IH]; intros nf Hnd Hloop Hin Hlane.
  - by apply elem_of_nil in Hin.
  - unfold dict_keys in Hnd. simpl in Hnd. apply NoDup_cons in Hnd as [Hfresh Hnd].
    apply elem_of_cons in Hin as [[= <- <-]|Hin]; simpl in Hloop.
    + rewrite Hlane in Hloop.
      destruct (Z.eqb k ego); eapply play_forward_loop_skip; eauto.
    + assert (aid <> k).
      { intros ->. apply Hfresh. apply list_elem_of_fmap. by exists (k, agent). }
      destruct (Z.eqb aid ego); [by eapply IH|].
      destruct (Map.best_lane_at m (AgentState.position a) _) as [l0|]; [|by eapply IH].
      destruct (_lane_at_distance fuel m l0 _) as [r| |]; simpl in Hloop; try done.
      rewrite (IH _ Hnd Hloop Hin Hlane). by apply dict_get_set_ne.
Qed.

Lemma play_forward_loop_lane fuel ego m dur items nf f' k agent l0 :
  NoDup (dict_keys items) ->
  play_forward_loop fuel ego m dur items nf = Done f' ->
  (k, agent) ∈ items -> k <> ego ->
  Map.best_lane_at m (AgentState.position agent) (AgentState.heading agent) = Some l0 ->
  exists r, _lane_at_distance fuel m l0 (agent_distance m dur agent l0) = Done r /\
            dict_get k f' = Some (projected_state m agent r.1 r.2).
Proof.
  revert nf. induction items as [|[aid a] items IH]; intros nf Hnd Hloop Hin Hego Hlane.
  - by apply elem_of_nil in Hin.
  - unfold dict_keys in Hnd. simpl in Hnd. apply NoDup_cons in Hnd as [Hfresh Hnd].
    apply elem_of_cons in Hin as [[= <- <-]|Hin]; simpl in Hloop.
    + destruct (Z.eqb_spec k ego); [done|]. rewrite Hlane in Hloop.
      destruct (_lane_at_distance fuel m l0 _) as [r| |]; simpl in Hloop; try done.
      exists r. split; [done|].
      rewrite (play_forward_loop_skip _ _ _ _ _ _ _ k Hloop); [|by right].
      apply dict_get_set_eq.
    + destruct (Z.eqb aid ego); [by eapply IH|].
      destruct (Map.best_lane_at m (AgentState.position a) _) as [l1|]; [|by eapply IH].
      destruct (_lane_at_distance fuel m l1 _) as [r| |]; simpl in Hloop; try done.
      by eapply IH.
Qed.

Lemma play_forward_loop_returns ego m dur items :
  (forall aid agent l0, (aid, agent) ∈ items -> aid <> ego ->
     Map.best_lane_at m (AgentState.position agent) (AgentState.heading agent) = Some l0 ->
     exists fuel, returns (_lane_at_distance fuel m l0 (agent_distance m dur agent l0))) ->
  exists fuel0, forall fuel nf, (fuel0 <= fuel)%nat ->
    returns (play_forward_loop fuel ego m dur items nf).
Proof.
  induction items as [|[aid agent] items IH]; intros Hwalks.
  - exists 0%nat. intros fuel nf _. by exists nf.
  - destruct IH as [fuel0 IH].
    { intros aid' agent' l0 Hin. apply Hwalks. by apply elem_of_cons; right. }
    destruct (Z.eqb_spec aid ego) as [Heq|Hne].
    { exists fuel0. intros fuel nf Hfuel. simpl.
      destruct (Z.eqb_spec aid ego); [|done]. by apply IH. }
    destruct (Map.best_lane_at m (AgentState.position agent) (AgentState.heading agent))
      as [l0|] eqn:Hlane.
    + destruct (Hwalks aid agent l0) as (fuel1 & r & Hr); [by apply elem_of_cons; left|done..|].
      exists (Nat.max fuel0 fuel1). intros fuel nf Hfuel. simpl.
      destruct (Z.eqb_spec aid ego); [done|]. rewrite Hlane.
      unfold _lane_at_distance in *.
      rewrite (walk_mono fuel1 fuel), Hr; [|lia|by rewrite Hr]. simpl.
      apply IH. lia.
    + exists fuel0. intros fuel nf Hfuel. simpl.
      destruct (Z.eqb_spec aid ego); [done|]. rewrite Hlane. by apply IH.
Qed.

Lemma walk_fuel_agree fuel1 fuel2 m l t ds r1 r2 :
  _lane_at_distance_loop fuel1 m l t ds = Done r1 ->
  _lane_at_distance_loop fuel2 m l t ds = Done r2 ->
  r1 = r2.
Proof.
  intros H1 H2. destruct (Nat.le_ge_cases fuel1 fuel2) as [Hle|Hle].
  - rewrite (walk_mono fuel1 fuel2), H1 in H2; [congruence|done|by rewrite H1].
  - rewrite (walk_mono fuel2 fuel1), H2 in H1; [congruence|done|by rewrite H2].
Qed.

(** ** Forward projection *)

Lemma play_forward_inv fuel tc ego m frame ma f' :
  play_forward_macro_action fuel tc ego m frame (Some ma) = Done f' ->
  exists trajectory,
    get_trajectory ma = Done trajectory /\
    play_forward_loop fuel ego m (duration tc trajectory) frame
      [(ego, final_agent_state tc trajectory)] = Done f'.
Proof.
  unfold play_forward_macro_action.
  destruct (get_trajectory ma) as [trajectory| |]; simpl; [|done..].
  intros H. by exists trajectory.
Qed.

Lemma play_forward_ego fuel tc ego m frame ma f' trajectory :
  get_trajectory ma = Done trajectory ->
  play_forward_macro_action fuel tc ego m frame (Some ma) = Done f' ->
  dict_get ego f' = Some (final_agent_state tc trajectory).
Proof.
  intros Htr Hpf. apply play_forward_inv in Hpf as (tr & Htr' & Hloop).
  assert (tr = trajectory) as -> by congruence.
  rewrite (play_forward_loop_skip _ _ _ _ _ _ _ ego Hloop); [|by left].
  simpl. by rewrite decide_True.
Qed.

Lemma play_forward_absent fuel tc ego m frame ma f' k :
  play_forward_macro_action fuel tc ego m frame (Some ma) = Done f' ->
  k <> ego -> dict_get k frame = None ->
  dict_get k f' = None.
Proof.
  intros Hpf Hk Hget. apply play_forward_inv in Hpf as (tr & _ & Hloop).
  rewrite (play_forward_loop_skip _ _ _ _ _ _ _ k Hloop).
  - simpl. by rewrite decide_False.
  - right. by apply dict_get_None.
Qed.

Lemma play_forward_no_lane fuel tc ego m frame ma f' k agent :
  NoDup (dict_keys frame) ->
  play_forward_macro_action fuel tc ego m frame (Some ma) = Done f' ->
  k <> ego -> dict_get k frame = Some agent ->
  Map.best_lane_at m (AgentState.position agent) (AgentState.heading agent) = None ->
  dict_get k f' = None.
Proof.
  intros Hnd Hpf Hk Hget Hlane. apply play_forward_inv in Hpf as (tr & _ & Hloop).
  rewrite (play_forward_loop_no_lane _ _ _ _ _ _ _ k agent Hnd Hloop); [| |done].
  - simpl. by rewrite decide_False.
  - by apply dict_get_In.
Qed.

Lemma play_forward_lane fuel tc ego m frame ma f' trajectory k agent l0 :
  NoDup (dict_keys frame) ->
  get_trajectory ma = Done trajectory ->
  play_forward_macro_action fuel tc ego m frame (Some ma) = Done f' ->
  k <> ego -> dict_get k frame = Some agent ->
  Map.best_lane_at m (AgentState.position agent) (AgentState.heading agent) = Some l0 ->
  exists r,
    _lane_at_distance fuel m l0 (agent_distance m (duration tc trajectory) agent l0) = Done r /\
    dict_get k f' = Some (projected_state m agent r.1 r.2).
Proof.
  intros Hnd Htr Hpf Hk Hget Hlane. apply play_forward_inv in Hpf as (tr & Htr' & Hloop).
  assert (tr = trajectory) as -> by congruence.
  eapply play_forward_loop_lane; eauto. by apply dict_get_In.
Qed.

Lemma walk_returns_when m l t ds r :
  at_arc_length m l t ds r \/ at_chain_end m l t ds r ->
  exists fuel, returns (_lane_at_distance_loop fuel m l t ds).
Proof.
  intros [H|H]; [apply walk_complete_found in H|apply walk_complete_end in H];
    destruct H as [n Hn]; exists (S n), r; apply Hn; lia.
Qed.

Lemma projected_state_moved_to m agent r :
  moved_to m agent r (projected_state m agent r.1 r.2).
Proof. by repeat split. Qed.

(** C1, as amended. For a well-formed frame and a macro action whose
    trajectory can be taken (open loop, maneuver list present), and provided
    that for every other agent that the map places on a lane the chain of
    first successors of that lane has a lane that contains the arc length
    [distance_at(position) + duration * speed], or ends in a lane without a
    successor link, forward projection returns, at every sufficient unrolling
    depth, one new frame in which: the ego holds the final state of the
    trajectory; an agent with no lane is left out; an agent with a lane
    keeps time, velocity, acceleration and speed and has the position and
    the heading of the lane geometry at that arc length on the chain, or,
    when no lane of the chain contains the arc length, those at the end of
    the last lane of the chain. *)
Theorem play_forward_macro_action_projects tc ego m frame ma trajectory :
  NoDup (dict_keys frame) ->
  get_trajectory ma = Done trajectory ->
  (forall aid agent l0, (aid, agent) ∈ frame -> aid <> ego ->
     Map.best_lane_at m (AgentState.position agent) (AgentState.heading agent) = Some l0 ->
     let ds := Lane.distance_at (Map.lane m l0) (AgentState.position agent)
               + duration tc trajectory * AgentState.speed agent in
     exists r, at_arc_length m l0 0 ds r \/ at_chain_end m l0 0 ds r) ->
  exists new_frame fuel0,
    (forall fuel, (fuel0 <= fuel)%nat ->
       play_forward_macro_action fuel tc ego m frame (Some ma) = Done new_frame) /\
    dict_get ego new_frame = Some (final_agent_state tc trajectory) /\
    forall aid agent, aid <> ego -> dict_get aid frame = Some agent ->
      match Map.best_lane_at m (AgentState.position agent) (AgentState.heading agent) with
      | None => dict_get aid new_frame = None
      | Some l0 =>
          let ds := Lane.distance_at (Map.lane m l0) (AgentState.position agent)
                    + duration tc trajectory * AgentState.speed agent in
          exists r state',
            (at_arc_length m l0 0 ds r \/ at_chain_end m l0 0 ds r) /\
            dict_get aid new_frame = Some state' /\
            moved_to m agent r state'
      end.
Proof.
  intros Hnd Htr Hchains.
  assert (Hwalks : forall aid agent l0, (aid, agent) ∈ frame -> aid <> ego ->
     Map.best_lane_at m (AgentState.position agent) (AgentState.heading agent) = Some l0 ->
     exists fuel, returns (_lane_at_distance fuel m l0
                             (agent_distance m (duration tc trajectory) agent l0))).
  { intros aid agent l0 Hin Hne Hlane.
    destruct (Hchains aid agent l0 Hin Hne Hlane) as [r Hr].
    by apply walk_returns_when in Hr. }
  destruct (play_forward_loop_returns ego m (duration tc trajectory) frame Hwalks)
    as [fuel0 Hret].
  destruct (Hret fuel0 [(ego, final_agent_state tc trajectory)]) as [new_frame Hnf]; [done|].
  assert (Hpf : forall fuel, (fuel0 <= fuel)%nat ->
            play_forward_macro_action fuel tc ego m frame (Some ma) = Done new_frame).
  { intros fuel Hfuel. unfold play_forward_macro_action. rewrite Htr. simpl.
    rewrite (play_forward_loop_mono fuel0 fuel), Hnf; [done|done|by rewrite Hnf]. }
  exists new_frame, fuel0. split; [done|]. split.
  - eapply play_forward_ego; [done|]. by apply (Hpf fuel0).
  - intros aid agent Hne Hget.
    destruct (Map.best_lane_at m _ _) as [l0|] eqn:Hlane.
    + destruct (play_forward_lane fuel0 tc ego m frame ma new_frame trajectory aid agent l0)
        as (r & Hwalk & Hr); try done; [by apply Hpf|].
      exists r, (projected_state m agent r.1 r.2).
      split; [by eapply walk_sound|]. split; [done|]. apply projected_state_moved_to.
    + eapply play_forward_no_lane; eauto.
Qed.

Lemma play_forward_macro_action_projects_witness :
  exists new_frame fuel0,
    (forall fuel, (fuel0 <= fuel)%nat ->
       play_forward_macro_action fuel Scenario.trajectory_class 0 Scenario.two_lanes
         Scenario.frame (Some Scenario.macro_two_lanes) = Done new_frame) /\
    dict_get 0%Z new_frame
    = Some (final_agent_state Scenario.trajectory_class Scenario.trajectory) /\
    forall aid agent, aid <> 0%Z -> dict_get aid Scenario.frame = Some agent ->
      match Map.best_lane_at Scenario.two_lanes
              (AgentState.position agent) (AgentState.heading agent) with
      | None => dict_get aid new_frame = None
      | Some l0 =>
          let ds := Lane.distance_at (Map.lane Scenario.two_lanes l0)
                      (AgentState.position agent)
                    + duration Scenario.trajectory_class Scenario.trajectory
                      * AgentState.speed agent in
          exists r state',
            (at_arc_length Scenario.two_lanes l0 0 ds r \/
             at_chain_end Scenario.two_lanes l0 0 ds r) /\
            dict_get aid new_frame = Some state' /\
            moved_to Scenario.two_lanes agent r state'
      end.
Proof.
  apply (play_forward_macro_action_projects Scenario.trajectory_class 0 Scenario.two_lanes
           Scenario.frame Scenario.macro_two_lanes Scenario.trajectory).
  - apply (bool_decide_unpack _). vm_compute. exact I.
  - reflexivity.
  - intros aid agent l0 Hin _ Hlane.
    repeat (apply elem_of_cons in Hin as [Hin|Hin]);
      [injection Hin as -> ->..|by apply elem_of_nil in Hin];
      vm_compute in Hlane; try discriminate; injection Hlane as <-;
      eexists; apply (walk_sound 3); vm_compute; reflexivity.
Defined.

(** The projection of the scenario, computed: the agent on the road moves
    from arc length 5 by 4 * 2 to arc length 13, three units into the second
    lane; the agent off the road is dropped. *)
Example play_forward_two_lanes :
  play_forward_macro_action 3 Scenario.trajectory_class 0 Scenario.two_lanes Scenario.frame
    (Some Scenario.macro_two_lanes)
  = Done [ (0%Z, Scenario.agent 4 0 1); (1%Z, Scenario.agent 13 0 2) ].
Proof. vm_compute. reflexivity. Qed.

(** C1, as stated, fails on a dead end: the agent at arc length 5 moving at
    speed 2 for a duration of 4 should stand at arc length 13, but the only
    lane of its chain is 10 long; it is projected to the end of that lane. *)
Lemma play_forward_macro_action_clamps :
  ~ projects_every_agent Scenario.trajectory_class 0 Scenario.dead_end Scenario.frame
      Scenario.macro_dead_end.
Proof.
  intros (fuel & trajectory & new_frame & Htr & _ & _ & Hothers).
  injection Htr as <-.
  destruct (Hothers 1%Z (Scenario.agent 5 0 2)) as (l0 & r & state' & Hlane & Harc & _);
    [done|reflexivity|].
  injection Hlane as <-.
  destruct Harc as (n & t & Hch & [Hle Hlt] & _).
  destruct n as [|n]; [|discriminate].
  injection Hch as _ <-. vm_compute in Hlt. discriminate.
Qed.

Example play_forward_dead_end :
  play_forward_macro_action 1 Scenario.trajectory_class 0 Scenario.dead_end Scenario.frame
    (Some Scenario.macro_dead_end)
  = Done [ (0%Z, Scenario.agent 4 0 1); (1%Z, Scenario.agent 10 0 2) ].
Proof. vm_compute. reflexivity. Qed.

(** Without a macro action the frame comes back as it is. *)
Lemma play_forward_no_macro_action fuel tc ego m frame :
  play_forward_macro_action fuel tc ego m frame None = Done frame.
Proof. reflexivity. Qed.

(** A closed-loop macro action has no trajectory: projection raises. *)
Example play_forward_closed_loop :
  play_forward_macro_action 1 Scenario.trajectory_class 0 Scenario.dead_end Scenario.frame
    (Some (Scenario.macro false Scenario.dead_end []))
  = Raise ValueError.
Proof. reflexivity. Qed.

(** C9, as amended. When forward projection is given a macro action and
    returns, the ids of the new frame are the ego id and exactly those other
    ids of the input frame whose agent the map places on a lane: an agent
    with no lane is left out. When it is given no macro action ([None]), the
    input frame itself comes back, whatever ids it has. *)
Theorem play_forward_macro_action_ids fuel tc ego m frame macro_action new_frame :
  NoDup (dict_keys frame) ->
  play_forward_macro_action fuel tc ego m frame macro_action = Done new_frame ->
  match macro_action with
  | Some _ =>
      forall aid,
        aid ∈ dict_keys new_frame <->
        aid = ego \/
        exists agent, dict_get aid frame = Some agent /\
          is_Some (Map.best_lane_at m (AgentState.position agent)
                     (AgentState.heading agent))
  | None => new_frame = frame
  end.
Proof.
  intros Hnd Hpf. destruct macro_action as [ma|]; [|by injection Hpf as <-].
  intros aid. rewrite dict_get_Some_keys.
  destruct (play_forward_inv _ _ _ _ _ _ _ Hpf) as (trajectory & Htr & _).
  destruct (decide (aid = ego)) as [->|Hne].
  { rewrite (play_forward_ego _ _ _ _ _ _ _ _ Htr Hpf). split; eauto. }
  destruct (dict_get aid frame) as [agent|] eqn:Hget.
  - destruct (Map.best_lane_at m (AgentState.position agent) (AgentState.heading agent))
      as [l0|] eqn:Hlane.
    + destruct (play_forward_lane _ _ _ _ _ _ _ _ _ _ _ Hnd Htr Hpf Hne Hget Hlane)
        as (r & _ & ->).
      split; [|eauto]. intros _. right. exists agent. by rewrite Hlane.
    + rewrite (play_forward_no_lane _ _ _ _ _ _ _ _ _ Hnd Hpf Hne Hget Hlane).
      split; [by intros [? ?]|]. intros [?|(a & [= <-] & Hsome)]; [done|].
      rewrite Hlane in Hsome. by destruct Hsome.
  - rewrite (play_forward_absent _ _ _ _ _ _ _ _ Hpf Hne Hget).
    split; [by intros [? ?]|]. by intros [?|(a & ? & _)].
Qed.

Lemma play_forward_macro_action_ids_witness :
  dict_keys Scenario.frame = [0%Z; 1%Z; 2%Z] /\
  (forall aid,
     aid ∈ [0%Z; 1%Z] <->
     aid = 0%Z \/
     exists agent, dict_get aid Scenario.frame = Some agent /\
       is_Some (Map.best_lane_at Scenario.dead_end
                  (AgentState.position agent) (AgentState.heading agent))) /\
  Scenario.frame = Scenario.frame.
Proof.
  split; [reflexivity|]. split.
  - apply (play_forward_macro_action_ids 1 Scenario.trajectory_class 0 Scenario.dead_end
             Scenario.frame (Some Scenario.macro_dead_end)
             [ (0%Z, Scenario.agent 4 0 1); (1%Z, Scenario.agent 10 0 2) ]).
    + apply (bool_decide_unpack _). vm_compute. exact I.
    + vm_compute. reflexivity.
  - apply (play_forward_macro_action_ids 1 Scenario.trajectory_class 0 Scenario.dead_end
             Scenario.frame None Scenario.frame).
    + apply (bool_decide_unpack _). vm_compute. exact I.
    + reflexivity.
Defined.

(** C9, as stated, fails when no macro action is given: the frame that
    comes back keeps the agent that is on no lane, and it lacks the ego when
    the input frame does. *)
Lemma play_forward_macro_action_keeps_frame :
  (exists new_frame,
     play_forward_macro_action 1 Scenario.trajectory_class 0 Scenario.dead_end
       Scenario.frame None = Done new_frame /\
     ~ ids_of_projection 0 Scenario.dead_end Scenario.frame new_frame) /\
  (exists new_frame,
     play_forward_macro_action 1 Scenario.trajectory_class 5 Scenario.dead_end
       Scenario.frame None = Done new_frame /\
     5%Z ∉ dict_keys new_frame).
Proof.
  split; exists Scenario.frame; (split; [reflexivity|]).
  - intros Hids. destruct (Hids 2%Z) as [Hkeep _].
    destruct Hkeep as [?|(agent & Hget & Hlane)]; [|done|].
    + apply elem_of_cons. right. apply elem_of_cons. right. apply elem_of_cons. by left.
    + injection Hget as <-. by destruct Hlane.
  - intros Hin. repeat (apply elem_of_cons in Hin as [?|Hin]; [done|]).
    by apply elem_of_nil in Hin.
Qed.

(** C8. Two invocations of forward projection on the same map, ego and macro
    action, and on frames that are equal as dictionaries, possibly unrolled
    to different depths: when both return, they return frames that are equal
    as dictionaries (same ids, same state under each id). *)
Theorem play_forward_macro_action_deterministic
    fuel1 fuel2 tc ego m frame1 frame2 ma new_frame1 new_frame2 :
  NoDup (dict_keys frame1) -> NoDup (dict_keys frame2) ->
  (forall aid, dict_get aid frame1 = dict_get aid frame2) ->
  play_forward_macro_action fuel1 tc ego m frame1 ma = Done new_frame1 ->
  play_forward_macro_action fuel2 tc ego m frame2 ma = Done new_frame2 ->
  forall aid, dict_get aid new_frame1 = dict_get aid new_frame2.
Proof.
  intros Hnd1 Hnd2 Heq Hpf1 Hpf2 aid. destruct ma as [ma|]; simpl in *.
  2:{ injection Hpf1 as <-. injection Hpf2 as <-. apply Heq. }
  destruct (play_forward_inv _ _ _ _ _ _ _ Hpf1) as (trajectory & Htr & _).
  destruct (decide (aid = ego)) as [->|Hne].
  { by rewrite (play_forward_ego _ _ _ _ _ _ _ _ Htr Hpf1),
               (play_forward_ego _ _ _ _ _ _ _ _ Htr Hpf2). }
  destruct (dict_get aid frame1) as [agent|] eqn:Hget1.
  - assert (Hget2 : dict_get aid frame2 = Some agent) by by rewrite <- Heq.
    destruct (Map.best_lane_at m (AgentState.position agent) (AgentState.heading agent))
      as [l0|] eqn:Hlane.
    + destruct (play_forward_lane _ _ _ _ _ _ _ _ _ _ _ Hnd1 Htr Hpf1 Hne Hget1 Hlane)
        as (r1 & Hw1 & ->).
      destruct (play_forward_lane _ _ _ _ _ _ _ _ _ _ _ Hnd2 Htr Hpf2 Hne Hget2 Hlane)
        as (r2 & Hw2 & ->).
      by rewrite (walk_fuel_agree _ _ _ _ _ _ _ _ Hw1 Hw2).
    + by rewrite (play_forward_no_lane _ _ _ _ _ _ _ _ _ Hnd1 Hpf1 Hne Hget1 Hlane),
                 (play_forward_no_lane _ _ _ _ _ _ _ _ _ Hnd2 Hpf2 Hne Hget2 Hlane).
  - assert (Hget2 : dict_get aid frame2 = None) by by rewrite <- Heq.
    by rewrite (play_forward_absent _ _ _ _ _ _ _ _ Hpf1 Hne Hget1),
               (play_forward_absent _ _ _ _ _ _ _ _ Hpf2 Hne Hget2).
Qed.

(** On one and the same frame the two returned frames are the same list. *)
Lemma play_forward_macro_action_functional fuel1 fuel2 tc ego m frame ma :
  terminates (play_forward_macro_action fuel1 tc ego m frame ma) ->
  terminates (play_forward_macro_action fuel2 tc ego m frame ma) ->
  play_forward_macro_action fuel1 tc ego m frame ma
  = play_forward_macro_action fuel2 tc ego m frame ma.
Proof.
  destruct ma as [ma|]; [|done]. unfold play_forward_macro_action.
  destruct (get_trajectory ma) as [trajectory| |]; simpl; [|done..].
  intros H1 H2. destruct (Nat.le_ge_cases fuel1 fuel2).
  - by rewrite (play_forward_loop_mono fuel1 fuel2).
  - by rewrite (play_forward_loop_mono fuel2 fuel1).
Qed.

Lemma play_forward_macro_action_deterministic_witness :
  play_forward_macro_action 3 Scenario.trajectory_class 0 Scenario.two_lanes
    Scenario.frame (Some Scenario.macro_two_lanes)
  = Done [ (0%Z, Scenario.agent 4 0 1); (1%Z, Scenario.agent 13 0 2) ] /\
  play_forward_macro_action 7 Scenario.trajectory_class 0 Scenario.two_lanes
    Scenario.frame_reordered (Some Scenario.macro_two_lanes)
  = Done [ (0%Z, Scenario.agent 4 0 1); (1%Z, Scenario.agent 13 0 2) ] /\
  forall aid,
    dict_get aid [ (0%Z, Scenario.agent 4 0 1); (1%Z, Scenario.agent 13 0 2) ]
    = dict_get aid [ (0%Z, Scenario.agent 4 0 1); (1%Z, Scenario.agent 13 0 2) ].
Proof.
  split; [vm_compute; reflexivity|]. split; [vm_compute; reflexivity|].
  apply (play_forward_macro_action_deterministic 3 7 Scenario.trajectory_class 0
           Scenario.two_lanes Scenario.frame Scenario.frame_reordered
           (Some Scenario.macro_two_lanes)).
  - apply (bool_decide_unpack _). vm_compute. exact I.
  - apply (bool_decide_unpack _). vm_compute. exact I.
  - intros aid. unfold Scenario.frame, Scenario.frame_reordered, dict_get.
    destruct (decide (0%Z = aid)) as [<-|]; [done|].
    destruct (decide (1%Z = aid)) as [<-|]; [done|].
    by destruct (decide (2%Z = aid)) as [<-|].
  - vm_compute. reflexivity.
  - vm_compute. reflexivity.
Defined.

(** ** Termination of the lane walk *)

Lemma chain_at_None_le m l t n k :
  chain_at m l t n = None -> (n <= k)%nat -> chain_at m l t k = None.
Proof.
  revert l t k. induction n as [|n IH]; intros l t k; simpl; [done|].
  intros Hn Hk. destruct k as [|k]; [lia|]. simpl.
  destruct (Lane.successor (Map.lane m l)) as [[|s ss]|]; try done.
  apply IH; [done|lia].
Qed.

Lemma walk_finite_chain m l t ds n :
  chain_at m l t n = None ->
  forall fuel, (n <= fuel)%nat -> terminates (_lane_at_distance_loop fuel m l t ds).
Proof.
  revert l t. induction n as [|n IH]; intros l t; simpl; [done|].
  intros Hch fuel Hfuel. destruct fuel as [|fuel]; [lia|]. simpl.
  destruct (Qle_bool t ds && Qltb ds (t + Lane.length (Map.lane m l))); [done|].
  destruct (Lane.successor (Map.lane m l)) as [[|s ss]|]; try done.
  apply IH; [done|lia].
Qed.

Lemma walk_progress m ds eps :
  0 < eps -> (forall x, eps <= Lane.length (Map.lane m x)) ->
  forall k l t, t <= ds -> ds - t < inject_Z (Z.of_nat k) * eps ->
  forall fuel, (k <= fuel)%nat -> terminates (_lane_at_distance_loop fuel m l t ds).
Proof.
  intros Heps Hlen. induction k as [|k IH]; intros l t Ht Hk fuel Hfuel.
  - change (inject_Z (Z.of_nat 0)) with 0 in Hk. lra.
  - destruct fuel as [|fuel]; [lia|]. simpl.
    destruct (Qle_bool t ds && Qltb ds (t + Lane.length (Map.lane m l))) eqn:Htest; [done|].
    destruct (Lane.successor (Map.lane m l)) as [[|s ss]|]; try done.
    assert (Hpast : t + Lane.length (Map.lane m l) <= ds).
    { apply andb_false_iff in Htest as [Htest|Htest].
      - apply not_true_iff_false in Htest. rewrite Qle_bool_iff in Htest. done.
      - apply not_true_iff_false in Htest. rewrite Qltb_lt in Htest.
        by apply Qnot_lt_le. }
    apply IH; [done| |lia].
    rewrite Nat2Z.inj_succ, <- Z.add_1_r, inject_Z_plus in Hk.
    specialize (Hlen l). change (inject_Z 1) with 1 in Hk. lra.
Qed.

Lemma walk_raises_broken fuel m l t ds e :
  _lane_at_distance_loop fuel m l t ds = Raise e ->
  e = IndexError /\ at_broken_link m l t ds.
Proof.
  revert l t. induction fuel as [|fuel IH]; intros l t; simpl; [done|].
  destruct (Qle_bool t ds && Qltb ds (t + Lane.length (Map.lane m l))) eqn:Htest; [done|].
  assert (Hnot : ~ contains m ds (l, t)).
  { intros Hc. apply contains_test in Hc. congruence. }
  destruct (Lane.successor (Map.lane m l)) as [[|s ss]|] eqn:Hsucc; [| |done].
  - intros [= <-]. split; [done|]. exists 0%nat, (l, t). simpl. repeat split; try done.
    intros [|k] y; simpl; [by intros [= <-]|]. by rewrite Hsucc.
  - intros Hrec. apply IH in Hrec as (-> & n & x & Hch & Hx & Hall). split; [done|].
    exists (S n), x. simpl. rewrite Hsucc. repeat split; try done.
    intros [|k] y; simpl; [by intros [= <-]|]. rewrite Hsucc. apply Hall.
Qed.

Lemma walk_complete_broken m l t ds :
  at_broken_link m l t ds ->
  exists n, forall fuel, (n < fuel)%nat ->
    _lane_at_distance_loop fuel m l t ds = Raise IndexError.
Proof.
  intros (n & x & Hch & Hx & Hall). exists n.
  revert l t Hch Hall. induction n as [|n IH]; intros l t Hch Hall fuel Hfuel;
    (destruct fuel as [|fuel]; [lia|]); simpl in *.
  - injection Hch as <-. simpl in Hx.
    assert (Htest : Qle_bool t ds && Qltb ds (t + Lane.length (Map.lane m l)) = false).
    { apply not_true_iff_false. intros Hc'. apply contains_test in Hc'.
      by apply (Hall 0%nat (l, t)). }
    by rewrite Htest, Hx.
  - assert (Htest : Qle_bool t ds && Qltb ds (t + Lane.length (Map.lane m l)) = false).
    { apply not_true_iff_false. intros Hc'. apply contains_test in Hc'.
      by apply (Hall 0%nat (l, t)). }
    rewrite Htest. destruct (Lane.successor (Map.lane m l)) as [[|s ss]|] eqn:Hsucc; try done.
    apply IH; [done| |lia].
    intros k y Hy. apply (Hall (S k) y). simpl. by rewrite Hsucc.
Qed.

(** C2, as amended. The walk has no bound other than the arc length it is
    asked for. It ends within [n] iterations when the chain of first
    successors ends after fewer than [n] hops, and also, on any topology,
    cycles included, when the arc length is not negative, every lane is at
    least [eps > 0] long and [ds < n * eps]. It then returns the first lane
    of the chain that contains [ds] with the offset of [ds] in it; or, when
    no lane of the chain contains [ds], the last lane of the chain together
    with its full length if that lane has no successor link, while it raises
    [IndexError] if the chain reaches a lane whose successor list is
    empty. These are the only outcomes, and each comes about exactly in the
    case named. *)
Theorem lane_walk_comes_back_when m lane ds n eps :
  chain_at m lane 0 n = None \/
  (0 < eps /\ (forall x, eps <= Lane.length (Map.lane m x)) /\
   0 <= ds /\ ds < inject_Z (Z.of_nat n) * eps) ->
  forall fuel, (n <= fuel)%nat ->
    terminates (_lane_at_distance fuel m lane ds) /\
    (forall r, _lane_at_distance fuel m lane ds = Done r <->
               at_arc_length m lane 0 ds r \/ at_chain_end m lane 0 ds r) /\
    (forall e, _lane_at_distance fuel m lane ds = Raise e <->
               e = IndexError /\ at_broken_link m lane 0 ds).
Proof.
  intros Hcase fuel Hfuel.
  assert (Hterm : terminates (_lane_at_distance fuel m lane ds)).
  { destruct Hcase as [Hch|(Heps & Hlen & Hds & Hn)].
    - by eapply walk_finite_chain.
    - eapply (walk_progress m ds eps Heps Hlen n); [done| |done]. lra. }
  assert (Hagree : forall o n0,
            (forall fuel', (n0 < fuel')%nat -> _lane_at_distance_loop fuel' m lane 0 ds = o) ->
            _lane_at_distance fuel m lane ds = o).
  { intros o n0 Hn0. unfold _lane_at_distance.
    rewrite <- (walk_mono fuel (Nat.max fuel (S n0))); [|lia|done].
    apply Hn0. lia. }
  split; [done|]. split.
  - intros r. split; [apply walk_sound|].
    intros [H|H]; [apply walk_complete_found in H|apply walk_complete_end in H];
      destruct H as [n0 Hn0]; by apply (Hagree _ n0).
  - intros e. split; [apply walk_raises_broken|].
    intros [-> H]. apply walk_complete_broken in H as [n0 Hn0]. by apply (Hagree _ n0).
Qed.

Lemma lane_walk_comes_back_when_witness :
  (terminates (_lane_at_distance 3 (Scenario.roundabout 10) 0%nat 25) /\
   (forall r, _lane_at_distance 3 (Scenario.roundabout 10) 0%nat 25 = Done r <->
              at_arc_length (Scenario.roundabout 10) 0%nat 0 25 r \/
              at_chain_end (Scenario.roundabout 10) 0%nat 0 25 r) /\
   (forall e, _lane_at_distance 3 (Scenario.roundabout 10) 0%nat 25 = Raise e <->
              e = IndexError /\ at_broken_link (Scenario.roundabout 10) 0%nat 0 25)) /\
  _lane_at_distance 3 (Scenario.roundabout 10) 0%nat 25 = Done (0%nat, 25 - (0 + 10 + 10)) /\
  (terminates (_lane_at_distance 2 MoreScenarios.broken_link 0%nat 25) /\
   (forall r, _lane_at_distance 2 MoreScenarios.broken_link 0%nat 25 = Done r <->
              at_arc_length MoreScenarios.broken_link 0%nat 0 25 r \/
              at_chain_end MoreScenarios.broken_link 0%nat 0 25 r) /\
   (forall e, _lane_at_distance 2 MoreScenarios.broken_link 0%nat 25 = Raise e <->
              e = IndexError /\ at_broken_link MoreScenarios.broken_link 0%nat 0 25)) /\
  _lane_at_distance 2 MoreScenarios.broken_link 0%nat 25 = Raise IndexError.
Proof.
  split; [|split; [reflexivity|split; [|reflexivity]]].
  - apply (lane_walk_comes_back_when (Scenario.roundabout 10) 0%nat 25 3 10); [|lia].
    right. repeat split; try lra. intros x. simpl. lra.
  - apply (lane_walk_comes_back_when MoreScenarios.broken_link 0%nat 25 2 1); [|lia].
    left. reflexivity.
Defined.

(** The dead end: one iteration, and the end of the lane comes back. *)
Example lane_walk_dead_end :
  _lane_at_distance 1 Scenario.dead_end 0%nat 13 = Done (0%nat, 10).
Proof. reflexivity. Qed.

Lemma roundabout_walk_negative fuel t :
  0 <= t -> _lane_at_distance_loop fuel (Scenario.roundabout 10) 0%nat t (-1) = OutOfFuel.
Proof.
  revert t. induction fuel as [|fuel IH]; intros t Ht; simpl; [done|].
  destruct (Qle_bool t (-1)) eqn:Hle.
  { apply Qle_bool_iff in Hle. lra. }
  simpl. apply IH. lra.
Qed.

Lemma roundabout_walk_zero_length fuel t :
  _lane_at_distance_loop fuel (Scenario.roundabout 0) 0%nat t 5 = OutOfFuel.
Proof.
  revert t. induction fuel as [|fuel IH]; intros t; simpl; [done|].
  destruct (Qle_bool t 5 && Qltb 5 (t + 0)) eqn:Htest; [|apply IH].
  apply andb_true_iff in Htest as [Hle Hlt].
  apply Qle_bool_iff in Hle. apply Qltb_lt in Hlt. lra.
Qed.

(** Nor is there an iteration bound on inputs where the walk does come back:
    on a roundabout lane of length 1 the arc length [bound] needs
    [bound + 1] iterations. *)
Lemma roundabout_walk_far fuel k ds :
  k + inject_Z (Z.of_nat fuel) <= ds ->
  _lane_at_distance_loop fuel (Scenario.roundabout 1) 0%nat k ds = OutOfFuel.
Proof.
  revert k. induction fuel as [|fuel IH]; intros k Hk; simpl; [done|].
  rewrite Nat2Z.inj_succ, <- Z.add_1_r, inject_Z_plus in Hk.
  change (inject_Z 1) with 1 in Hk.
  assert (0 <= inject_Z (Z.of_nat fuel)).
  { change 0 with (inject_Z 0). rewrite <- Zle_Qle. lia. }
  destruct (Qle_bool k ds && Qltb ds (k + 1)) eqn:Htest.
  { apply andb_true_iff in Htest as [_ Hlt]. apply Qltb_lt in Hlt. lra. }
  apply IH. lra.
Qed.

Lemma lane_walk_has_no_bound : ~ lane_walk_bounded.
Proof.
  intros [bound Hbound].
  apply (Hbound (Scenario.roundabout 1) 0%nat (inject_Z (Z.of_nat bound))).
  apply roundabout_walk_far. lra.
Qed.

(** C2, as stated, fails: on a roundabout lane that is its own successor the
    walk never comes back for a negative arc length, nor, when the lane has
    length zero, for any arc length; and on a roundabout lane of length 1,
    where it does come back, no iteration count is enough for all arc
    lengths. *)
Lemma lane_walk_diverges :
  ~ lane_walk_comes_back (Scenario.roundabout 10) 0%nat (-1) /\
  ~ lane_walk_comes_back (Scenario.roundabout 0) 0%nat 5 /\
  ~ lane_walk_bounded.
Proof.
  split; [|split].
  - intros [fuel Hterm]. apply Hterm. by apply roundabout_walk_negative.
  - intros [fuel Hterm]. apply Hterm. apply roundabout_walk_zero_length.
  - apply lane_walk_has_no_bound.
Qed.

(** Forward projection itself does not come back when the agent on the road
    stands on a roundabout lane of length zero. *)
Lemma play_forward_macro_action_diverges fuel :
  play_forward_macro_action fuel Scenario.trajectory_class 0 (Scenario.roundabout 0)
    Scenario.frame (Some Scenario.macro_dead_end) = OutOfFuel.
Proof.
  unfold play_forward_macro_action. simpl.
  assert (Hwalk : forall t ds, _lane_at_distance_loop fuel (Scenario.roundabout 0) 0%nat t ds
                               = OutOfFuel).
  { clear. induction fuel as [|fuel IH]; intros t ds; simpl; [done|].
    destruct (Qle_bool t ds && Qltb ds (t + 0)) eqn:Htest; [|apply IH].
    apply andb_true_iff in Htest as [Hle Hlt].
    apply Qle_bool_iff in Hle. apply Qltb_lt in Hlt. lra. }
  unfold _lane_at_distance. by rewrite Hwalk.
Qed.

(** ** Search nodes *)

Lemma node_init_unexpanded key state actions n :
  Node.__init__ key state actions = Done n -> Node.unexpanded n.
Proof.
  unfold Node.__init__. destruct (_ || _); [done|]. by intros [= <-].
Qed.

Lemma node_expand_zeros n n' :
  Node.expand n = Done n' ->
  Node.expanded n' /\
  exists actions,
    Node._actions n' = Some actions /\
    Node._q_values n' = Some (repeat 0 (List.length actions)) /\
    Node._action_visits n' = Some (repeat 0%Z (List.length actions)).
Proof.
  unfold Node.expand. destruct (Node._actions n) as [actions|] eqn:Hact; [|done].
  intros [= <-]. split.
  - exists (repeat 0 (List.length actions)), (repeat 0%Z (List.length actions)), actions.
    simpl. by rewrite !repeat_length.
  - exists actions. by simpl.
Qed.

Lemma node_expand_raises n e :
  Node.expand n = Raise e -> e = TypeError /\ Node._actions n = None.
Proof.
  unfold Node.expand. destruct (Node._actions n); [done|]. by intros [= <-].
Qed.

Lemma node_call_in_step c n n' :
  Node.two_states n -> Node.in_step c n -> Node.run c n = Done n' -> Node.two_states n'.
Proof.
  intros Hn Hc. destruct c as [|child|value|value]; simpl.
  - intros Hex. right. by apply node_expand_zeros in Hex as [? _].
  - intros [= <-]. destruct Hn as [[? ?]|(q & v & acts & ? & ? & ? & ? & ?)].
    + by left.
    + right. by exists q, v, acts.
  - intros [= <-]. destruct Hc as (q & acts & -> & Hacts & Hlen & [v Hv]).
    destruct Hn as [[_ Hnone]|(q0 & v0 & acts0 & _ & Hv0 & Hacts0 & _ & Hlen0)].
    + congruence.
    + right. exists q, v0, acts0. simpl. repeat split; try done. congruence.
  - intros [= <-]. destruct Hn as [[? ?]|(q & v & acts & ? & ? & ? & ? & ?)].
    + by left.
    + right. by exists q, v, acts.
Qed.

(** C6, as amended. A node built by the constructor and by calls that keep
    the arrays in step (every call but an assignment to [q_values] of
    anything other than an array of [len(actions)] entries on an expanded
    node) is unexpanded, with neither array, or expanded, with both arrays as
    long as the action list. It is unexpanded when it comes out of the
    constructor, and [expand] leaves it expanded with all entries zero. *)
Theorem node_two_states n :
  Node.built Node.in_step n ->
  Node.two_states n /\
  (forall key state actions, Node.__init__ key state actions = Done n -> Node.unexpanded n) /\
  (forall n', Node.expand n = Done n' ->
     Node.expanded n' /\
     exists actions,
       Node._actions n' = Some actions /\
       Node._q_values n' = Some (repeat 0 (List.length actions)) /\
       Node._action_visits n' = Some (repeat 0%Z (List.length actions))).
Proof.
  intros Hbuilt. split; [|split].
  - remember Node.in_step as allowed eqn:Hallowed.
    induction Hbuilt as [allowed key state actions n Hinit|allowed c n n' Hbuilt IH Hc Hrun].
    + left. by eapply node_init_unexpanded.
    + subst allowed. eapply node_call_in_step; eauto.
  - intros key state actions. apply node_init_unexpanded.
  - intros n'. apply node_expand_zeros.
Qed.

Lemma node_two_states_witness :
  Node.two_states Scenario.root_expanded /\
  (forall key state actions,
     Node.__init__ key state actions = Done Scenario.root_expanded ->
     Node.unexpanded Scenario.root_expanded) /\
  (forall n', Node.expand Scenario.root_expanded = Done n' ->
     Node.expanded n' /\
     exists actions,
       Node._actions n' = Some actions /\
       Node._q_values n' = Some (repeat 0 (List.length actions)) /\
       Node._action_visits n' = Some (repeat 0%Z (List.length actions))).
Proof.
  apply (node_two_states Scenario.root_expanded).
  apply (Node.built_call Node.in_step Node.Expand Scenario.root).
  - by apply (Node.built_init Node.in_step (PyTuple [PyStr "Root"]) Scenario.frame
                (Some [Scenario.macro_dead_end; Scenario.macro_two_lanes])).
  - exact I.
  - reflexivity.
Defined.

(** C6, as stated, fails: the setter of [q_values] puts an array on a node
    that has no visit array. *)
Lemma node_q_values_setter_leaves_states :
  Node.built (fun _ _ => True) (Node.set_q_values Scenario.root (Some [1])) /\
  ~ Node.two_states (Node.set_q_values Scenario.root (Some [1])).
Proof.
  split.
  - apply (Node.built_call _ (Node.SetQValues (Some [1])) Scenario.root); [|done..].
    by apply (Node.built_init _ (PyTuple [PyStr "Root"]) Scenario.frame
                (Some [Scenario.macro_dead_end; Scenario.macro_two_lanes])).
  - intros [[Hq _]|(q & v & acts & _ & Hv & _)]; simpl in *; congruence.
Qed.

(** The setter also takes an array of another size on an expanded node. *)
Example node_q_values_setter_length :
  ~ Node.two_states (Node.set_q_values Scenario.root_expanded (Some [1; 2; 3])).
Proof.
  intros [[Hq _]|(q & v & acts & Hq & _ & Hacts & Hlen & _)]; simpl in *; [done|].
  injection Hq as <-. injection Hacts as <-. done.
Qed.

(** C10. The constructor raises [TypeError] exactly on a key that is not a
    tuple, [None] included; on a tuple it returns a node with that key,
    state and action list, no visits, no children and neither array. *)
Theorem node_init_type_error key state actions :
  (Node.__init__ key state actions = Raise TypeError <-> is_tuple key = false) /\
  (Node.__init__ PyNone state actions = Raise TypeError) /\
  (is_tuple key = true <->
   Node.__init__ key state actions = Done (Node.mk key state actions [] 0 None None)) /\
  (forall e, Node.__init__ key state actions = Raise e -> e = TypeError) /\
  (forall n, Node.__init__ key state actions = Done n -> Node.is_leaf n = true) /\
  Node.__init__ key state actions <> OutOfFuel.
Proof.
  unfold Node.__init__.
  destruct key; simpl; repeat split; try done; intros; by simplify_eq.
Qed.

Lemma node_init_type_error_witness :
  Node.__init__ (PyTuple [PyStr "Root"]) Scenario.frame None
  = Done (Node.mk (PyTuple [PyStr "Root"]) Scenario.frame None [] 0 None None) /\
  Node.__init__ (PyStr "Root") Scenario.frame None = Raise TypeError.
Proof.
  split.
  - by apply (node_init_type_error (PyTuple [PyStr "Root"]) Scenario.frame None).
  - by apply (node_init_type_error (PyStr "Root") Scenario.frame None).
Defined.

(** ** The current maneuver of a macro action *)

Lemma next_action_without_current_maneuver ma frame m :
  MacroAction._current_maneuver ma = CurNone ->
  next_action ma frame m = (ma, Raise AttributeError).
Proof. unfold next_action. by intros ->. Qed.

Lemma next_actions_without_current_maneuver ma calls :
  MacroAction._current_maneuver ma = CurNone ->
  next_actions ma calls = ma.
Proof.
  intros Hnone. induction calls as [|[frame m] calls IH]; [done|].
  simpl. by rewrite next_action_without_current_maneuver.
Qed.

(** C7, as amended. A constructed macro action holds the maneuver list
    returned by [get_maneuvers] and a current-maneuver reference that is
    [None]; it has no cursor. A call of [next_action] on it raises
    [AttributeError] and leaves it as it was, however many calls are made. *)
Theorem macro_action_current_maneuver get_maneuvers agent_id frame m open_loop ma :
  MacroAction__init__ get_maneuvers agent_id frame m open_loop = Done ma ->
  MacroAction._current_maneuver ma = CurNone /\
  (exists r, get_maneuvers open_loop agent_id frame m = Done r /\
             MacroAction._maneuvers ma = Some r.1) /\
  (forall frame' m', next_action ma frame' m' = (ma, Raise AttributeError)) /\
  forall calls, next_actions ma calls = ma.
Proof.
  unfold MacroAction__init__.
  destruct (get_maneuvers open_loop agent_id frame m) as [r| |] eqn:Hget; simpl; [|done..].
  intros [= <-]. split; [done|]. split; [by exists r|]. split; [done|].
  intros calls. by apply next_actions_without_current_maneuver.
Qed.

Lemma macro_action_current_maneuver_witness :
  MacroAction._current_maneuver Scenario.constructed = CurNone /\
  (exists r, Scenario.get_maneuvers false 0 Scenario.frame Scenario.dead_end = Done r /\
             MacroAction._maneuvers Scenario.constructed = Some r.1) /\
  (forall frame' m',
     next_action Scenario.constructed frame' m'
     = (Scenario.constructed, Raise AttributeError)) /\
  forall calls, next_actions Scenario.constructed calls = Scenario.constructed.
Proof.
  apply (macro_action_current_maneuver Scenario.get_maneuvers 0 Scenario.frame
           Scenario.dead_end false Scenario.constructed).
  reflexivity.
Defined.

(** The base class cannot be constructed: its [get_maneuvers] raises. *)
Example macro_action_abstract agent_id frame m open_loop :
  MacroAction__init__ MacroAction_get_maneuvers agent_id frame m open_loop
  = Raise NotImplementedError.
Proof. reflexivity. Qed.

(** C7, as stated, fails: the constructor leaves [None] in the
    current-maneuver reference. *)
Lemma macro_action_current_maneuver_none :
  MacroAction__init__ Scenario.get_maneuvers 0 Scenario.frame Scenario.dead_end false
  = Done Scenario.constructed /\
  ~ tracks_current_maneuver Scenario.constructed.
Proof.
  split; [reflexivity|]. by intros [Hnone _].
Qed.

(** With a current maneuver that reports done, [next_action] stores the
    rest of the maneuver list in the reference and raises. *)
Example next_action_stores_list :
  next_action Scenario.stepping Scenario.frame Scenario.dead_end
  = (set_current_maneuver Scenario.stepping (CurList [Scenario.follow]),
     Raise AttributeError).
Proof. reflexivity. Qed.

(** ** Lane-change applicability *)

Lemma min_by_key_spec {A} (best : Q * A) xs :
  (min_by_key best xs = best \/ min_by_key best xs ∈ xs) /\
  (min_by_key best xs).1 <= best.1 /\
  forall x, x ∈ xs -> (min_by_key best xs).1 <= x.1.
Proof.
  revert best. induction xs as [|x xs IH]; intros best; simpl.
  - split; [by left|]. split; [lra|]. intros x Hx. by apply elem_of_nil in Hx.
  - destruct (IH (if Qltb x.1 best.1 then x else best)) as (Hin & Hle & Hall).
    destruct (Qltb x.1 best.1) eqn:Hlt.
    + apply Qltb_lt in Hlt. split; [|split].
      * right. destruct Hin as [->|Hin]; [by left|by right].
      * lra.
      * intros y [->|Hy]%elem_of_cons; [done|by apply Hall].
    + apply not_true_iff_false in Hlt. rewrite Qltb_lt in Hlt.
      apply Qnot_lt_le in Hlt. split; [|split].
      * destruct Hin as [->|Hin]; [by left|right; by right].
      * done.
      * intros y [->|Hy]%elem_of_cons; [lra|by apply Hall].
Qed.

Lemma py_min_spec {A} (xs : list (Q * A)) :
  match py_min xs with
  | Done nearest => nearest ∈ xs /\ forall x, x ∈ xs -> nearest.1 <= x.1
  | Raise e => e = ValueError /\ xs = []
  | OutOfFuel => False
  end.
Proof.
  destruct xs as [|x xs]; simpl; [done|].
  destruct (min_by_key_spec x xs) as ([->|Hin] & Hle & Hall).
  - split; [by left|]. intros y [->|Hy]%elem_of_cons; [lra|by apply Hall].
  - split; [by right|]. intros y [->|Hy]%elem_of_cons; [done|by apply Hall].
Qed.

Lemma check_change_validity_in_junction sl state m :
  is_Some (Map.junction_at m (AgentState.position state)) ->
  check_change_validity sl state m = Done (Some false).
Proof.
  intros Hj. unfold check_change_validity. by rewrite bool_decide_eq_true_2.
Qed.

Lemma check_change_validity_no_successor sl state m current_lane :
  Map.junction_at m (AgentState.position state) = None ->
  Map.best_lane_at m (AgentState.position state) (AgentState.heading state)
  = Some current_lane ->
  Lane.successor (Map.lane m current_lane) = None ->
  check_change_validity sl state m = Done (Some true).
Proof.
  intros Hj Hlane Hsucc. unfold check_change_validity.
  rewrite Hj, bool_decide_eq_false_2, Hlane, Hsucc; [done|]. by intros [? ?].
Qed.

Lemma check_change_validity_near_junction sl state m current_lane successor :
  Map.junction_at m (AgentState.position state) = None ->
  Map.best_lane_at m (AgentState.position state) (AgentState.heading state)
  = Some current_lane ->
  Lane.successor (Map.lane m current_lane) = Some successor ->
  successor <> [] ->
  exists nearest_successor,
    let distance s := Lane.boundary_distance (Map.lane m s) (AgentState.position state) in
    nearest_successor ∈ successor /\
    (forall s, s ∈ successor -> distance nearest_successor <= distance s) /\
    (check_change_validity sl state m = Done (Some true) <->
     if all_single_laned m successor
     then MIN_SWITCH_LENGTH sl < distance nearest_successor
     else in_junction_road m nearest_successor = true /\
          (TARGET_SWITCH_LENGTH sl < distance nearest_successor \/
           Map.road_in_roundabout m (Lane.parent_road (Map.lane m current_lane)) = true)).
Proof.
  intros Hj Hlane Hsucc Hne. unfold check_change_validity.
  rewrite Hj, bool_decide_eq_false_2, Hlane, Hsucc; [|by intros [? ?]].
  set (distances := map _ successor).
  pose proof (py_min_spec distances) as Hmin.
  destruct (py_min distances) as [[d nearest]|e|]; simpl in *; [| |done].
  2:{ destruct Hmin as [_ Hnil]. by destruct successor. }
  destruct Hmin as [Hin Hall].
  apply list_elem_of_fmap in Hin as (s0 & [= -> ->] & Hs0).
  exists s0. split; [done|]. split.
  - intros s Hs. apply (Hall (_, s)). apply list_elem_of_fmap. by exists s.
  - destruct (all_single_laned m successor).
    + rewrite <- Qltb_lt. split; [by intros [= ->]|by intros ->].
    + destruct (in_junction_road m s0).
      * rewrite <- Qltb_lt, <- orb_true_iff.
        split; [intros [= ->]; by split|by intros [_ ->]].
      * split; [done|by intros [? _]].
Qed.

Lemma get_target_lane_side left m current_lane :
  _get_target_lane left m current_lane
  = let id := Lane.id (Map.lane m current_lane) in
    LaneSection.get_lane (Lane.lane_section (Map.lane m current_lane))
      (if left then (if (0 <? id)%Z then id - 1 else id + 1)%Z
       else (if (0 <? id)%Z then id + 1 else id - 1)%Z).
Proof.
  unfold _get_target_lane. simpl. f_equal.
  destruct left, (0 <? Lane.id (Map.lane m current_lane))%Z; lia.
Qed.

Lemma all_single_laned_Forall m successor :
  all_single_laned m successor = true <->
  Forall (fun s => (List.length (LaneSection.all_lanes (Lane.lane_section (Map.lane m s)))
                    <= 2)%nat) successor.
Proof.
  unfold all_single_laned. induction successor as [|s successor IH]; simpl.
  - split; [by intros _; apply Forall_nil_2|done].
  - rewrite andb_true_iff, Forall_cons, IH, Nat.leb_le. done.
Qed.

Lemma in_junction_road_junction m lane :
  in_junction_road m lane = true <->
  is_Some (Road.junction (Map.road m (Lane.parent_road (Map.lane m lane)))).
Proof. unfold in_junction_road. apply bool_decide_eq_true. Qed.

(** C4. A lane change to the left or to the right is applicable exactly when
    the lane section of the current lane has a lane with the target id, that
    lane is not the center lane (id 0), and the validity check passes. The
    target id is the next id towards the center for a change to the left
    ([id - 1] for a positive [id], [id + 1] otherwise) and the next id away
    from the center for a change to the right. The validity check is false
    inside a junction; before a junction, with successors, it passes exactly
    when every successor has a lane section of at most two lanes and the
    distance to the nearest successor exceeds the minimum switch length, or
    when some successor has more lanes, the road of the nearest successor
    belongs to a junction and the distance exceeds the target switch length
    or the current road is in a roundabout; with no successor it passes. *)
Theorem ChangeLane_applicable_iff left sl state m :
  (ChangeLane_applicable left sl state m = Done (Some true) <->
   (exists current_lane target_lane,
      Map.best_lane_at m (AgentState.position state) (AgentState.heading state)
      = Some current_lane /\
      (let id := Lane.id (Map.lane m current_lane) in
       LaneSection.get_lane (Lane.lane_section (Map.lane m current_lane))
         (if left then (if (0 <? id)%Z then id - 1 else id + 1)%Z
          else (if (0 <? id)%Z then id + 1 else id - 1)%Z)
       = Some target_lane) /\
      Lane.id (Map.lane m target_lane) <> 0%Z) /\
   check_change_validity sl state m = Done (Some true)) /\
  (is_Some (Map.junction_at m (AgentState.position state)) ->
   check_change_validity sl state m = Done (Some false)) /\
  (forall current_lane,
     Map.junction_at m (AgentState.position state) = None ->
     Map.best_lane_at m (AgentState.position state) (AgentState.heading state)
     = Some current_lane ->
     match Lane.successor (Map.lane m current_lane) with
     | None => check_change_validity sl state m = Done (Some true)
     | Some successor =>
         successor <> [] ->
         exists nearest_successor,
           let distance s :=
             Lane.boundary_distance (Map.lane m s) (AgentState.position state) in
           let single_laned s :=
             (List.length (LaneSection.all_lanes (Lane.lane_section (Map.lane m s)))
              <= 2)%nat in
           nearest_successor ∈ successor /\
           (forall s, s ∈ successor -> distance nearest_successor <= distance s) /\
           (check_change_validity sl state m = Done (Some true) <->
            Forall single_laned successor /\
            MIN_SWITCH_LENGTH sl < distance nearest_successor \/
            ~ Forall single_laned successor /\
            is_Some (Road.junction
                       (Map.road m (Lane.parent_road (Map.lane m nearest_successor)))) /\
            (TARGET_SWITCH_LENGTH sl < distance nearest_successor \/
             Map.road_in_roundabout m (Lane.parent_road (Map.lane m current_lane)) = true))
     end).
Proof.
  split; [|split].
  - unfold ChangeLane_applicable, SwitchLane_applicable.
    destruct (Map.best_lane_at m _ _) as [current_lane|] eqn:Hlane; simpl.
    2:{ split; [done|]. by intros [(? & ? & ? & _) _]. }
    rewrite get_target_lane_side. simpl.
    destruct (LaneSection.get_lane _ _) as [target_lane|] eqn:Htarget; simpl.
    2:{ split; [done|]. intros [(cl & tl & [= <-] & Htl & _) _]. simpl in Htl. congruence. }
    destruct (Z.eqb_spec (Lane.id (Map.lane m target_lane)) 0) as [Hid|Hid]; simpl.
    + split; [done|]. intros [(cl & tl & [= <-] & Htl & Hne) _]. simpl in Htl. congruence.
    + split; [|by intros [_ ?]]. intros Hvalid. split; [|done].
      by exists current_lane, target_lane.
  - apply check_change_validity_in_junction.
  - intros current_lane Hj Hlane.
    destruct (Lane.successor (Map.lane m current_lane)) as [successor|] eqn:Hsucc.
    + intros Hne.
      destruct (check_change_validity_near_junction sl state m current_lane successor
                  Hj Hlane Hsucc Hne) as (nearest & Hin & Hmin & Hiff).
      exists nearest. split; [done|]. split; [done|]. rewrite Hiff.
      destruct (all_single_laned m successor) eqn:Hall.
      * apply all_single_laned_Forall in Hall. split; [by left|].
        intros [[_ ?]|[Hno _]]; done.
      * assert (Hno : ~ Forall
                  (fun s => (List.length (LaneSection.all_lanes
                                            (Lane.lane_section (Map.lane m s))) <= 2)%nat)
                  successor).
        { intros Hf. apply all_single_laned_Forall in Hf. congruence. }
        rewrite in_junction_road_junction. split.
        -- intros [? ?]. by right.
        -- intros [[? _]|[_ ?]]; done.
    + by eapply check_change_validity_no_successor.
Qed.

Lemma ChangeLane_applicable_iff_witness :
  ChangeLane_applicable true Scenario.switch_lane (Scenario.agent 10 (-3) 5) Scenario.approach
  = Done (Some true) /\
  ChangeLane_applicable false Scenario.switch_lane (Scenario.agent 10 0 5) Scenario.approach
  = Done (Some true) /\
  check_change_validity Scenario.switch_lane (Scenario.agent 57 0 5) Scenario.approach
  = Done (Some false).
Proof.
  split; [|split].
  - apply (ChangeLane_applicable_iff true Scenario.switch_lane
             (Scenario.agent 10 (-3) 5) Scenario.approach).
    split; [|reflexivity]. exists 1%nat, 0%nat. by vm_compute.
  - apply (ChangeLane_applicable_iff false Scenario.switch_lane
             (Scenario.agent 10 0 5) Scenario.approach).
    split; [|reflexivity]. exists 0%nat, 1%nat. by vm_compute.
  - apply (ChangeLane_applicable_iff true Scenario.switch_lane
             (Scenario.agent 57 0 5) Scenario.approach).
    by exists 0%nat.
Defined.

(** The scenario, computed: from lane -1 the lane to the left is the center
    lane; three units before the junction a change to the right is too late. *)
Example ChangeLane_applicable_center :
  ChangeLane_applicable true Scenario.switch_lane (Scenario.agent 10 0 5) Scenario.approach
  = Done (Some false).
Proof. reflexivity. Qed.

Example ChangeLane_applicable_late :
  ChangeLane_applicable false Scenario.switch_lane (Scenario.agent 47 0 5) Scenario.approach
  = Done (Some false) /\
  ChangeLane_applicable false Scenario.switch_lane (Scenario.agent 10 0 5) Scenario.approach
  = Done (Some true).
Proof. split; reflexivity. Qed.

(** ** Turn targets *)

Lemma allclose_refl atol p : 0 <= atol -> allclose atol p p = true.
Proof.
  intros Hatol. unfold allclose.
  assert (Hself : forall x, Qle_bool (Qabs (x - x)) (atol + 0.00001 * Qabs x) = true).
  { intros x. apply Qle_bool_iff.
    assert (Hx : x - x == 0) by ring. rewrite Hx.
    change (Qabs 0) with 0. pose proof (Qabs_nonneg x). lra. }
  by rewrite !Hself.
Qed.

Lemma distinct_targets_snoc targets target :
  distinct_targets targets ->
  existsb (fun p => allclose 0.25 p target) targets = false ->
  distinct_targets (targets ++ [target]).
Proof.
  intros Hd Hnone i j p q Hij Hi Hj.
  assert (Hlen : (j < List.length (targets ++ [target]))%nat) by by eapply lookup_lt_Some.
  rewrite length_app in Hlen. simpl in Hlen.
  rewrite lookup_app_l in Hi by lia.
  destruct (decide (j < List.length targets)%nat) as [Hlt|Hge].
  - rewrite lookup_app_l in Hj by lia. by apply (Hd i j p q).
  - rewrite lookup_app_r in Hj by lia.
    replace (j - List.length targets)%nat with 0%nat in Hj by lia.
    injection Hj as <-.
    apply not_true_iff_false. intros Hclose.
    apply not_true_iff_false in Hnone. apply Hnone.
    apply existsb_exists. exists p. split; [|done].
    apply list_elem_of_In. by eapply list_elem_of_lookup_2.
Qed.

Lemma collect_targets_spec m lanes acc :
  distinct_targets acc ->
  let targets := fold_left (collect_target m) lanes acc in
  distinct_targets targets /\
  (forall t, t ∈ acc -> t ∈ targets) /\
  (forall t, t ∈ targets ->
     t ∈ acc \/ exists lane, lane ∈ lanes /\ t = Lane.midline_end (Map.lane m lane)) /\
  (forall lane, lane ∈ lanes ->
     exists p, p ∈ targets /\ allclose 0.25 p (Lane.midline_end (Map.lane m lane)) = true).
Proof.
  revert acc. induction lanes as [|lane lanes IH]; intros acc Hd; simpl.
  - repeat split; try done; [by left|]. intros lane Hl. by apply elem_of_nil in Hl.
  - set (acc' := collect_target m acc lane).
    assert (Hacc' : distinct_targets acc' /\ (forall t, t ∈ acc -> t ∈ acc') /\
              (forall t, t ∈ acc' -> t ∈ acc \/ t = Lane.midline_end (Map.lane m lane)) /\
              exists p, p ∈ acc' /\
                allclose 0.25 p (Lane.midline_end (Map.lane m lane)) = true).
    { unfold acc', collect_target.
      destruct (existsb _ acc) eqn:Hex.
      - repeat split; try done; [by left|].
        apply existsb_exists in Hex as (p & Hp & Hclose).
        exists p. split; [by apply list_elem_of_In|done].
      - split; [by apply distinct_targets_snoc|]. split; [|split].
        + intros t Ht. apply elem_of_app. by left.
        + intros t [Ht|Ht]%elem_of_app; [by left|right].
          by apply list_elem_of_singleton in Ht.
        + exists (Lane.midline_end (Map.lane m lane)). split.
          * apply elem_of_app. right. by apply list_elem_of_singleton.
          * by apply allclose_refl. }
    destruct Hacc' as (Hd' & Hsub & Hfrom & p & Hp & Hclose).
    destruct (IH acc' Hd') as (Hdist & Hkeep & Horigin & Hcover).
    split; [done|]. split; [|split].
    + intros t Ht. by apply Hkeep, Hsub.
    + intros t Ht. destruct (Horigin t Ht) as [Hin|(l & Hl & ->)].
      * destruct (Hfrom t Hin) as [Hacc | ->]; [by left|].
        right. exists lane. split; [by left|done].
      * right. exists l. split; [by right|done].
    + intros l [->|Hl]%elem_of_cons; [|by apply Hcover].
      exists p. split; [by apply Hkeep|done].
Qed.

Lemma turn_targets_map targets : turn_targets (map TurnTarget targets) = targets.
Proof.
  induction targets as [|t targets IH]; [done|].
  unfold turn_targets in *. simpl. by f_equal.
Qed.

Lemma Exit_get_possible_args_in_junction state m goal_point lanes :
  is_Some (Map.junction_at m (AgentState.position state)) ->
  Exit_junction_lanes state m = Done lanes ->
  exists targets,
    Exit_get_possible_args state m goal_point = Done (map TurnTarget targets) /\
    distinct_targets targets /\
    (forall t, t ∈ targets ->
       exists lane, lane ∈ lanes /\ t = Lane.midline_end (Map.lane m lane)) /\
    (forall lane, lane ∈ lanes ->
       exists p, p ∈ targets /\
         allclose 0.25 p (Lane.midline_end (Map.lane m lane)) = true).
Proof.
  intros Hj Hlanes. unfold Exit_get_possible_args.
  rewrite bool_decide_eq_true_2, Hlanes by done. simpl.
  exists (fold_left (collect_target m) lanes []). split; [done|].
  destruct (collect_targets_spec m lanes []) as (Hd & _ & Horigin & Hcover).
  { intros i j p q _ Hi. by rewrite lookup_nil in Hi. }
  split; [done|]. split; [|done].
  intros t Ht. destruct (Horigin t Ht) as [Hnil|?]; [|done].
  by apply elem_of_nil in Hnil.
Qed.

Lemma Exit_get_possible_args_outside state m goal_point current_lane successor :
  Map.junction_at m (AgentState.position state) = None ->
  Map.best_lane_at m (AgentState.position state) (AgentState.heading state)
  = Some current_lane ->
  Lane.successor (Map.lane m current_lane) = Some successor ->
  Exit_get_possible_args state m goal_point
  = Done (map (fun lane => TurnTarget (Lane.midline_end (Map.lane m lane)))
            (filter (fun lane => Map.road_in_roundabout m
                                   (Lane.parent_road (Map.lane m lane)) = false)
                    successor)).
Proof.
  intros Hj Hlane Hsucc. unfold Exit_get_possible_args.
  rewrite Hj, bool_decide_eq_false_2, Hlane, Hsucc by by intros [? ?].
  simpl. by rewrite map_map.
Qed.

Lemma select_possible_args_nearest self cls frame m state center possible_args :
  dict_get (MacroAgent.agent_id self) frame = Some state ->
  MacroAgent.goal_center self = Some center ->
  get_possible_args cls state m (Some center) = Done possible_args ->
  (if Nat.ltb 1 (List.length possible_args)
   then turn_targets possible_args <> [] ->
        exists t,
          select_possible_args self cls frame m = Done [TurnTarget t] /\
          TurnTarget t ∈ possible_args /\
          forall t', TurnTarget t' ∈ possible_args -> norm2 t center <= norm2 t' center
   else select_possible_args self cls frame m = Done possible_args).
Proof.
  intros Hstate Hgoal Hargs. unfold select_possible_args.
  rewrite Hstate, Hgoal, Hargs. simpl.
  destruct (Nat.ltb 1 (List.length possible_args)); [|done].
  intros Hne.
  assert (Hin : forall t, t ∈ turn_targets possible_args <-> TurnTarget t ∈ possible_args).
  { intros t. unfold turn_targets. rewrite list_elem_of_omap. split.
    - intros (a & Ha & Hat). destruct a; by simplify_eq.
    - intros Ht. by exists (TurnTarget t). }
  pose proof (py_min_spec (map (fun p => (norm2 p center, p)) (turn_targets possible_args)))
    as Hmin.
  destruct (py_min _) as [[d closest]|e|]; simpl in *; [| |done].
  2:{ destruct Hmin as [_ Hnil]. by destruct (turn_targets possible_args). }
  destruct Hmin as [Hclosest Hall].
  apply list_elem_of_fmap in Hclosest as (t0 & [= -> ->] & Ht0).
  exists t0. split; [done|]. split; [by apply Hin|].
  intros t' Ht'. apply (Hall (_, t')). apply list_elem_of_fmap. exists t'.
  split; [done|by apply Hin].
Qed.

Lemma Exit_get_possible_args_turn_targets state m goal_point possible_args :
  Exit_get_possible_args state m goal_point = Done possible_args ->
  exists targets, possible_args = map TurnTarget targets.
Proof.
  unfold Exit_get_possible_args.
  destruct (if bool_decide _ then _ else _) as [targets| |]; simpl; [|done..].
  intros [= <-]. by exists targets.
Qed.

Lemma Exit_junction_lanes_cases state m lanes :
  Exit_junction_lanes state m = Done lanes ->
  let within := Map.lanes_within_angle m (AgentState.position state)
                  (AgentState.heading state) LANE_ANGLE_THRESHOLD 0.5 in
  (within <> [] /\ lanes = within) \/
  (within = [] /\
   exists lane, Map.best_lane_at_drivable m (AgentState.position state)
                  (AgentState.heading state) = Some lane /\ lanes = [lane]).
Proof.
  unfold Exit_junction_lanes. simpl.
  destruct (Map.lanes_within_angle m _ _ _ _) as [|l ls].
  - destruct (Map.best_lane_at_drivable m _ _) as [lane|]; [|done].
    intros [= <-]. right. split; [done|]. by exists lane.
  - intros [= <-]. by left.
Qed.

(** C5, as amended. [Exit.get_possible_args] does not look at the goal
    point. Inside a junction it looks at the lanes within the angle
    threshold, or, when there is none, at the best drivable lane, and
    returns endpoints of these lanes, none close to a later one, such that
    the endpoint of every lane looked at is close to a returned one. Outside
    a junction it returns, in order, the endpoint of every successor whose
    road is not in a roundabout. [MacroAgent.update_macro_action], which
    passes the goal center, replaces a list of more than one turn target by
    the single target of the list nearest that center. *)
Theorem Exit_get_possible_args_targets state m goal_point :
  Exit_get_possible_args state m goal_point = Exit_get_possible_args state m None /\
  (forall lanes,
     is_Some (Map.junction_at m (AgentState.position state)) ->
     Exit_junction_lanes state m = Done lanes ->
     let within := Map.lanes_within_angle m (AgentState.position state)
                     (AgentState.heading state) LANE_ANGLE_THRESHOLD 0.5 in
     ((within <> [] /\ lanes = within) \/
      (within = [] /\
       exists lane, Map.best_lane_at_drivable m (AgentState.position state)
                      (AgentState.heading state) = Some lane /\ lanes = [lane])) /\
     exists targets,
       Exit_get_possible_args state m goal_point = Done (map TurnTarget targets) /\
       distinct_targets targets /\
       (forall t, t ∈ targets ->
          exists lane, lane ∈ lanes /\ t = Lane.midline_end (Map.lane m lane)) /\
       (forall lane, lane ∈ lanes ->
          exists p, p ∈ targets /\
            allclose 0.25 p (Lane.midline_end (Map.lane m lane)) = true)) /\
  (forall current_lane successor,
     Map.junction_at m (AgentState.position state) = None ->
     Map.best_lane_at m (AgentState.position state) (AgentState.heading state)
     = Some current_lane ->
     Lane.successor (Map.lane m current_lane) = Some successor ->
     Exit_get_possible_args state m goal_point
     = Done (map (fun lane => TurnTarget (Lane.midline_end (Map.lane m lane)))
               (filter (fun lane => Map.road_in_roundabout m
                                      (Lane.parent_road (Map.lane m lane)) = false)
                       successor))) /\
  (forall self frame center possible_args,
     dict_get (MacroAgent.agent_id self) frame = Some state ->
     MacroAgent.goal_center self = Some center ->
     Exit_get_possible_args state m (Some center) = Done possible_args ->
     (1 < List.length possible_args)%nat ->
     exists t,
       select_possible_args self Exit frame m = Done [TurnTarget t] /\
       TurnTarget t ∈ possible_args /\
       forall t', TurnTarget t' ∈ possible_args -> norm2 t center <= norm2 t' center).
Proof.
  split; [done|]. split; [|split].
  - intros lanes Hj Hlanes within. split; [by apply Exit_junction_lanes_cases|].
    by apply Exit_get_possible_args_in_junction.
  - intros current_lane successor. apply Exit_get_possible_args_outside.
  - intros self frame center possible_args Hstate Hgoal Hargs Hlen.
    pose proof (select_possible_args_nearest self Exit frame m state center possible_args
                  Hstate Hgoal Hargs) as Hsel.
    apply Nat.ltb_lt in Hlen as Hltb. rewrite Hltb in Hsel. apply Hsel.
    destruct (Exit_get_possible_args_turn_targets _ _ _ _ Hargs) as [targets ->].
    rewrite turn_targets_map. rewrite length_map in Hlen. by destruct targets.
Qed.

Lemma Exit_get_possible_args_targets_witness :
  Exit_get_possible_args (Scenario.agent 0 0 1) Scenario.fork (Some (20, 4))
  = Done [TurnTarget (20, 0); TurnTarget (20, 5)] /\
  exists t,
    select_possible_args (Scenario.macro_agent (20, 4)) Exit Scenario.frame Scenario.fork
    = Done [TurnTarget t] /\
    TurnTarget t ∈ [TurnTarget (20, 0); TurnTarget (20, 5)] /\
    forall t', TurnTarget t' ∈ [TurnTarget (20, 0); TurnTarget (20, 5)] ->
               norm2 t (20, 4) <= norm2 t' (20, 4).
Proof.
  split; [reflexivity|].
  apply (Exit_get_possible_args_targets (Scenario.agent 0 0 1) Scenario.fork None).
  - reflexivity.
  - reflexivity.
  - reflexivity.
  - simpl. lia.
Defined.

(** The scenarios, computed: inside the junction the second lane ends a
    tenth of a unit from the first and adds no target; at the fork the goal
    point leaves the enumeration as it is, and the agent keeps the target
    nearest its goal. *)
Example Exit_get_possible_args_crossing :
  Exit_get_possible_args (Scenario.agent 5 0 1) Scenario.crossing None
  = Done [TurnTarget (20, 0); TurnTarget (20, 5)].
Proof. reflexivity. Qed.

Example select_possible_args_fork :
  select_possible_args (Scenario.macro_agent (20, 4)) Exit Scenario.frame Scenario.fork
  = Done [TurnTarget (20, 5)].
Proof. reflexivity. Qed.

(** The agent then builds its exit, closed loop, towards that target. *)
Example update_macro_action_fork :
  update_macro_action Scenario.construct (Scenario.macro_agent (20, 4)) Exit
    Scenario.frame Scenario.fork
  = (MacroAgent.mk 0 (Some (20, 4))
       (Some (MacroAction.mk false 0 Scenario.frame None Scenario.fork
                (Some [Maneuver.mk [(20, 5)] [] (fun _ _ => false)
                         (fun _ _ => mkAction 0 0)])
                CurNone)),
     Done tt).
Proof. reflexivity. Qed.

(** C5, as stated, fails inside a junction when no lane is within the angle
    threshold: the endpoint of the best drivable lane is returned. *)
Lemma Exit_get_possible_args_falls_back :
  Exit_get_possible_args (Scenario.agent 5 1 1) Scenario.crossing None
  = Done [TurnTarget (20, 5)] /\
  ~ targets_within_angle (Scenario.agent 5 1 1) Scenario.crossing [TurnTarget (20, 5)].
Proof.
  split; [reflexivity|]. intros Hwithin.
  destruct (Hwithin (20, 5)) as (lane & Hlane & _); [by left|].
  by apply elem_of_nil in Hlane.
Qed.

(** ** The gap analysis of a lane change *)

Lemma oncoming_loop_blocked sl m agent_id state seq midline items acc :
  (exists entry, entry ∈ items /\ blocks sl m agent_id state seq midline entry) ->
  oncoming_loop sl m agent_id state seq midline items acc = Raise RuntimeError.
Proof.
  revert acc. induction items as [|[aid agent] items IH]; intros acc (entry & Hin & Hb).
  - by apply elem_of_nil in Hin.
  - simpl. apply elem_of_cons in Hin as [->|Hin].
    + destruct Hb as (Hne & Hon & Hclose & Hnear). simpl in *.
      destruct (Z.eqb_spec agent_id aid); [done|].
      rewrite Hon, Hclose. apply Qltb_lt in Hnear. by rewrite Hnear.
    + assert (Hrest : forall acc', oncoming_loop sl m agent_id state seq midline items acc'
                                   = Raise RuntimeError).
      { intros acc'. apply IH. by exists entry. }
      destruct (Z.eqb agent_id aid); [done|].
      destruct (on_lane_sequence m seq agent); [|done].
      destruct (isclose _ 0).
      * by destruct (Qltb _ (MIN_SWITCH_LENGTH sl)).
      * by destruct (Qltb 0 _).
Qed.

Lemma oncoming_loop_outcome sl m agent_id state seq midline items acc :
  (exists intervals, oncoming_loop sl m agent_id state seq midline items acc = Done intervals)
  \/ oncoming_loop sl m agent_id state seq midline items acc = Raise RuntimeError.
Proof.
  revert acc. induction items as [|[aid agent] items IH]; intros acc; simpl; [left; eauto|].
  destruct (Z.eqb agent_id aid); [done|].
  destruct (on_lane_sequence m seq agent); [|done].
  destruct (isclose _ 0).
  - destruct (Qltb _ (MIN_SWITCH_LENGTH sl)); [by right|done].
  - by destruct (Qltb 0 _).
Qed.

Lemma oncoming_loop_raises sl m agent_id state seq midline items acc e :
  oncoming_loop sl m agent_id state seq midline items acc = Raise e ->
  e = RuntimeError /\
  exists entry, entry ∈ items /\ blocks sl m agent_id state seq midline entry.
Proof.
  revert acc. induction items as [|[aid agent] items IH]; intros acc; simpl; [done|].
  assert (Hlift : forall acc',
    oncoming_loop sl m agent_id state seq midline items acc' = Raise e ->
    e = RuntimeError /\
    exists entry, entry ∈ (aid, agent) :: items /\
                  blocks sl m agent_id state seq midline entry).
  { intros acc' Hrec. apply IH in Hrec as (-> & entry & Hin & Hb). split; [done|].
    exists entry. split; [by apply elem_of_cons; right|done]. }
  destruct (Z.eqb_spec agent_id aid) as [Heq|Hne]; [apply Hlift|].
  destruct (on_lane_sequence m seq agent) eqn:Hon; [|apply Hlift].
  destruct (isclose _ 0) eqn:Hclose.
  - destruct (Qltb _ (MIN_SWITCH_LENGTH sl)) eqn:Hnear; [|apply Hlift].
    intros [= <-]. split; [done|]. exists (aid, agent).
    split; [by apply elem_of_cons; left|].
    split; [simpl; congruence|]. split; [done|]. split; [done|].
    apply Qltb_lt in Hnear. exact Hnear.
  - destruct (Qltb 0 _); apply Hlift.
Qed.

Lemma find_change_fails sl speed intervals t_lane_end n :
  forall d fuel,
    (forall k, (k < n)%nat ->
       MIN_SWITCH_LENGTH sl <= candidate d k /\
       too_long speed intervals t_lane_end (candidate d k)) ->
    candidate d n < MIN_SWITCH_LENGTH sl ->
    (n < fuel)%nat ->
    find_change fuel sl speed intervals t_lane_end d = Raise AssertionError.
Proof.
  induction n as [|n IH]; intros d fuel Hfail Hend Hfuel;
    (destruct fuel as [|fuel]; [lia|]); simpl in *.
  - destruct (Qle_bool (MIN_SWITCH_LENGTH sl) d) eqn:Hle; [|done].
    apply Qle_bool_iff in Hle. lra.
  - destruct (Hfail 0%nat) as [Hmin Hlong]; [lia|]. simpl in *.
    apply Qle_bool_iff in Hmin. rewrite Hmin.
    apply Qle_bool_iff in Hlong. rewrite Hlong.
    apply IH; [|done|lia].
    intros k Hk. apply (Hfail (S k)). lia.
Qed.

Lemma find_change_terminates sl speed intervals t_lane_end k :
  forall d fuel,
    d - MIN_SWITCH_LENGTH sl < inject_Z (Z.of_nat k) * 5 ->
    (k < fuel)%nat ->
    terminates (find_change fuel sl speed intervals t_lane_end d).
Proof.
  induction k as [|k IH]; intros d fuel Hd Hfuel;
    (destruct fuel as [|fuel]; [lia|]); simpl.
  - change (inject_Z (Z.of_nat 0)) with 0 in Hd.
    destruct (Qle_bool (MIN_SWITCH_LENGTH sl) d) eqn:Hle; [|done].
    apply Qle_bool_iff in Hle. lra.
  - destruct (Qle_bool (MIN_SWITCH_LENGTH sl) d); [|done].
    destruct (Qle_bool t_lane_end _); [|done].
    apply IH; [|lia].
    rewrite Nat2Z.inj_succ, <- Z.add_1_r, inject_Z_plus in Hd.
    change (inject_Z 1) with 1 in Hd. lra.
Qed.

Lemma find_change_at_rest_fails sl intervals remaining k :
  0 < MIN_SWITCH_LENGTH sl -> ~ remaining == 0 ->
  forall d fuel,
    d - MIN_SWITCH_LENGTH sl < inject_Z (Z.of_nat k) * 5 ->
    (k < fuel)%nat ->
    find_change_at_rest fuel sl intervals remaining d = Raise AssertionError.
Proof.
  intros Hmin Hrem. induction k as [|k IH]; intros d fuel Hd Hfuel;
    (destruct fuel as [|fuel]; [lia|]); simpl.
  - change (inject_Z (Z.of_nat 0)) with 0 in Hd.
    destruct (Qle_bool (MIN_SWITCH_LENGTH sl) d) eqn:Hle; [|done].
    apply Qle_bool_iff in Hle. lra.
  - destruct (Qle_bool (MIN_SWITCH_LENGTH sl) d) eqn:Hle; [|done].
    apply Qle_bool_iff in Hle.
    assert (Hpos : Qltb 0 d = true) by (apply Qltb_lt; lra). rewrite Hpos.
    destruct (Qeq_bool remaining 0) eqn:Hzero.
    { by apply Qeq_bool_iff in Hzero. }
    apply IH; [|lia].
    rewrite Nat2Z.inj_succ, <- Z.add_1_r, inject_Z_plus in Hd.
    change (inject_Z 1) with 1 in Hd. lra.
Qed.

(** C3, as amended. With the oncoming check switched on, the construction of
    an open-loop lane change raises [RuntimeError] when a neighbour with the
    speed of the ego is on the target lanes within the minimum switch length.
    It raises [AssertionError] when the ego moves and none of the switch
    lengths tried, from the target length down in steps of 5 while not below
    the minimum, ends before the lane does; and also when the ego is at rest
    (speed 0, every switch then lasting for ever), the minimum switch length
    is positive and the ego is not exactly at the end of the line of the
    target lanes. With the check switched off, as the class has it, no gap
    analysis takes place: the switch is built at once, over the target
    length. *)
Theorem ChangeLane_gap_analysis_raises
    fuel lib sl left agent_id frame m state current_lane lane_sequence :
  dict_get agent_id frame = Some state ->
  Map.best_lane_at m (AgentState.position state) (AgentState.heading state)
  = Some current_lane ->
  _get_lane_sequence fuel left state m current_lane (TARGET_SWITCH_LENGTH sl)
  = Done lane_sequence ->
  lane_sequence <> [] ->
  let midline := line_of_lanes lib m lane_sequence in
  let remaining :=
    LineString.length midline - LineString.project midline (AgentState.position state) in
  ((exists entry, entry ∈ frame /\
      blocks sl m agent_id state lane_sequence midline entry) ->
   ChangeLane__init__ fuel lib sl true left agent_id frame m true = Raise RuntimeError) /\
  (forall intervals n,
     _get_oncoming_vehicle_intervals sl m agent_id frame lane_sequence midline
     = Done intervals ->
     ~ AgentState.speed state == 0 ->
     (forall k, (k < n)%nat ->
        MIN_SWITCH_LENGTH sl <= candidate (TARGET_SWITCH_LENGTH sl) k /\
        too_long (AgentState.speed state) intervals
          (remaining / AgentState.speed state)
          (candidate (TARGET_SWITCH_LENGTH sl) k)) ->
     candidate (TARGET_SWITCH_LENGTH sl) n < MIN_SWITCH_LENGTH sl ->
     (n < fuel)%nat ->
     ChangeLane__init__ fuel lib sl true left agent_id frame m true
     = Raise AssertionError) /\
  (forall k,
     (forall entry, entry ∈ frame ->
        ~ blocks sl m agent_id state lane_sequence midline entry) ->
     AgentState.speed state == 0 ->
     0 < MIN_SWITCH_LENGTH sl ->
     ~ remaining == 0 ->
     TARGET_SWITCH_LENGTH sl - MIN_SWITCH_LENGTH sl < inject_Z (Z.of_nat k) * 5 ->
     (k < fuel)%nat ->
     ChangeLane__init__ fuel lib sl true left agent_id frame m true
     = Raise AssertionError) /\
  ChangeLane_get_maneuvers fuel lib sl false left true agent_id frame m
  = (let termination_point :=
       LineString.interpolate midline
         (LineString.project midline (AgentState.position state)
          + TARGET_SWITCH_LENGTH sl) in
     man ← (if left
            then SwitchLaneLeft lib "switch-left" termination_point agent_id frame m
            else SwitchLaneRight lib "right" termination_point agent_id frame m);
     final_frame ← play_forward_maneuver lib agent_id m frame man;
     Done ([man], Some final_frame)).
Proof.
  intros Hstate Hlane Hseq Hne midline remaining.
  assert (Hmid : _get_lane_sequence_midline lib m lane_sequence = Done midline).
  { by destruct lane_sequence. }
  unfold ChangeLane__init__, MacroAction__init__, ChangeLane_get_maneuvers.
  rewrite Hstate, Hlane, Hseq. simpl. rewrite Hmid. simpl.
  split; [|split; [|split]].
  - intros Hblocked. unfold wait_for_gap, _get_oncoming_vehicle_intervals.
    rewrite Hstate. by rewrite (oncoming_loop_blocked _ _ _ _ _ _ _ _ Hblocked).
  - intros intervals n Hivs Hspeed Hfail Hend Hfuel. unfold wait_for_gap.
    rewrite Hivs. simpl.
    destruct (Qeq_bool (AgentState.speed state) 0) eqn:Hzero.
    { by apply Qeq_bool_iff in Hzero. }
    by rewrite (find_change_fails _ _ _ _ n).
  - intros k Hfree Hspeed Hmin Hrem Hk Hfuel. unfold wait_for_gap.
    destruct (_get_oncoming_vehicle_intervals sl m agent_id frame lane_sequence midline)
      as [intervals|e|] eqn:Hivs; simpl.
    + apply Qeq_bool_iff in Hspeed. rewrite Hspeed.
      by rewrite (find_change_at_rest_fails sl intervals _ k).
    + exfalso. unfold _get_oncoming_vehicle_intervals in Hivs. rewrite Hstate in Hivs.
      destruct (oncoming_loop sl m agent_id state lane_sequence midline frame [])
        as [ivs|e'|] eqn:Hloop; simpl in Hivs; [done| |done].
      apply oncoming_loop_raises in Hloop as (_ & entry & Hin & Hb).
      by apply (Hfree entry).
    + exfalso. unfold _get_oncoming_vehicle_intervals in Hivs. rewrite Hstate in Hivs.
      by destruct (oncoming_loop_outcome sl m agent_id state lane_sequence midline frame [])
        as [[ivs Hd]|Hr]; rewrite ?Hd, ?Hr in Hivs.
  - done.
Qed.

Lemma ChangeLane_gap_analysis_raises_witness :
  ChangeLane__init__ 5 Scenario.library Scenario.switch_lane true true 0
    Scenario.frame_blocked Scenario.approach true = Raise RuntimeError /\
  ChangeLane__init__ 5 Scenario.library Scenario.switch_lane true true 0
    Scenario.frame_crowded Scenario.approach true = Raise AssertionError /\
  ChangeLane__init__ 5 Scenario.library Scenario.switch_lane true true 0
    MoreScenarios.frame_at_rest Scenario.approach true = Raise AssertionError.
Proof.
  split; [|split].
  - destruct (ChangeLane_gap_analysis_raises 5 Scenario.library Scenario.switch_lane true 0
                Scenario.frame_blocked Scenario.approach (Scenario.agent 10 (-3) 5)
                1%nat [0%nat] eq_refl eq_refl eq_refl ltac:(discriminate))
      as (Hblocked & _ & _ & _).
    apply Hblocked. exists (1%Z, Scenario.agent 12 0 5). split.
    + apply elem_of_cons. right. apply elem_of_cons. by left.
    + split; [discriminate|]. split; [reflexivity|]. split; [reflexivity|].
      apply Qltb_lt. reflexivity.
  - destruct (ChangeLane_gap_analysis_raises 5 Scenario.library Scenario.switch_lane true 0
                Scenario.frame_crowded Scenario.approach (Scenario.agent 10 (-3) 5)
                1%nat [0%nat] eq_refl eq_refl eq_refl ltac:(discriminate))
      as (_ & Hlong & _ & _).
    apply (Hlong [(0, 7, 2)] 4%nat).
    + reflexivity.
    + discriminate.
    + intros k Hk. unfold too_long.
      destruct k as [|[|[|[|k]]]]; [| | | |lia];
        (split; apply Qle_bool_iff; reflexivity).
    + apply Qltb_lt. reflexivity.
    + lia.
  - destruct (ChangeLane_gap_analysis_raises 5 Scenario.library Scenario.switch_lane true 0
                MoreScenarios.frame_at_rest Scenario.approach (Scenario.agent 10 (-3) 0)
                1%nat [0%nat] eq_refl eq_refl eq_refl ltac:(discriminate))
      as (_ & _ & Hrest & _).
    apply (Hrest 4%nat).
    + intros entry Hin (Hne & _).
      apply elem_of_cons in Hin as [->|Hin]; [done|by apply elem_of_nil in Hin].
    + reflexivity.
    + apply Qltb_lt. reflexivity.
    + discriminate.
    + apply Qltb_lt. reflexivity.
    + lia.
Defined.

(** C3, as stated, fails: with the oncoming check switched on, the
    construction ends in an exception, not in a result handed to the
    caller, both for the neighbour of equal speed and for the crowded lane. *)
Lemma ChangeLane_construction_raises :
  ChangeLane__init__ 5 Scenario.library Scenario.switch_lane true true 0
    Scenario.frame_blocked Scenario.approach true = Raise RuntimeError /\
  ~ returns (ChangeLane__init__ 5 Scenario.library Scenario.switch_lane true true 0
               Scenario.frame_blocked Scenario.approach true) /\
  ChangeLane__init__ 5 Scenario.library Scenario.switch_lane true true 0
    Scenario.frame_crowded Scenario.approach true = Raise AssertionError /\
  ~ returns (ChangeLane__init__ 5 Scenario.library Scenario.switch_lane true true 0
               Scenario.frame_crowded Scenario.approach true).
Proof.
  repeat split; try reflexivity; by intros [ma Hma].
Qed.

(** At rest exactly at the end of the line of the target lanes,
    [t_lane_end] is [nan]: the loop is left with the first length tried. *)
Example find_change_at_rest_line_end :
  find_change_at_rest 1 Scenario.switch_lane [(0, 7, 2)] 0 20 = Done (20, 7).
Proof. reflexivity. Qed.

(** Alone on the road, five units before the end of the lanes, no switch
    length fits either. *)
Example ChangeLane_short_lane :
  ChangeLane__init__ 5 Scenario.library Scenario.switch_lane true true 0
    Scenario.frame_short Scenario.approach true = Raise AssertionError.
Proof. reflexivity. Qed.

(** The intervals of the crowded scenario, and a scenario where waiting
    works: the slower neighbour is passed after 7 time units, 35 units down
    the lane, and a switch over 10 units still fits. *)
Example oncoming_intervals_crowded :
  _get_oncoming_vehicle_intervals Scenario.switch_lane Scenario.approach 0
    Scenario.frame_crowded [0%nat]
    (line_of_lanes Scenario.library Scenario.approach [0%nat])
  = Done [(0, 7, 2)].
Proof. reflexivity. Qed.

Example ChangeLane_waits :
  ChangeLane_get_maneuvers 5 Scenario.library Scenario.switch_lane true true true 0
    Scenario.frame_passing Scenario.approach
  = Done ([Scenario.maneuver_to (35, -3); Scenario.maneuver_to (45, 0)],
          Some Scenario.frame_passing).
Proof. vm_compute. reflexivity. Qed.

(** With the check switched off the blocked scenario is built all the same. *)
Example ChangeLane_unchecked :
  ChangeLane_get_maneuvers 5 Scenario.library Scenario.switch_lane false true true 0
    Scenario.frame_blocked Scenario.approach
  = Done ([Scenario.maneuver_to (30, 0)], Some Scenario.frame_blocked).
Proof. vm_compute. reflexivity. Qed.

(** Built closed loop, as [update_macro_action] does, a lane change has no
    maneuvers and goes through no gap analysis. *)
Example ChangeLane_closed_loop :
  ChangeLane_get_maneuvers 5 Scenario.library Scenario.switch_lane true true false 0
    Scenario.frame_blocked Scenario.approach
  = Done ([], None).
Proof. reflexivity. Qed.

(** * Further properties of the code *)

(** ** The trajectory of a macro action *)

Lemma fold_append_maneuver mans ps vs :
  fold_left append_maneuver mans (Some ps, Some vs)
  = (Some (ps ++ concat (map (fun man => tail (Maneuver.path man)) mans)),
     Some (vs ++ concat (map (fun man => tail (Maneuver.velocity man)) mans))).
Proof.
  revert ps vs. induction mans as [|man mans IH]; intros ps vs; simpl.
  - by rewrite !app_nil_r.
  - unfold append_maneuver at 2. simpl. rewrite IH. by rewrite <- !app_assoc.
Qed.

Lemma length_concat_tails {A B} (f : Maneuver.t -> list A) (g : Maneuver.t -> list B) mans :
  Forall (fun man => List.length (f man) = List.length (g man)) mans ->
  List.length (concat (map (fun man => tail (f man)) mans))
  = List.length (concat (map (fun man => tail (g man)) mans)).
Proof.
  induction 1 as [|man mans Hman _ IH]; simpl; [done|].
  rewrite !length_app, IH. f_equal.
  destruct (f man), (g man); simpl in *; congruence.
Qed.

(** X1. The trajectory of an open-loop macro action with maneuvers
    [man :: rest] is the path of [man] followed by the paths of the others
    without their first points, and the same for the velocities; when every
    maneuver has as many velocities as points, so has the trajectory. *)
Theorem get_trajectory_joins self man rest :
  MacroAction.open_loop self = true ->
  MacroAction._maneuvers self = Some (man :: rest) ->
  exists points velocity,
    get_trajectory self
    = Done (VelocityTrajectory.mk (Some points) (Some velocity)) /\
    points = Maneuver.path man
             ++ concat (map (fun r => tail (Maneuver.path r)) rest) /\
    velocity = Maneuver.velocity man
               ++ concat (map (fun r => tail (Maneuver.velocity r)) rest) /\
    (Forall (fun r => List.length (Maneuver.path r) = List.length (Maneuver.velocity r))
            (man :: rest) ->
     List.length points = List.length velocity).
Proof.
  intros Hopen Hmans. unfold get_trajectory. rewrite Hopen, Hmans. simpl.
  change (append_maneuver (None, None) man)
    with (Some (Maneuver.path man), Some (Maneuver.velocity man)).
  rewrite fold_append_maneuver. simpl.
  eexists _, _. split; [done|]. split; [done|]. split; [done|].
  intros Hall. apply Forall_cons in Hall as [Hman Hrest].
  rewrite !length_app, Hman. f_equal.
  by apply (length_concat_tails Maneuver.path Maneuver.velocity).
Qed.

Lemma get_trajectory_joins_witness :
  exists points velocity,
    get_trajectory Scenario.macro_two_lanes
    = Done (VelocityTrajectory.mk (Some points) (Some velocity)) /\
    points = Maneuver.path Scenario.follow
             ++ concat (map (fun r => tail (Maneuver.path r)) [Scenario.follow_on]) /\
    velocity = Maneuver.velocity Scenario.follow
               ++ concat (map (fun r => tail (Maneuver.velocity r)) [Scenario.follow_on]) /\
    (Forall (fun r => List.length (Maneuver.path r) = List.length (Maneuver.velocity r))
            [Scenario.follow; Scenario.follow_on] ->
     List.length points = List.length velocity).
Proof.
  apply (get_trajectory_joins Scenario.macro_two_lanes Scenario.follow [Scenario.follow_on]);
    reflexivity.
Defined.

(** ** More on the lane walk and on forward projection *)

(** X2. The offset that the lane walk returns never exceeds the length of
    the lane it returns, and it is not negative unless that lane has a
    negative length. *)
Theorem lane_at_distance_offset fuel m lane ds r :
  _lane_at_distance fuel m lane ds = Done r ->
  r.2 <= Lane.length (Map.lane m r.1) /\
  (0 <= Lane.length (Map.lane m r.1) -> 0 <= r.2).
Proof.
  intros Hwalk. apply walk_sound in Hwalk
    as [(n & t & _ & [Hle Hlt] & Hd & _)|(n & t & _ & _ & Hd & _)];
    simpl in *; rewrite Hd; split; intros; lra.
Qed.

Lemma lane_at_distance_offset_witness :
  13 - (0 + 10) <= Lane.length (Map.lane Scenario.two_lanes 1%nat) /\
  (0 <= Lane.length (Map.lane Scenario.two_lanes 1%nat) -> 0 <= 13 - (0 + 10)).
Proof.
  apply (lane_at_distance_offset 2 Scenario.two_lanes 0%nat 13 (1%nat, 13 - (0 + 10))).
  reflexivity.
Defined.

Lemma play_forward_loop_set_ego fuel ego m dur items s nf :
  play_forward_loop fuel ego m dur (dict_set ego s items) nf
  = play_forward_loop fuel ego m dur items nf.
Proof.
  revert nf. induction items as [|[aid agent] items IH]; intros nf; simpl.
  - by rewrite Z.eqb_refl.
  - destruct (decide (aid = ego)) as [->|Hne]; simpl.
    + by rewrite Z.eqb_refl.
    + destruct (Z.eqb_spec aid ego); [done|].
      destruct (Map.best_lane_at m _ _) as [l0|]; [|apply IH].
      destruct (_lane_at_distance fuel m l0 _); simpl; [apply IH|done..].
Qed.

(** X3. Called with a macro action, forward projection does not look at
    the state the frame holds for the ego: writing any state under the ego id
    of the input frame, the outcome is the same. (With no macro action the
    input frame itself comes back.) *)
Theorem play_forward_macro_action_ignores_ego fuel tc ego m frame macro_action s :
  macro_action <> None ->
  play_forward_macro_action fuel tc ego m (dict_set ego s frame) macro_action
  = play_forward_macro_action fuel tc ego m frame macro_action.
Proof.
  intros Hma. destruct macro_action as [ma|]; [|done]. unfold play_forward_macro_action.
  destruct (get_trajectory ma); simpl; [|done..]. apply play_forward_loop_set_ego.
Qed.

Lemma play_forward_macro_action_ignores_ego_witness :
  play_forward_macro_action 3 Scenario.trajectory_class 0 Scenario.two_lanes
    (dict_set 0%Z (Scenario.agent 7 0 9) Scenario.frame) (Some Scenario.macro_two_lanes)
  = play_forward_macro_action 3 Scenario.trajectory_class 0 Scenario.two_lanes
      Scenario.frame (Some Scenario.macro_two_lanes).
Proof.
  apply (play_forward_macro_action_ignores_ego 3 Scenario.trajectory_class 0
           Scenario.two_lanes Scenario.frame (Some Scenario.macro_two_lanes)).
  discriminate.
Defined.

(** X4. Forward projection changes nothing but position and heading of
    another agent: every state of the new frame under an id other than the
    ego's has the time, velocity, acceleration and speed that the input
    frame holds under that id. *)
Theorem play_forward_macro_action_keeps_kinematics
    fuel tc ego m frame ma new_frame aid state' :
  NoDup (dict_keys frame) ->
  play_forward_macro_action fuel tc ego m frame (Some ma) = Done new_frame ->
  aid <> ego ->
  dict_get aid new_frame = Some state' ->
  exists state,
    dict_get aid frame = Some state /\
    AgentState.time state' = AgentState.time state /\
    AgentState.velocity state' = AgentState.velocity state /\
    AgentState.acceleration state' = AgentState.acceleration state /\
    AgentState.speed state' = AgentState.speed state.
Proof.
  intros Hnd Hpf Hne Hget.
  destruct (play_forward_inv _ _ _ _ _ _ _ Hpf) as (trajectory & Htr & _).
  destruct (dict_get aid frame) as [state|] eqn:Hin.
  2:{ rewrite (play_forward_absent _ _ _ _ _ _ _ _ Hpf Hne Hin) in Hget. done. }
  destruct (Map.best_lane_at m (AgentState.position state) (AgentState.heading state))
    as [l0|] eqn:Hlane.
  2:{ rewrite (play_forward_no_lane _ _ _ _ _ _ _ _ _ Hnd Hpf Hne Hin Hlane) in Hget. done. }
  destruct (play_forward_lane _ _ _ _ _ _ _ _ _ _ _ Hnd Htr Hpf Hne Hin Hlane)
    as (r & _ & Hr).
  rewrite Hr in Hget. injection Hget as <-. by exists state.
Qed.

Lemma play_forward_macro_action_keeps_kinematics_witness :
  exists state,
    dict_get 1%Z Scenario.frame = Some state /\
    AgentState.time (Scenario.agent 13 0 2) = AgentState.time state /\
    AgentState.velocity (Scenario.agent 13 0 2) = AgentState.velocity state /\
    AgentState.acceleration (Scenario.agent 13 0 2) = AgentState.acceleration state /\
    AgentState.speed (Scenario.agent 13 0 2) = AgentState.speed state.
Proof.
  apply (play_forward_macro_action_keeps_kinematics 3 Scenario.trajectory_class 0
           Scenario.two_lanes Scenario.frame Scenario.macro_two_lanes
           [ (0%Z, Scenario.agent 4 0 1); (1%Z, Scenario.agent 13 0 2) ] 1%Z).
  - apply (bool_decide_unpack _). vm_compute. exact I.
  - vm_compute. reflexivity.
  - discriminate.
  - reflexivity.
Defined.

Lemma dict_set_fresh {K A} `{EqDecision K} (k : K) (v : A) d :
  k ∉ dict_keys d -> dict_set k v d = d ++ [(k, v)].
Proof.
  unfold dict_keys. induction d as [|[k' v'] d IH]; simpl; [done|].
  intros Hk. apply not_elem_of_cons in Hk as [Hne Hk].
  rewrite decide_False by done. by rewrite IH.
Qed.

Lemma dict_set_keys {K A} `{EqDecision K} (k : K) (v : A) d :
  k ∈ dict_keys d -> dict_keys (dict_set k v d) = dict_keys d.
Proof.
  unfold dict_keys. induction d as [|[k' v'] d IH]; simpl.
  - intros Hk. by apply elem_of_nil in Hk.
  - intros Hk. destruct (decide (k' = k)) as [->|Hne]; [done|]. simpl.
    apply elem_of_cons in Hk as [->|Hk]; [done|]. f_equal. by apply IH.
Qed.

Lemma play_forward_loop_keys fuel ego m dur items nf f' :
  NoDup (dict_keys items) ->
  (forall k, k ∈ dict_keys items -> k <> ego -> k ∉ dict_keys nf) ->
  play_forward_loop fuel ego m dur items nf = Done f' ->
  dict_keys f' = dict_keys nf ++ dict_keys (filter (projected ego m) items).
Proof.
  revert nf. induction items as [|[aid agent] items IH]; intros nf Hnd Hfresh; simpl.
  - intros [= <-]. by rewrite app_nil_r.
  - unfold dict_keys in Hnd. simpl in Hnd. apply NoDup_cons in Hnd as [Haid Hnd].
    assert (Hrest : forall k, k ∈ dict_keys items -> k <> ego -> k ∉ dict_keys nf).
    { intros k Hk. apply Hfresh. unfold dict_keys in *. simpl. by apply elem_of_cons; right. }
    destruct (Z.eqb_spec aid ego) as [Heq|Hne].
    { intros Hloop. rewrite filter_cons_False; [by apply IH|].
      intros [Hp _]. done. }
    destruct (Map.best_lane_at m _ _) as [l0|] eqn:Hlane.
    2:{ intros Hloop. rewrite filter_cons_False; [by apply IH|].
        intros [_ [l Hl]]. simpl in Hl. congruence. }
    destruct (_lane_at_distance fuel m l0 _) as [r| |]; simpl; [|done..].
    intros Hloop. rewrite filter_cons_True.
    2:{ split; [done|]. simpl. by rewrite Hlane. }
    assert (Hnew : aid ∉ dict_keys nf).
    { apply Hfresh; [|done]. unfold dict_keys. simpl. by apply elem_of_cons; left. }
    apply IH in Hloop; [|done|].
    + rewrite Hloop, dict_set_fresh by done. unfold dict_keys.
      rewrite fmap_app, <- app_assoc. done.
    + intros k Hk Hkego. rewrite dict_set_fresh by done. unfold dict_keys.
      rewrite fmap_app. simpl. intros Hin. apply elem_of_app in Hin as [Hin|Hin].
      * by apply (Hrest k).
      * apply list_elem_of_singleton in Hin. subst k. done.
Qed.

(** X5. The ids of the frame that forward projection returns when it is
    called with a macro action come in this order: the ego first, then the
    other agents that are on a lane, in the order of the input frame. *)
Theorem play_forward_macro_action_order fuel tc ego m frame ma new_frame :
  NoDup (dict_keys frame) ->
  play_forward_macro_action fuel tc ego m frame (Some ma) = Done new_frame ->
  dict_keys new_frame = ego :: dict_keys (filter (projected ego m) frame).
Proof.
  intros Hnd Hpf. apply play_forward_inv in Hpf as (tr & _ & Hloop).
  apply play_forward_loop_keys in Hloop; [done|done|].
  intros k _ Hk. unfold dict_keys. simpl. intros Hin.
  apply list_elem_of_singleton in Hin. done.
Qed.

Lemma play_forward_macro_action_order_witness :
  dict_keys [ (0%Z, Scenario.agent 4 0 1); (1%Z, Scenario.agent 13 0 2) ]
  = 0%Z :: dict_keys (filter (projected 0 Scenario.two_lanes) Scenario.frame_reordered).
Proof.
  apply (play_forward_macro_action_order 3 Scenario.trajectory_class 0
           Scenario.two_lanes Scenario.frame_reordered Scenario.macro_two_lanes).
  - apply (bool_decide_unpack _). vm_compute. exact I.
  - vm_compute. reflexivity.
Defined.

Lemma walk_raises fuel m l t ds e :
  _lane_at_distance_loop fuel m l t ds = Raise e ->
  e = IndexError /\
  exists n x, chain_at m l t n = Some x /\ Lane.successor (Map.lane m x.1) = Some [].
Proof.
  revert l t. induction fuel as [|fuel IH]; intros l t; simpl; [done|].
  destruct (Qle_bool t ds && Qltb ds (t + Lane.length (Map.lane m l))); [done|].
  destruct (Lane.successor (Map.lane m l)) as [[|s ss]|] eqn:Hsucc; [| |done].
  - intros [= <-]. split; [done|]. by exists 0%nat, (l, t).
  - intros Hrec. apply IH in Hrec as (-> & n & x & Hch & Hx). split; [done|].
    exists (S n), x. simpl. by rewrite Hsucc.
Qed.

Lemma play_forward_loop_raises fuel ego m dur items nf e :
  play_forward_loop fuel ego m dur items nf = Raise e ->
  e = IndexError /\
  exists aid agent l0 n x,
    (aid, agent) ∈ items /\ aid <> ego /\
    Map.best_lane_at m (AgentState.position agent) (AgentState.heading agent) = Some l0 /\
    chain_at m l0 0 n = Some x /\ Lane.successor (Map.lane m x.1) = Some [].
Proof.
  revert nf. induction items as [|[aid agent] items IH]; intros nf; simpl; [done|].
  assert (Hlift : forall nf', play_forward_loop fuel ego m dur items nf' = Raise e ->
    e = IndexError /\
    exists aid0 agent0 l0 n x,
      (aid0, agent0) ∈ (aid, agent) :: items /\ aid0 <> ego /\
      Map.best_lane_at m (AgentState.position agent0) (AgentState.heading agent0) = Some l0 /\
      chain_at m l0 0 n = Some x /\ Lane.successor (Map.lane m x.1) = Some []).
  { intros nf' Hrec. apply IH in Hrec as (-> & aid0 & agent0 & l0 & n & x & Hin & ?).
    split; [done|]. exists aid0, agent0, l0, n, x. split; [|done].
    by apply elem_of_cons; right. }
  destruct (Z.eqb_spec aid ego) as [Heq|Hne]; [apply Hlift|].
  destruct (Map.best_lane_at m _ _) as [l0|] eqn:Hlane; [|apply Hlift].
  unfold _lane_at_distance.
  destruct (_lane_at_distance_loop fuel m l0 0 _) as [r|e'|] eqn:Hw; simpl;
    [apply Hlift| |done].
  intros [= <-]. apply walk_raises in Hw as (-> & n & x & Hch & Hx). split; [done|].
  exists aid, agent, l0, n, x. split; [by apply elem_of_cons; left|done].
Qed.

(** X6. Forward projection raises only two exceptions: [ValueError], when
    the macro action is closed loop or has no maneuver list, and
    [IndexError], when the chain of first successors that starts at the lane
    of an agent other than the ego reaches a lane whose successor list is
    empty. *)
Theorem play_forward_macro_action_raises fuel tc ego m frame ma e :
  play_forward_macro_action fuel tc ego m frame (Some ma) = Raise e ->
  (e = ValueError /\
   (MacroAction.open_loop ma = false \/ MacroAction._maneuvers ma = None)) \/
  (e = IndexError /\
   exists aid agent l0 n x,
     (aid, agent) ∈ frame /\ aid <> ego /\
     Map.best_lane_at m (AgentState.position agent) (AgentState.heading agent) = Some l0 /\
     chain_at m l0 0 n = Some x /\ Lane.successor (Map.lane m x.1) = Some []).
Proof.
  unfold play_forward_macro_action.
  destruct (get_trajectory ma) as [tr|e'|] eqn:Htr; simpl; [| |done].
  - intros Hloop. right. by apply play_forward_loop_raises in Hloop.
  - intros [= <-]. left. unfold get_trajectory in Htr.
    destruct (MacroAction.open_loop ma); simpl in Htr.
    + destruct (MacroAction._maneuvers ma); [done|]. injection Htr as <-. by split; [|right].
    + injection Htr as <-. by split; [|left].
Qed.

Lemma play_forward_macro_action_raises_witness :
  (ValueError = ValueError /\
   (MacroAction.open_loop (Scenario.macro false Scenario.dead_end [Scenario.follow]) = false \/
    MacroAction._maneuvers (Scenario.macro false Scenario.dead_end [Scenario.follow]) = None)) \/
  (ValueError = IndexError /\
   exists aid agent l0 n x,
     (aid, agent) ∈ Scenario.frame /\ aid <> 0%Z /\
     Map.best_lane_at Scenario.dead_end (AgentState.position agent) (AgentState.heading agent)
     = Some l0 /\
     chain_at Scenario.dead_end l0 0 n = Some x /\
     Lane.successor (Map.lane Scenario.dead_end x.1) = Some []).
Proof.
  apply (play_forward_macro_action_raises 3 Scenario.trajectory_class 0 Scenario.dead_end
           Scenario.frame (Scenario.macro false Scenario.dead_end [Scenario.follow])
           ValueError).
  reflexivity.
Defined.

(** ** Completion of a macro action *)

(** X7. A constructed macro action never reports that it is done, however
    many times [next_action] has been called on it: [done] returns [False]
    while the maneuver list is not empty, and raises [AttributeError] when it
    is empty. *)
Theorem macro_action_never_done get_maneuvers agent_id frame m open_loop ma :
  MacroAction__init__ get_maneuvers agent_id frame m open_loop = Done ma ->
  forall calls frame' m',
    MacroAction_done (next_actions ma calls) frame' m' <> Done true /\
    exists maneuvers,
      MacroAction._maneuvers ma = Some maneuvers /\
      MacroAction_done (next_actions ma calls) frame' m'
      = match maneuvers with
        | [] => Raise AttributeError
        | _ :: _ => Done false
        end.
Proof.
  unfold MacroAction__init__.
  destruct (get_maneuvers open_loop agent_id frame m) as [r| |]; simpl; [|done..].
  intros [= <-] calls frame' m'.
  rewrite next_actions_without_current_maneuver by done.
  unfold MacroAction_done. simpl. destruct r.1 as [|man rest]; simpl.
  - split; [done|]. by exists [].
  - split; [done|]. by exists (man :: rest).
Qed.

Lemma macro_action_never_done_witness :
  MacroAction_done
    (next_actions Scenario.constructed [(Scenario.frame, Scenario.dead_end)])
    Scenario.frame Scenario.dead_end <> Done true /\
  exists maneuvers,
    MacroAction._maneuvers Scenario.constructed = Some maneuvers /\
    MacroAction_done
      (next_actions Scenario.constructed [(Scenario.frame, Scenario.dead_end)])
      Scenario.frame Scenario.dead_end
    = match maneuvers with
      | [] => Raise AttributeError
      | _ :: _ => Done false
      end.
Proof.
  apply (macro_action_never_done Scenario.get_maneuvers 0 Scenario.frame
           Scenario.dead_end false Scenario.constructed).
  reflexivity.
Defined.

(** ** Children of a search node *)

Lemma dict_set_length {K A} `{EqDecision K} (k : K) (v : A) d :
  List.length (dict_set k v d)
  = if decide (k ∈ dict_keys d) then List.length d else S (List.length d).
Proof.
  destruct (decide (k ∈ dict_keys d)) as [Hin|Hout].
  - assert (H1 := dict_set_keys k v d Hin). unfold dict_keys in H1.
    apply (f_equal (@List.length K)) in H1. by rewrite !length_fmap in H1.
  - rewrite dict_set_fresh by done. rewrite length_app. simpl. lia.
Qed.

Lemma dict_set_elem {K A} `{EqDecision K} (k : K) (v : A) d e :
  e ∈ dict_set k v d -> e = (k, v) \/ e ∈ d.
Proof.
  induction d as [|[k' v'] d IH]; simpl.
  - intros He. apply list_elem_of_singleton in He. by left.
  - destruct (decide (k' = k)) as [->|Hne]; intros He;
      apply elem_of_cons in He as [->|He].
    + by left.
    + right. by apply elem_of_cons; right.
    + right. by apply elem_of_cons; left.
    + apply IH in He as [->|He]; [by left|]. right. by apply elem_of_cons; right.
Qed.

Lemma dict_set_NoDup {K A} `{EqDecision K} (k : K) (v : A) d :
  NoDup (dict_keys d) -> NoDup (dict_keys (dict_set k v d)).
Proof.
  intros Hnd. destruct (decide (k ∈ dict_keys d)) as [Hin|Hout].
  - by rewrite dict_set_keys.
  - rewrite dict_set_fresh by done. unfold dict_keys in *. rewrite fmap_app. simpl.
    apply NoDup_app. split; [done|]. split; [|apply NoDup_singleton].
    intros x Hx Hx'. apply list_elem_of_singleton in Hx'. by subst.
Qed.

(** X8. After [add_child] the child is found under its own key, taking the
    place of an earlier child with that key; the children under other keys
    are as before; the node is no leaf; and there is one more child exactly
    when the key was new. *)
Theorem node_add_child_lookup self child :
  let node := Node.add_child self child in
  dict_get (Node._key child) (Node._children node) = Some child /\
  (forall k, k <> Node._key child ->
     dict_get k (Node._children node) = dict_get k (Node._children self)) /\
  Node.is_leaf node = false /\
  List.length (Node._children node)
  = (if decide (Node._key child ∈ dict_keys (Node._children self))
     then List.length (Node._children self)
     else S (List.length (Node._children self))).
Proof.
  simpl. split; [apply dict_get_set_eq|]. split.
  { intros k Hk. by apply dict_get_set_ne. }
  split; [|apply dict_set_length].
  unfold Node.is_leaf. simpl. apply bool_decide_eq_false.
  rewrite dict_set_length. destruct (decide _) as [Hin|]; [|done].
  unfold dict_keys in Hin. destruct (Node._children self); [|done].
  by apply elem_of_nil in Hin.
Qed.

(** X9. Whatever calls are made on a node after its construction, the key
    of the node is a tuple, no two children share a key and every child is
    stored under its own key. *)
Theorem node_children_keyed allowed n :
  Node.built allowed n ->
  is_tuple (Node._key n) = true /\ keyed_children n.
Proof.
  induction 1 as [allowed key state actions n Hinit|allowed c n n' _ IH _ Hrun].
  - unfold Node.__init__ in Hinit.
    destruct (bool_decide (key = PyNone)); simpl in Hinit; [done|].
    destruct (is_tuple key) eqn:Hkey; simpl in Hinit; [|done].
    injection Hinit as <-. simpl. split; [done|]. split; [apply NoDup_nil_2|].
    intros k child Hin. by apply elem_of_nil in Hin.
  - destruct IH as (Hkey & Hnd & Hkeys).
    destruct c as [|child|value|value]; simpl in Hrun.
    + unfold Node.expand in Hrun. destruct (Node._actions n); [|done].
      by injection Hrun as <-.
    + injection Hrun as <-. split; [done|]. split; simpl.
      * by apply dict_set_NoDup.
      * intros k c Hin. apply dict_set_elem in Hin as [[= -> ->]|Hin]; [done|].
        by apply Hkeys.
    + by injection Hrun as <-.
    + by injection Hrun as <-.
Qed.

Lemma node_children_keyed_witness :
  Node._children MoreScenarios.family
  = [ (PyTuple [PyStr "Root"; PyStr "a"], MoreScenarios.child_a');
      (PyTuple [PyStr "Root"; PyStr "b"], MoreScenarios.child_b) ] /\
  is_tuple (Node._key MoreScenarios.family) = true /\
  keyed_children MoreScenarios.family.
Proof.
  split; [reflexivity|].
  apply (node_children_keyed (fun _ _ => True)).
  apply (Node.built_call _ (Node.AddChild MoreScenarios.child_a')
           (Node.add_child (Node.add_child Scenario.root_expanded MoreScenarios.child_a)
              MoreScenarios.child_b)); [|exact I|reflexivity].
  apply (Node.built_call _ (Node.AddChild MoreScenarios.child_b)
           (Node.add_child Scenario.root_expanded MoreScenarios.child_a));
    [|exact I|reflexivity].
  apply (Node.built_call _ (Node.AddChild MoreScenarios.child_a) Scenario.root_expanded);
    [|exact I|reflexivity].
  apply (Node.built_call _ Node.Expand Scenario.root); [|exact I|reflexivity].
  by apply (Node.built_init _ (PyTuple [PyStr "Root"]) Scenario.frame
              (Some [Scenario.macro_dead_end; Scenario.macro_two_lanes])).
Defined.

(** X10. [expand] overwrites the two arrays whatever they held and changes
    nothing else: expanding a node again, also after an assignment to
    [q_values], gives the node of the first expansion, with the same children
    and the same visit count. *)
Theorem node_expand_resets n n' :
  Node.expand n = Done n' ->
  Node.expand n' = Done n' /\
  (forall value, Node.expand (Node.set_q_values n' value) = Done n') /\
  Node._children n' = Node._children n /\
  Node._state_visits n' = Node._state_visits n /\
  Node._key n' = Node._key n /\ Node._state n' = Node._state n /\
  Node._actions n' = Node._actions n.
Proof.
  unfold Node.expand. destruct (Node._actions n) as [actions|] eqn:Hact; [|done].
  intros [= <-]. simpl. done.
Qed.

Lemma node_expand_resets_witness :
  Node.expand Scenario.root_expanded = Done Scenario.root_expanded /\
  (forall value,
     Node.expand (Node.set_q_values Scenario.root_expanded value)
     = Done Scenario.root_expanded) /\
  Node._children Scenario.root_expanded = Node._children Scenario.root /\
  Node._state_visits Scenario.root_expanded = Node._state_visits Scenario.root /\
  Node._key Scenario.root_expanded = Node._key Scenario.root /\
  Node._state Scenario.root_expanded = Node._state Scenario.root /\
  Node._actions Scenario.root_expanded = Node._actions Scenario.root.
Proof.
  apply (node_expand_resets Scenario.root Scenario.root_expanded). reflexivity.
Defined.

(** ** More on the gap analysis of a lane change *)

Lemma Qltb_ge x y : Qltb x y = false <-> y <= x.
Proof.
  unfold Qltb. rewrite negb_false_iff. apply Qle_bool_iff.
Qed.

(** X11. When the ego is in the start frame, the search for oncoming
    vehicles raises [RuntimeError] exactly when the frame holds a neighbour
    on the target lanes that has the speed of the ego and is closer than the
    minimum switch length; it raises nothing else. *)
Theorem oncoming_intervals_raise_iff sl m agent_id frame seq midline state :
  dict_get agent_id frame = Some state ->
  (_get_oncoming_vehicle_intervals sl m agent_id frame seq midline = Raise RuntimeError
   <-> exists entry, entry ∈ frame /\ blocks sl m agent_id state seq midline entry) /\
  (forall e, _get_oncoming_vehicle_intervals sl m agent_id frame seq midline = Raise e ->
             e = RuntimeError) /\
  terminates (_get_oncoming_vehicle_intervals sl m agent_id frame seq midline).
Proof.
  intros Hstate. unfold _get_oncoming_vehicle_intervals. rewrite Hstate.
  destruct (oncoming_loop sl m agent_id state seq midline frame []) as [ivs|e|] eqn:Hloop;
    simpl.
  - split; [|done]. split; [done|]. intros Hb.
    by rewrite (oncoming_loop_blocked _ _ _ _ _ _ _ _ Hb) in Hloop.
  - apply oncoming_loop_raises in Hloop as (-> & Hb). split; [done|]. split; [|done].
    by intros e [= <-].
  - by destruct (oncoming_loop_outcome sl m agent_id state seq midline frame [])
      as [[ivs Hd]|Hr]; rewrite Hloop in *.
Qed.

Lemma oncoming_intervals_raise_iff_witness :
  (_get_oncoming_vehicle_intervals Scenario.switch_lane Scenario.approach 0
     Scenario.frame_blocked [0%nat] (line_of_lanes Scenario.library Scenario.approach [0%nat])
   = Raise RuntimeError
   <-> exists entry, entry ∈ Scenario.frame_blocked /\
         blocks Scenario.switch_lane Scenario.approach 0 (Scenario.agent 10 (-3) 5) [0%nat]
           (line_of_lanes Scenario.library Scenario.approach [0%nat]) entry) /\
  (forall e, _get_oncoming_vehicle_intervals Scenario.switch_lane Scenario.approach 0
               Scenario.frame_blocked [0%nat]
               (line_of_lanes Scenario.library Scenario.approach [0%nat]) = Raise e ->
             e = RuntimeError) /\
  terminates (_get_oncoming_vehicle_intervals Scenario.switch_lane Scenario.approach 0
                Scenario.frame_blocked [0%nat]
                (line_of_lanes Scenario.library Scenario.approach [0%nat])).
Proof.
  apply (oncoming_intervals_raise_iff Scenario.switch_lane Scenario.approach 0
           Scenario.frame_blocked [0%nat]
           (line_of_lanes Scenario.library Scenario.approach [0%nat])
           (Scenario.agent 10 (-3) 5)).
  reflexivity.
Defined.

Lemma insert_interval_perm x l : insert_interval x l ≡ₚ x :: l.
Proof.
  induction l as [|y l IH]; simpl; [done|].
  destruct (Qltb x.1.1 y.1.1); [done|]. rewrite IH. apply Permutation_swap.
Qed.

Lemma insert_interval_sorted x l :
  starts_ascending l -> starts_ascending (insert_interval x l).
Proof.
  unfold starts_ascending. induction 1 as [|y l Hl IH Hy]; simpl.
  - apply SSorted_cons; [apply SSorted_nil|apply Forall_nil_2].
  - destruct (Qltb x.1.1 y.1.1) eqn:Hlt.
    + apply Qltb_lt in Hlt. apply SSorted_cons; [by apply SSorted_cons|].
      apply Forall_cons. split; [lra|].
      eapply Forall_impl; [exact Hy|]. simpl. intros z Hz. lra.
    + apply Qltb_ge in Hlt. apply SSorted_cons; [done|].
      rewrite insert_interval_perm. by apply Forall_cons.
Qed.

Lemma sorted_by_start_spec l :
  starts_ascending (sorted_by_start l) /\ sorted_by_start l ≡ₚ l.
Proof.
  unfold sorted_by_start.
  assert (H : forall acc, starts_ascending acc ->
    starts_ascending (fold_left (fun acc x => insert_interval x acc) l acc) /\
    fold_left (fun acc x => insert_interval x acc) l acc ≡ₚ acc ++ l).
  { induction l as [|x l IH]; intros acc Hacc; simpl.
    - by rewrite app_nil_r.
    - destruct (IH (insert_interval x acc)) as [Hs Hp]; [by apply insert_interval_sorted|].
      split; [done|]. rewrite Hp, insert_interval_perm.
      simpl. apply Permutation_middle. }
  destruct (H []) as [Hs Hp]; [apply SSorted_nil|]. done.
Qed.

Lemma oncoming_loop_ok sl m agent_id state seq midline items acc ivs :
  Forall interval_ok acc ->
  oncoming_loop sl m agent_id state seq midline items acc = Done ivs ->
  Forall interval_ok ivs.
Proof.
  revert acc. induction items as [|[aid agent] items IH]; intros acc Hacc;
    cbn [oncoming_loop].
  - by intros [= <-].
  - destruct (Z.eqb agent_id aid); [by apply IH|].
    destruct (on_lane_sequence m seq agent); [|by apply IH].
    destruct (isclose _ 0).
    + destruct (Qltb _ (MIN_SWITCH_LENGTH sl)); [done|by apply IH].
    + set (pass_time := Qabs _). set (time_until_pass := _ / _).
      assert (Habs : 0 <= pass_time) by apply Qabs_nonneg.
      destruct (Qltb 0 _) eqn:Hend; [|by apply IH].
      apply IH. apply Forall_app. split; [done|]. apply Forall_singleton.
      apply Qltb_lt in Hend. unfold interval_ok, py_max0. cbn [fst snd].
      destruct (Qltb 0 _) eqn:Hstart.
      * apply Qltb_lt in Hstart. repeat split; lra.
      * repeat split; lra.
Qed.

Lemma oncoming_intervals_inv sl m agent_id frame seq midline intervals :
  _get_oncoming_vehicle_intervals sl m agent_id frame seq midline = Done intervals ->
  exists collected, intervals = sorted_by_start collected /\ Forall interval_ok collected.
Proof.
  unfold _get_oncoming_vehicle_intervals.
  destruct (dict_get agent_id frame) as [state|]; [|done].
  destruct (oncoming_loop sl m agent_id state seq midline frame []) as [ivs| |] eqn:Hloop;
    simpl; [|done..].
  intros [= <-]. exists ivs. split; [done|]. by eapply oncoming_loop_ok.
Qed.

(** X12. The intervals that the search for oncoming vehicles returns come
    by ascending start time, and each of them starts at a time that is not
    negative and ends later, after time 0. *)
Theorem oncoming_intervals_sorted sl m agent_id frame seq midline intervals :
  _get_oncoming_vehicle_intervals sl m agent_id frame seq midline = Done intervals ->
  starts_ascending intervals /\ Forall interval_ok intervals.
Proof.
  intros (collected & -> & Hok)%oncoming_intervals_inv.
  destruct (sorted_by_start_spec collected) as [Hs Hp]. split; [done|]. by rewrite Hp.
Qed.

Lemma oncoming_intervals_sorted_witness :
  starts_ascending [(0, 7, 2)] /\ Forall interval_ok [(0, 7, 2)].
Proof.
  apply (oncoming_intervals_sorted Scenario.switch_lane Scenario.approach 0
           Scenario.frame_crowded [0%nat]
           (line_of_lanes Scenario.library Scenario.approach [0%nat])).
  reflexivity.
Defined.

Lemma clear_of_preserved d_change t_change p ivs t0 :
  Forall (fun iv : Q * Q * Q => p.1.1 <= iv.1.1) ivs ->
  clear_of d_change t0 t_change p ->
  clear_of d_change
    (fold_left
       (fun t_start (iv : Q * Q * Q) =>
          if Qltb (Qabs iv.2) d_change && Qltb t_start iv.1.2
             && Qltb iv.1.1 (t_start + t_change)
          then iv.1.2 else t_start) ivs t0)
    t_change p.
Proof.
  intros Hall. revert t0. induction Hall as [|x l Hx _ IH]; intros t0 Hp; [done|].
  simpl. apply IH. intros Hnear. specialize (Hp Hnear).
  destruct (Qltb (Qabs x.2) d_change && Qltb t0 x.1.2 && Qltb x.1.1 (t0 + t_change))
    eqn:Htest; [|done].
  apply andb_prop in Htest as [Htest Hstart]. apply andb_prop in Htest as [_ Hend].
  apply Qltb_lt in Hstart, Hend. destruct Hp as [Hp|Hp]; [left|right]; lra.
Qed.

Lemma first_free_time_loop_clear d_change t_change ivs t0 :
  starts_ascending ivs ->
  Forall (clear_of d_change
            (fold_left
               (fun t_start (iv : Q * Q * Q) =>
                  if Qltb (Qabs iv.2) d_change && Qltb t_start iv.1.2
                     && Qltb iv.1.1 (t_start + t_change)
                  then iv.1.2 else t_start) ivs t0)
            t_change) ivs.
Proof.
  intros Hs. revert t0. induction Hs as [|x l Hl IH Hx]; intros t0; [done|].
  simpl. apply Forall_cons. split; [|apply IH].
  apply clear_of_preserved; [done|]. intros Hnear. apply Qltb_lt in Hnear.
  rewrite Hnear. simpl.
  destruct (Qltb t0 x.1.2) eqn:Hend; simpl.
  - destruct (Qltb x.1.1 (t0 + t_change)) eqn:Hstart.
    + left. lra.
    + right. by apply Qltb_ge.
  - left. by apply Qltb_ge.
Qed.

Lemma first_free_time_loop_nonneg d_change t_change ivs t0 :
  Forall interval_ok ivs -> 0 <= t0 ->
  0 <= fold_left
         (fun t_start (iv : Q * Q * Q) =>
            if Qltb (Qabs iv.2) d_change && Qltb t_start iv.1.2
               && Qltb iv.1.1 (t_start + t_change)
            then iv.1.2 else t_start) ivs t0.
Proof.
  intros Hall. revert t0. induction Hall as [|x l Hx _ IH]; intros t0 Ht0; [done|].
  simpl. apply IH. destruct (_ && _); [|done]. destruct Hx as (_ & _ & Hx). lra.
Qed.

(** X13. The start time that the gap search works out for a change of
    length [d_change] lasting [t_change] is not negative, and the change
    started then meets none of the intervals returned by the search for
    oncoming vehicles whose vehicle is closer than [d_change]: each such
    interval is over by the start, or begins once the change has ended. *)
Theorem first_free_time_clear sl m agent_id frame seq midline intervals
    d_change t_change :
  _get_oncoming_vehicle_intervals sl m agent_id frame seq midline = Done intervals ->
  0 <= first_free_time intervals d_change t_change /\
  Forall (clear_of d_change (first_free_time intervals d_change t_change) t_change)
         intervals.
Proof.
  intros (collected & -> & Hok)%oncoming_intervals_inv.
  destruct (sorted_by_start_spec collected) as [Hs Hp]. unfold first_free_time. split.
  - apply first_free_time_loop_nonneg; [by rewrite Hp|done].
  - by apply first_free_time_loop_clear.
Qed.

Lemma first_free_time_clear_witness :
  0 <= first_free_time [(0, 7, 2)] 10 2 /\
  Forall (clear_of 10 (first_free_time [(0, 7, 2)] 10 2) 2) [(0, 7, 2)].
Proof.
  apply (first_free_time_clear Scenario.switch_lane Scenario.approach 0
           Scenario.frame_crowded [0%nat]
           (line_of_lanes Scenario.library Scenario.approach [0%nat])).
  reflexivity.
Defined.



(** ** The target lanes of a lane change *)




Lemma get_lane_sequence_loop_progress left m threshold eps :
  0 < eps -> (forall x, eps <= Lane.length (Map.lane m x)) ->
  forall k current distance ls,
    threshold - distance < inject_Z (Z.of_nat k) * eps ->
    forall fuel, (k < fuel)%nat ->
      returns (_get_lane_sequence_loop fuel left m current distance threshold ls).
Proof.
  intros Heps Hlen. induction k as [|k IH]; intros current distance ls Hk fuel Hfuel;
    (destruct fuel as [|fuel]; [lia|]); simpl;
    (destruct current as [lane|]; [|by eexists]);
    destruct (Qle_bool distance threshold) eqn:Hle; try by eexists.
  - change (inject_Z (Z.of_nat 0)) with 0 in Hk. apply Qle_bool_iff in Hle. lra.
  - destruct (_get_target_lane left m lane) as [target_lane|]; [|by eexists].
    destruct (Z.eqb _ 0); [by eexists|].
    apply IH; [|lia]. specialize (Hlen lane).
    rewrite Nat2Z.inj_succ, <- Z.add_1_r, inject_Z_plus in Hk.
    change (inject_Z 1) with 1 in Hk. lra.
Qed.

(** X16. On a map whose lanes are all at least [eps > 0] long the loop of
    [_get_lane_sequence] comes to an end: with [k] rounds for a threshold
    less than [k * eps] ahead of the start of the current lane, it returns a
    lane sequence and raises nothing. *)
Theorem get_lane_sequence_returns left state m current_lane threshold eps k fuel :
  0 < eps -> (forall x, eps <= Lane.length (Map.lane m x)) ->
  threshold + Lane.distance_at (Map.lane m current_lane) (AgentState.position state)
  < inject_Z (Z.of_nat k) * eps ->
  (k < fuel)%nat ->
  returns (_get_lane_sequence fuel left state m current_lane threshold).
Proof.
  intros Heps Hlen Hk Hfuel. unfold _get_lane_sequence.
  eapply get_lane_sequence_loop_progress; eauto. lra.
Qed.

Lemma get_lane_sequence_returns_witness :
  returns (_get_lane_sequence 5 true (Scenario.agent 10 (-3) 5) Scenario.approach
             1%nat 20).
Proof.
  apply (get_lane_sequence_returns true (Scenario.agent 10 (-3) 5) Scenario.approach
           1%nat 20 20 2 5).
  - reflexivity.
  - intros [|[|[|[|x]]]]; apply Qle_bool_iff; reflexivity.
  - reflexivity.
  - lia.
Defined.

(** X17. When the lane of the ego has no lane to change to on the side of
    the change, the maneuvers of a lane change cannot be built: the call
    raises [IndexError], open loop and closed loop alike, with the oncoming
    check switched on or off, and so does the constructor. *)
Theorem ChangeLane_no_target_lane
    fuel lib sl check left open_loop agent_id frame m state current_lane :
  dict_get agent_id frame = Some state ->
  Map.best_lane_at m (AgentState.position state) (AgentState.heading state)
  = Some current_lane ->
  no_target_lane left m current_lane ->
  (0 < fuel)%nat ->
  ChangeLane_get_maneuvers fuel lib sl check left open_loop agent_id frame m
  = Raise IndexError /\
  ChangeLane__init__ fuel lib sl check left agent_id frame m open_loop
  = Raise IndexError.
Proof.
  intros Hstate Hlane Hno Hfuel.
  assert (Hget : ChangeLane_get_maneuvers fuel lib sl check left open_loop agent_id frame m
                 = Raise IndexError).
  { unfold ChangeLane_get_maneuvers. rewrite Hstate, Hlane.
    assert (Hseq : _get_lane_sequence fuel left state m current_lane
                     (TARGET_SWITCH_LENGTH sl) = Done []).
    { destruct fuel as [|fuel]; [lia|]. unfold _get_lane_sequence. simpl.
      destruct (Qle_bool _ _); [|done]. unfold no_target_lane in Hno.
      destruct (_get_target_lane left m current_lane) as [target_lane|]; [|done].
      by rewrite Hno. }
    by rewrite Hseq. }
  split; [done|]. unfold ChangeLane__init__, MacroAction__init__. by rewrite Hget.
Qed.

Lemma ChangeLane_no_target_lane_witness :
  ChangeLane_get_maneuvers 5 Scenario.library Scenario.switch_lane false false false 0
    Scenario.frame_short Scenario.approach = Raise IndexError /\
  ChangeLane__init__ 5 Scenario.library Scenario.switch_lane false false 0
    Scenario.frame_short Scenario.approach false = Raise IndexError.
Proof.
  apply (ChangeLane_no_target_lane 5 Scenario.library Scenario.switch_lane false false false
           0 Scenario.frame_short Scenario.approach (Scenario.agent 45 (-3) 5) 1%nat).
  - reflexivity.
  - reflexivity.
  - exact I.
  - lia.
Defined.

(** X18. The maneuvers of a lane change: closed loop there are none and no
    final frame; open loop there is a final frame and the list ends with the
    lane switch of the side of the change, whose configuration has the type
    ["switch-left"] on the left and ["right"] on the right, preceded by at
    most one lane-follow maneuver, which is there only with the oncoming
    check switched on. *)
Theorem ChangeLane_get_maneuvers_shape
    fuel lib sl check left open_loop agent_id frame m r :
  ChangeLane_get_maneuvers fuel lib sl check left open_loop agent_id frame m = Done r ->
  if open_loop then
    is_Some r.2 /\
    exists switch,
      (exists p fr,
         (if left then SwitchLaneLeft lib "switch-left" p agent_id fr m
          else SwitchLaneRight lib "right" p agent_id fr m) = Done switch) /\
      (r.1 = [switch] \/
       check = true /\
       exists p follow, FollowLane lib p agent_id frame m = Done follow /\
                        r.1 = [follow; switch])
  else r = ([], None).
Proof.
  unfold ChangeLane_get_maneuvers.
  destruct (dict_get agent_id frame) as [state|]; [|done].
  destruct (Map.best_lane_at m _ _) as [current_lane|]; [|done].
  destruct (_get_lane_sequence _ _ _ _ _ _) as [seq| |]; simpl; [|done..].
  destruct (_get_lane_sequence_midline lib m seq) as [midline| |]; simpl; [|done..].
  destruct open_loop; [|by intros [= <-]].
  set (build := fun waited : list Maneuver.t * Frame * Q * Point =>
         if left
         then SwitchLaneLeft lib "switch-left"
                (LineString.interpolate midline
                   (LineString.project midline waited.2 + waited.1.2))
                agent_id waited.1.1.2 m
         else SwitchLaneRight lib "right"
                (LineString.interpolate midline
                   (LineString.project midline waited.2 + waited.1.2))
                agent_id waited.1.1.2 m).
  assert (Hend : forall waited,
    (man ← build waited;
     final_frame ← play_forward_maneuver lib agent_id m waited.1.1.2 man;
     Done (waited.1.1.1 ++ [man], Some final_frame)) = Done r ->
    is_Some r.2 /\
    exists switch,
      (exists p fr,
         (if left then SwitchLaneLeft lib "switch-left" p agent_id fr m
          else SwitchLaneRight lib "right" p agent_id fr m) = Done switch) /\
      r.1 = waited.1.1.1 ++ [switch]).
  { intros waited. destruct (build waited) as [man| |] eqn:Hman; simpl; [|done..].
    destruct (play_forward_maneuver lib agent_id m _ man) as [ff| |]; simpl; [|done..].
    intros [= <-]. split; [by eexists|]. exists man. split; [|done].
    eexists _, _. unfold build in Hman. destruct left; exact Hman. }
  destruct check.
  - unfold wait_for_gap.
    destruct (_get_oncoming_vehicle_intervals _ _ _ _ _ _) as [ivs| |]; simpl; [|done..].
    match goal with
    | |- context [mbind _ ?c] =>
        match c with
        | (if Qeq_bool _ 0 then _ else _) => destruct c as [change| |]
        end
    end; simpl; [|done..].
    destruct (Qltb 0 change.2).
    + destruct (FollowLane lib _ agent_id frame m) as [follow| |] eqn:Hfollow; simpl;
        [|done..].
      destruct (play_forward_maneuver lib agent_id m frame follow) as [fr| |]; simpl;
        [|done..].
      intros Hr. apply (Hend ([follow], fr, change.1, _)) in Hr
        as (Hff & switch & Hswitch & Hmans).
      split; [done|]. exists switch. split; [done|]. right. split; [done|]. eauto.
    + intros Hr. apply (Hend ([], frame, change.1, AgentState.position state)) in Hr
        as (Hff & switch & Hswitch & Hmans).
      split; [done|]. exists switch. split; [done|]. by left.
  - simpl. intros Hr.
    apply (Hend ([], frame, TARGET_SWITCH_LENGTH sl, AgentState.position state)) in Hr
      as (Hff & switch & Hswitch & Hmans).
    split; [done|]. exists switch. split; [done|]. by left.
Qed.

Lemma ChangeLane_get_maneuvers_shape_witness :
  is_Some (Some Scenario.frame_passing) /\
  exists switch,
    (exists p fr,
       SwitchLaneLeft Scenario.library "switch-left" p 0 fr Scenario.approach
       = Done switch) /\
    ([Scenario.maneuver_to (35, -3); Scenario.maneuver_to (45, 0)] = [switch] \/
     true = true /\
     exists p follow,
       FollowLane Scenario.library p 0 Scenario.frame_passing Scenario.approach
       = Done follow /\
       [Scenario.maneuver_to (35, -3); Scenario.maneuver_to (45, 0)] = [follow; switch]).
Proof.
  apply (ChangeLane_get_maneuvers_shape 5 Scenario.library Scenario.switch_lane true true
           true 0 Scenario.frame_passing Scenario.approach
           ([Scenario.maneuver_to (35, -3); Scenario.maneuver_to (45, 0)],
            Some Scenario.frame_passing)).
  vm_compute. reflexivity.
Defined.

(** ** The choice of a macro action by an agent *)

Lemma select_possible_args_length self cls frame m possible_args :
  select_possible_args self cls frame m = Done possible_args ->
  (List.length possible_args <= 1)%nat.
Proof.
  unfold select_possible_args.
  destruct (dict_get _ frame) as [state|]; [|done].
  destruct (MacroAgent.goal_center self) as [center|]; [|done].
  destruct (get_possible_args cls state m (Some center)) as [args| |]; simpl; [|done..].
  destruct (Nat.ltb_spec 1 (List.length args)) as [Hlt|Hle].
  - destruct (py_min _) as [closest| |]; simpl; [|done..]. by intros [= <-].
  - intros [= <-]. lia.
Qed.

(** X19. An update of the macro action of an agent builds at most one macro
    action, closed loop, and is all or nothing: it ends without an exception
    either with the macro action built from the one argument set chosen, or,
    when the class has no argument set to offer, with the agent as it was;
    and when it raises, the agent is as it was. The id and the goal of the
    agent stay. *)
Theorem update_macro_action_once construct self cls frame m :
  let r := update_macro_action construct self cls frame m in
  MacroAgent.agent_id r.1 = MacroAgent.agent_id self /\
  MacroAgent.goal_center r.1 = MacroAgent.goal_center self /\
  match r.2 with
  | Done _ =>
      (select_possible_args self cls frame m = Done [] /\ r.1 = self) \/
      exists arguments macro,
        select_possible_args self cls frame m = Done [arguments] /\
        construct cls arguments (MacroAgent.agent_id self) frame m false = Done macro /\
        MacroAgent._current_macro r.1 = Some macro
  | _ => r.1 = self
  end.
Proof.
  unfold update_macro_action.
  destruct (select_possible_args self cls frame m) as [args| |] eqn:Hsel; simpl;
    [|done..].
  pose proof (select_possible_args_length _ _ _ _ _ Hsel) as Hlen.
  destruct args as [|arguments [|? ?]]; simpl in *; [| |lia].
  - split; [done|]. split; [done|]. by left.
  - destruct (construct cls arguments _ frame m false) as [macro| |] eqn:Hc; simpl;
      try done.
    split; [done|]. split; [done|]. right. by exists arguments, macro.
Qed.

(** ** The maneuvers of an exit *)

Lemma nearest_lane_loop_spec m turn_target rest :
  forall pre best_lane best_distance,
    match best_lane with
    | None => best_distance = None /\ none_within m turn_target pre
    | Some lane =>
        best_distance = Some (norm2 turn_target (Lane.midline_end (Map.lane m lane))) /\
        nearest_within m turn_target pre lane
    end ->
    match nearest_lane_loop m turn_target rest best_lane best_distance with
    | None => none_within m turn_target (pre ++ rest)
    | Some lane => nearest_within m turn_target (pre ++ rest) lane
    end.
Proof.
  induction rest as [|x rest IH]; intros pre best_lane best_distance Hinv.
  - simpl. rewrite app_nil_r. by destruct best_lane; destruct Hinv.
  - replace (pre ++ x :: rest) with ((pre ++ [x]) ++ rest) by by rewrite <- app_assoc.
    cbn [nearest_lane_loop].
    set (d := norm2 turn_target (Lane.midline_end (Map.lane m x))).
    destruct (Qltb d (TURN_TARGET_THRESHOLD * TURN_TARGET_THRESHOLD)) eqn:Hnear;
      cbn [andb].
    + apply Qltb_lt in Hnear. destruct best_lane as [lane|].
      * destruct Hinv as (-> & Hin & Hlt & Hmin).
        destruct (Qltb d _) eqn:Hbetter; apply IH.
        -- apply Qltb_lt in Hbetter. split; [done|]. split; [|split; [done|]].
           ++ apply elem_of_app. right. by apply list_elem_of_singleton.
           ++ intros other Ho. apply elem_of_app in Ho as [Ho|Ho].
              ** specialize (Hmin other Ho). fold d. lra.
              ** apply list_elem_of_singleton in Ho. subst other. apply Qle_refl.
        -- apply Qltb_ge in Hbetter. split; [done|]. split; [|split; [done|]].
           ++ apply elem_of_app. by left.
           ++ intros other Ho. apply elem_of_app in Ho as [Ho|Ho]; [by apply Hmin|].
              apply list_elem_of_singleton in Ho. by subst other.
      * destruct Hinv as (-> & Hnone). apply IH. split; [done|].
        split; [|split; [done|]].
        -- apply elem_of_app. right. by apply list_elem_of_singleton.
        -- intros other Ho. apply elem_of_app in Ho as [Ho|Ho].
           ++ specialize (Hnone other Ho). fold d. lra.
           ++ apply list_elem_of_singleton in Ho. subst other. apply Qle_refl.
    + apply Qltb_ge in Hnear. apply IH. destruct best_lane as [lane|].
      * destruct Hinv as (-> & Hin & Hlt & Hmin). split; [done|].
        split; [|split; [done|]].
        -- apply elem_of_app. by left.
        -- intros other Ho. apply elem_of_app in Ho as [Ho|Ho]; [by apply Hmin|].
           apply list_elem_of_singleton in Ho. subst other. fold d. lra.
      * destruct Hinv as (-> & Hnone). split; [done|].
        intros other Ho. apply elem_of_app in Ho as [Ho|Ho]; [by apply Hnone|].
        apply list_elem_of_singleton in Ho. by subst other.
Qed.

Lemma nearest_lane_to_goal_cases m turn_target lane_list :
  match _nearest_lane_to_goal m turn_target lane_list with
  | Some lane => nearest_within m turn_target lane_list lane
  | None => none_within m turn_target lane_list
  end.
Proof.
  unfold _nearest_lane_to_goal.
  pose proof (nearest_lane_loop_spec m turn_target lane_list [] None None) as H.
  simpl in H. destruct (nearest_lane_loop _ _ _ _ _); apply H;
    (split; [done|]); intros other Ho; by apply elem_of_nil in Ho.
Qed.

(** X20. [_nearest_lane_to_goal] returns a lane of the list whose midline
    ends within the turn-target threshold of the turn target and no farther
    from it than any lane of the list; it returns [None] exactly when no lane
    of the list ends within the threshold. *)
Theorem nearest_lane_to_goal_spec m turn_target lane_list :
  (forall lane, _nearest_lane_to_goal m turn_target lane_list = Some lane ->
                nearest_within m turn_target lane_list lane) /\
  (_nearest_lane_to_goal m turn_target lane_list = None
   <-> none_within m turn_target lane_list).
Proof.
  pose proof (nearest_lane_to_goal_cases m turn_target lane_list) as H.
  destruct (_nearest_lane_to_goal m turn_target lane_list) as [lane|].
  - split; [by intros ? [= <-]|]. split; [done|].
    intros Hnone. destruct H as (Hin & Hlt & _). specialize (Hnone lane Hin). lra.
  - split; [done|]. done.
Qed.

(** X21. Ahead of a junction every turn target that [Exit.get_possible_args]
    offers leads to a connecting lane: the search among the successors of the
    current lane finds a lane that ends within the threshold of the target. *)
Theorem Exit_possible_args_connect state m goal_point possible_args turn_target :
  Map.junction_at m (AgentState.position state) = None ->
  Exit_get_possible_args state m goal_point = Done possible_args ->
  TurnTarget turn_target ∈ possible_args ->
  exists current_lane successor connecting_lane,
    _find_current_lane m turn_target state false = Some current_lane /\
    Lane.successor (Map.lane m current_lane) = Some successor /\
    _find_connecting_lane m turn_target current_lane = Done (Some connecting_lane) /\
    nearest_within m turn_target successor connecting_lane.
Proof.
  intros Hj Hargs Hin. unfold _find_current_lane, _find_connecting_lane. simpl.
  unfold Exit_get_possible_args in Hargs.
  rewrite Hj, bool_decide_eq_false_2 in Hargs by by intros [? ?].
  destruct (Map.best_lane_at m _ _) as [current_lane|]; [|done].
  destruct (Lane.successor (Map.lane m current_lane)) as [successor|] eqn:Hsucc; [|done].
  simpl in Hargs. injection Hargs as <-.
  apply list_elem_of_fmap in Hin as (t & [= ->] & Hin).
  apply list_elem_of_fmap in Hin as (lane & -> & Hin).
  apply list_elem_of_filter in Hin as [_ Hin].
  exists current_lane, successor. rewrite Hsucc.
  pose proof (nearest_lane_to_goal_cases m (Lane.midline_end (Map.lane m lane)) successor)
    as H.
  destruct (_nearest_lane_to_goal _ _ successor) as [connecting_lane|].
  - by exists connecting_lane.
  - specialize (H lane Hin). unfold norm2, TURN_TARGET_THRESHOLD in H. lra.
Qed.

Lemma Exit_possible_args_connect_witness :
  exists current_lane successor connecting_lane,
    _find_current_lane Scenario.fork (20, 5) (Scenario.agent 0 0 1) false
    = Some current_lane /\
    Lane.successor (Map.lane Scenario.fork current_lane) = Some successor /\
    _find_connecting_lane Scenario.fork (20, 5) current_lane
    = Done (Some connecting_lane) /\
    nearest_within Scenario.fork (20, 5) successor connecting_lane.
Proof.
  apply (Exit_possible_args_connect (Scenario.agent 0 0 1) Scenario.fork None
           [TurnTarget (20, 0); TurnTarget (20, 5)]).
  - reflexivity.
  - reflexivity.
  - apply elem_of_cons. right. apply elem_of_cons. by left.
Defined.

Lemma Exit_approach_shape lib jm turn_target agent_id frame m current_lane
    current_distance r :
  Exit_approach lib jm turn_target agent_id frame m current_lane current_distance
  = Done r ->
  _find_connecting_lane m turn_target current_lane = Done (Some r.2) /\
  List.length r.1.1
  = (if Qltb (GIVE_WAY_DISTANCE + POINT_SPACING jm)
             (Lane.length (Map.lane m current_lane) - current_distance)
     then 2%nat else 1%nat).
Proof.
  unfold Exit_approach.
  destruct (Qltb _ _).
  - destruct (FollowLane lib _ agent_id frame m) as [man| |]; simpl; [|done..].
    destruct (play_forward_maneuver lib agent_id m frame man) as [fr| |]; simpl; [|done..].
    destruct (_find_connecting_lane m turn_target current_lane) as [[c|]| |]; simpl;
      [|done..].
    destruct (GiveWay jm _ _ _ _ _ _) as [gw| |]; simpl; [|done..].
    destruct (play_forward_maneuver lib agent_id m fr gw) as [fr'| |]; simpl; [|done..].
    by intros [= <-].
  - simpl.
    destruct (_find_connecting_lane m turn_target current_lane) as [[c|]| |]; simpl;
      [|done..].
    destruct (GiveWay jm _ _ _ _ _ _) as [gw| |]; simpl; [|done..].
    destruct (play_forward_maneuver lib agent_id m frame gw) as [fr'| |]; simpl; [|done..].
    by intros [= <-].
Qed.

Lemma nearest_lane_to_goal_Some m turn_target lane_list lane :
  _nearest_lane_to_goal m turn_target lane_list = Some lane ->
  nearest_within m turn_target lane_list lane.
Proof.
  intros H. pose proof (nearest_lane_to_goal_cases m turn_target lane_list) as Hcases.
  by rewrite H in Hcases.
Qed.

(** X22. The maneuvers of an exit. Built closed loop there are none and no
    final frame. Built open loop inside a junction, the list is one [Turn]
    towards the turn target through the current lane, which is a lane at the
    position of the ego that ends nearest to the turn target, within the
    threshold. Built open loop ahead of a junction, the list ends with a
    [GiveWay] up to the end of the current lane and a [Turn] towards the turn
    target, both through the successor of the current lane that ends nearest
    to the turn target; they are preceded by one [FollowLane] up to 10 before
    the end of the current lane exactly when the rest of the current lane is
    longer than 10 plus the point spacing. Each maneuver is built on the
    frame that the maneuver before it was played forward to, and the final
    frame is the one the turn is played forward to. *)
Theorem Exit_get_maneuvers_shape
    lib jm turn_target open_loop agent_id frame m state r :
  dict_get agent_id frame = Some state ->
  Exit_get_maneuvers lib jm turn_target open_loop agent_id frame m = Done r ->
  if open_loop then
    match Map.junction_at m (AgentState.position state) with
    | Some _ =>
        exists current_lane turn final_frame,
          nearest_within m turn_target
            (Map.lanes_at m (AgentState.position state) (Some 0.5)) current_lane /\
          Turn jm turn_target
            (Road.id (Map.road m (Lane.parent_road (Map.lane m current_lane))))
            (Lane.id (Map.lane m current_lane)) agent_id frame m = Done turn /\
          play_forward_maneuver lib agent_id m frame turn = Done final_frame /\
          r = ([turn], Some final_frame)
    | None =>
        exists current_lane successor connecting_lane give_way turn
               frame0 frame1 final_frame,
          Map.best_lane_at m (AgentState.position state) (AgentState.heading state)
          = Some current_lane /\
          Lane.successor (Map.lane m current_lane) = Some successor /\
          nearest_within m turn_target successor connecting_lane /\
          let road_id :=
            Road.id (Map.road m (Lane.parent_road (Map.lane m connecting_lane))) in
          let lane_id := Lane.id (Map.lane m connecting_lane) in
          let length := Lane.length (Map.lane m current_lane) in
          let rest :=
            length - Lane.distance_at (Map.lane m current_lane)
                       (AgentState.position state) in
          GiveWay jm (Lane.midline_end (Map.lane m current_lane)) road_id lane_id
            agent_id frame0 m = Done give_way /\
          play_forward_maneuver lib agent_id m frame0 give_way = Done frame1 /\
          Turn jm turn_target road_id lane_id agent_id frame1 m = Done turn /\
          play_forward_maneuver lib agent_id m frame1 turn = Done final_frame /\
          r.2 = Some final_frame /\
          if Qltb (10 + POINT_SPACING jm) rest
          then exists follow,
                 FollowLane lib (Lane.point_at (Map.lane m current_lane) (length - 10))
                   agent_id frame m = Done follow /\
                 play_forward_maneuver lib agent_id m frame follow = Done frame0 /\
                 r.1 = [follow; give_way; turn]
          else frame0 = frame /\ r.1 = [give_way; turn]
    end
  else r = ([], None).
Proof.
  intros Hstate. unfold Exit_get_maneuvers, _find_current_lane. rewrite Hstate.
  destruct (Map.junction_at m (AgentState.position state)) as [j|] eqn:Hj.
  - rewrite bool_decide_eq_true_2 by by eexists. simpl.
    destruct (_nearest_lane_to_goal m turn_target _) as [current_lane|] eqn:Hcur; [|done].
    destruct open_loop; [|by intros [= <-]].
    apply nearest_lane_to_goal_Some in Hcur. simpl.
    destruct (Turn jm _ _ _ _ _ _) as [turn| |] eqn:Hturn; simpl; [|done..].
    destruct (play_forward_maneuver lib agent_id m frame turn) as [ff| |] eqn:Hff; simpl;
      [|done..].
    intros [= <-]. by exists current_lane, turn, ff.
  - rewrite bool_decide_eq_false_2 by by intros [? ?]. simpl.
    destruct (Map.best_lane_at m _ _) as [current_lane|] eqn:Hlane; [|done].
    destruct open_loop; [|by intros [= <-]].
    unfold Exit_approach, _find_connecting_lane, GIVE_WAY_DISTANCE.
    destruct (Qltb _ _) eqn:Hfar.
    + destruct (FollowLane lib _ agent_id frame m) as [follow| |] eqn:Hfollow; simpl;
        [|done..].
      destruct (play_forward_maneuver lib agent_id m frame follow) as [fr0| |] eqn:Hfr0;
        simpl; [|done..].
      destruct (Lane.successor (Map.lane m current_lane)) as [successor|] eqn:Hsucc;
        simpl; [|done].
      destruct (_nearest_lane_to_goal m turn_target successor) as [connecting|] eqn:Hc;
        simpl; [|done].
      apply nearest_lane_to_goal_Some in Hc.
      destruct (GiveWay jm _ _ _ _ _ _) as [gw| |] eqn:Hgw; simpl; [|done..].
      destruct (play_forward_maneuver lib agent_id m fr0 gw) as [fr1| |] eqn:Hfr1; simpl;
        [|done..].
      destruct (Turn jm _ _ _ _ _ _) as [turn| |] eqn:Hturn; simpl; [|done..].
      destruct (play_forward_maneuver lib agent_id m fr1 turn) as [ff| |] eqn:Hff; simpl;
        [|done..].
      intros [= <-]. exists current_lane, successor, connecting, gw, turn, fr0, fr1, ff.
      repeat (split; [done|]). rewrite Hfar. by exists follow.
    + simpl.
      destruct (Lane.successor (Map.lane m current_lane)) as [successor|] eqn:Hsucc;
        simpl; [|done].
      destruct (_nearest_lane_to_goal m turn_target successor) as [connecting|] eqn:Hc;
        simpl; [|done].
      apply nearest_lane_to_goal_Some in Hc.
      destruct (GiveWay jm _ _ _ _ _ _) as [gw| |] eqn:Hgw; simpl; [|done..].
      destruct (play_forward_maneuver lib agent_id m frame gw) as [fr1| |] eqn:Hfr1; simpl;
        [|done..].
      destruct (Turn jm _ _ _ _ _ _) as [turn| |] eqn:Hturn; simpl; [|done..].
      destruct (play_forward_maneuver lib agent_id m fr1 turn) as [ff| |] eqn:Hff; simpl;
        [|done..].
      intros [= <-]. exists current_lane, successor, connecting, gw, turn, frame, fr1, ff.
      repeat (split; [done|]). by rewrite Hfar.
Qed.

Lemma Exit_get_maneuvers_shape_witness :
  exists current_lane successor connecting_lane give_way turn frame0 frame1 final_frame,
    Map.best_lane_at Scenario.fork (AgentState.position (Scenario.agent 0 0 1))
      (AgentState.heading (Scenario.agent 0 0 1)) = Some current_lane /\
    Lane.successor (Map.lane Scenario.fork current_lane) = Some successor /\
    nearest_within Scenario.fork (20, 5) successor connecting_lane /\
    let road_id :=
      Road.id (Map.road Scenario.fork
                 (Lane.parent_road (Map.lane Scenario.fork connecting_lane))) in
    let lane_id := Lane.id (Map.lane Scenario.fork connecting_lane) in
    let length := Lane.length (Map.lane Scenario.fork current_lane) in
    let rest :=
      length - Lane.distance_at (Map.lane Scenario.fork current_lane)
                 (AgentState.position (Scenario.agent 0 0 1)) in
    GiveWay ExitScenario.junction_maneuvers
      (Lane.midline_end (Map.lane Scenario.fork current_lane)) road_id lane_id
      0 frame0 Scenario.fork = Done give_way /\
    play_forward_maneuver Scenario.library 0 Scenario.fork frame0 give_way = Done frame1 /\
    Turn ExitScenario.junction_maneuvers (20, 5) road_id lane_id 0 frame1 Scenario.fork
    = Done turn /\
    play_forward_maneuver Scenario.library 0 Scenario.fork frame1 turn = Done final_frame /\
    Some Scenario.frame = Some final_frame /\
    if Qltb (10 + POINT_SPACING ExitScenario.junction_maneuvers) rest
    then exists follow,
           FollowLane Scenario.library
             (Lane.point_at (Map.lane Scenario.fork current_lane) (length - 10))
             0 Scenario.frame Scenario.fork = Done follow /\
           play_forward_maneuver Scenario.library 0 Scenario.fork Scenario.frame follow
           = Done frame0 /\
           [Scenario.maneuver_to (10, 0); Scenario.maneuver_to (20, 5)]
           = [follow; give_way; turn]
    else frame0 = Scenario.frame /\
         [Scenario.maneuver_to (10, 0); Scenario.maneuver_to (20, 5)] = [give_way; turn].
Proof.
  apply (Exit_get_maneuvers_shape Scenario.library ExitScenario.junction_maneuvers
           (20, 5) true 0 Scenario.frame Scenario.fork (Scenario.agent 0 0 1)
           ([Scenario.maneuver_to (10, 0); Scenario.maneuver_to (20, 5)],
            Some Scenario.frame)).
  - reflexivity.
  - vm_compute. reflexivity.
Defined.

(** X23. Ahead of a junction, an exit towards a turn target that no
    successor of the current lane ends within the threshold of cannot be
    built open loop: the call does not come back with maneuvers, and it
    raises [AttributeError] when the ego is within the give-way distance.
    Built closed loop, the same exit comes back with no maneuvers: the turn
    target is not looked at. *)
Theorem Exit_unreachable_target
    lib jm turn_target agent_id frame m state current_lane successor :
  dict_get agent_id frame = Some state ->
  Map.junction_at m (AgentState.position state) = None ->
  Map.best_lane_at m (AgentState.position state) (AgentState.heading state)
  = Some current_lane ->
  Lane.successor (Map.lane m current_lane) = Some successor ->
  none_within m turn_target successor ->
  ~ returns (Exit_get_maneuvers lib jm turn_target true agent_id frame m) /\
  (Qltb (GIVE_WAY_DISTANCE + POINT_SPACING jm)
        (Lane.length (Map.lane m current_lane)
         - Lane.distance_at (Map.lane m current_lane) (AgentState.position state))
   = false ->
   Exit_get_maneuvers lib jm turn_target true agent_id frame m = Raise AttributeError) /\
  Exit_get_maneuvers lib jm turn_target false agent_id frame m = Done ([], None).
Proof.
  intros Hstate Hj Hlane Hsucc Hnone.
  assert (Hfind : _find_connecting_lane m turn_target current_lane = Done None).
  { unfold _find_connecting_lane. rewrite Hsucc. f_equal.
    pose proof (nearest_lane_to_goal_cases m turn_target successor) as Hcases.
    destruct (_nearest_lane_to_goal m turn_target successor) as [lane|]; [|done].
    destruct Hcases as (Hin & Hlt & _). specialize (Hnone lane Hin). lra. }
  unfold Exit_get_maneuvers, _find_current_lane. rewrite Hstate, Hj.
  rewrite bool_decide_eq_false_2 by by intros [? ?]. simpl. rewrite Hlane.
  split; [|split; [|done]].
  - intros [r Hr].
    destruct (Exit_approach lib jm turn_target agent_id frame m current_lane _)
      as [approached| |] eqn:Happroach; simpl in Hr; [|done..].
    apply Exit_approach_shape in Happroach as [Hc _]. congruence.
  - intros Hnear. unfold Exit_approach. rewrite Hnear. simpl. by rewrite Hfind.
Qed.

Lemma Exit_unreachable_target_witness :
  ~ returns (Exit_get_maneuvers Scenario.library ExitScenario.junction_maneuvers
               (50, 50) true 0 Scenario.frame Scenario.fork) /\
  (Qltb (GIVE_WAY_DISTANCE + POINT_SPACING ExitScenario.junction_maneuvers)
        (Lane.length (Map.lane Scenario.fork 0%nat)
         - Lane.distance_at (Map.lane Scenario.fork 0%nat)
             (AgentState.position (Scenario.agent 0 0 1)))
   = false ->
   Exit_get_maneuvers Scenario.library ExitScenario.junction_maneuvers
     (50, 50) true 0 Scenario.frame Scenario.fork = Raise AttributeError) /\
  Exit_get_maneuvers Scenario.library ExitScenario.junction_maneuvers
    (50, 50) false 0 Scenario.frame Scenario.fork = Done ([], None).
Proof.
  apply (Exit_unreachable_target Scenario.library ExitScenario.junction_maneuvers
           (50, 50) 0 Scenario.frame Scenario.fork (Scenario.agent 0 0 1) 0%nat
           [1%nat; 2%nat; 3%nat]); try reflexivity.
  intros other Ho. apply Qle_bool_iff.
  repeat (apply elem_of_cons in Ho as [->|Ho]; [reflexivity|]).
  by apply elem_of_nil in Ho.
Defined.

(** ** Trajectory agents and the CARLA control loop *)

Lemma py_index_nth {A} (xs : list A) (i : nat) (d : A) :
  (i < List.length xs)%nat -> py_index xs (Z.of_nat i) = Done (nth i xs d).
Proof.
  intros Hi. unfold py_index.
  destruct (Z.ltb_spec (Z.of_nat i) 0) as [?|_]; [lia|].
  destruct (Z.leb_spec 0 (Z.of_nat i)) as [_|?]; [|lia].
  destruct (Z.ltb_spec (Z.of_nat i) (Z.of_nat (List.length xs))) as [_|?]; [|lia].
  simpl. rewrite Nat2Z.id.
  destruct (xs !! i) as [x|] eqn:Hx.
  - f_equal. symmetry. by apply nth_lookup_Some with (d := d) in Hx.
  - apply lookup_ge_None in Hx. lia.
Qed.

Section open_loop_agent.
Variable maneuver_cl :
  Point -> Z -> Frame -> Map.t -> AgentTrajectory.t -> outcome Maneuver.t.
Variable trajectory : AgentTrajectory.t.
Variable id : Z.
Variable man : option Maneuver.t.

Let n := List.length (AgentTrajectory.path trajectory).

Hypothesis Hacc : List.length (AgentTrajectory.acceleration trajectory) = n.
Hypothesis Hang : List.length (AgentTrajectory.angular_velocity trajectory) = n.

Lemma open_loop_step (alive : bool) (t : nat) frame m :
  (t + 1 < n)%nat ->
  TrajectoryAgent.next_action maneuver_cl
    (TrajectoryAgent.mk id alive (Z.of_nat t) true (Some trajectory) man) frame m
  = (TrajectoryAgent.mk id alive (Z.of_nat (S t)) true (Some trajectory) man,
     Done (Some (action_at trajectory (S t)))).
Proof.
  intros Ht. unfold TrajectoryAgent.next_action, TrajectoryAgent.done. simpl. fold n.
  destruct (Z.eqb_spec (Z.of_nat t) (Z.of_nat n - 1)) as [?|_]; [lia|].
  rewrite andb_false_r. simpl.
  replace (Z.of_nat t + 1)%Z with (Z.of_nat (S t)) by lia.
  rewrite (py_index_nth _ (S t) 0), (py_index_nth _ (S t) 0) by lia.
  done.
Qed.

Lemma open_loop_last (alive : bool) (t : nat) frame m :
  S t = n ->
  TrajectoryAgent.next_action maneuver_cl
    (TrajectoryAgent.mk id alive (Z.of_nat t) true (Some trajectory) man) frame m
  = (TrajectoryAgent.mk id false (Z.of_nat t) true (Some trajectory) man, Done None).
Proof.
  intros Ht. unfold TrajectoryAgent.next_action, TrajectoryAgent.done. simpl. fold n.
  destruct (Z.eqb_spec (Z.of_nat t) (Z.of_nat n - 1)) as [_|?]; [|lia].
  rewrite andb_true_r. by destruct alive.
Qed.

Lemma open_loop_done (alive : bool) (t : nat) frame :
  TrajectoryAgent.done
    (TrajectoryAgent.mk id alive (Z.of_nat t) true (Some trajectory) man) frame
  = (TrajectoryAgent.mk id (alive && negb (bool_decide (S t = n))) (Z.of_nat t) true
       (Some trajectory) man,
     Done (bool_decide (S t = n))).
Proof.
  unfold TrajectoryAgent.done. simpl. fold n.
  destruct (Z.eqb_spec (Z.of_nat t) (Z.of_nat n - 1)) as [Heq|Hne].
  - rewrite bool_decide_eq_true_2 by lia. by destruct alive.
  - rewrite bool_decide_eq_false_2 by lia. by destruct alive.
Qed.

Lemma open_loop_next_actions observations :
  forall (alive : bool) (t : nat),
    (t < n)%nat ->
    TrajectoryAgent.next_actions maneuver_cl
      (TrajectoryAgent.mk id alive (Z.of_nat t) true (Some trajectory) man) observations
    = (TrajectoryAgent.mk id
         (alive && Nat.leb (List.length observations) (n - 1 - t))
         (Z.of_nat (t + Nat.min (List.length observations) (n - 1 - t)))
         true (Some trajectory) man,
       map (fun i => Done (Some (action_at trajectory i)))
           (seq (S t) (Nat.min (List.length observations) (n - 1 - t)))
       ++ repeat (Done None) (List.length observations - (n - 1 - t))).
Proof.
  induction observations as [|[frame m] observations IH]; intros alive t Ht.
  - simpl. by rewrite andb_true_r, Nat.add_0_r.
  - cbn [TrajectoryAgent.next_actions List.length].
    destruct (decide (S t = n)) as [Hlast|Hmore].
    + rewrite open_loop_last by done. cbn [fst snd]. rewrite IH by lia.
      replace (n - 1 - t)%nat with 0%nat by lia.
      rewrite !Nat.min_0_r, !Nat.sub_0_r. simpl. by rewrite andb_false_r.
    + rewrite open_loop_step by lia. cbn [fst snd]. rewrite IH by lia. cbn [fst snd].
      replace (n - 1 - t)%nat with (S (n - 1 - S t)) by lia.
      remember (n - 1 - S t)%nat as r.
      cbn [Nat.min Nat.leb Nat.sub seq map app].
      do 2 f_equal. f_equal. lia.
Qed.

Lemma open_loop_take_actions observations :
  forall (alive : bool) (t : nat),
    (t < n)%nat ->
    (Nat.max 1 (n - 1 - t) <= List.length observations)%nat ->
    CarlaSim.take_actions maneuver_cl
      (TrajectoryAgent.mk id alive (Z.of_nat t) true (Some trajectory) man) observations
    = Done (map (fun i => CarlaSim.control_of (action_at trajectory i))
                (seq (S t) (n - 2 - t)),
            true).
Proof.
  induction observations as [|[frame m] observations IH]; intros alive t Ht Hlen;
    [simpl in Hlen; lia|].
  cbn [CarlaSim.take_actions]. unfold CarlaSim.take_action.
  destruct (decide (S t = n)) as [Hlast|Hmore].
  - rewrite open_loop_last by done. cbn [fst snd].
    by replace (n - 2 - t)%nat with 0%nat by lia.
  - rewrite open_loop_step by lia. cbn [fst snd]. rewrite open_loop_done. cbn [fst snd].
    destruct (decide (S (S t) = n)) as [Hnext|Hnext].
    + rewrite bool_decide_eq_true_2 by done.
      by replace (n - 2 - t)%nat with 0%nat by lia.
    + rewrite bool_decide_eq_false_2 by done. cbn [fst snd].
      rewrite IH; [|lia|simpl in Hlen; lia]. simpl.
      replace (n - 2 - t)%nat with (S (n - 2 - S t)) by lia. done.
Qed.

End open_loop_agent.

(** X24. An open-loop agent with a trajectory of [n >= 1] samples hands
    out, call after call of [next_action], the actions of the samples
    [1 .. n - 1] and from then on [None]; its counter stops at [n - 1], and it
    is alive until the first call that hands back [None]. The observations
    play no part. *)
Theorem trajectory_agent_open_loop maneuver_cl agent trajectory observations :
  fresh_open_loop agent trajectory ->
  (0 < List.length (AgentTrajectory.path trajectory))%nat ->
  let n := List.length (AgentTrajectory.path trajectory) in
  let k := List.length observations in
  let r := TrajectoryAgent.next_actions maneuver_cl agent observations in
  r.2 = map (fun i => Done (Some (action_at trajectory i))) (seq 1 (Nat.min k (n - 1)))
        ++ repeat (Done None) (k - (n - 1)) /\
  TrajectoryAgent._t r.1 = Z.of_nat (Nat.min k (n - 1)) /\
  TrajectoryAgent.alive r.1 = Nat.leb k (n - 1).
Proof.
  intros (Htr & Hopen & Halive & Ht & Hacc & Hang) Hn.
  destruct agent as [id alive t open_loop tr man]. simpl in *. subst.
  pose proof (open_loop_next_actions maneuver_cl trajectory id man Hacc Hang
                observations true 0%nat Hn) as H.
  change (Z.of_nat 0) with 0%Z in H. rewrite H.
  simpl. by rewrite Nat.sub_0_r.
Qed.

Lemma trajectory_agent_open_loop_witness :
  let n := List.length (AgentTrajectory.path AgentScenario.trajectory) in
  let k := List.length (AgentScenario.observations 5) in
  let r := TrajectoryAgent.next_actions AgentScenario.maneuver_cl AgentScenario.agent
             (AgentScenario.observations 5) in
  r.2 = map (fun i => Done (Some (action_at AgentScenario.trajectory i)))
            (seq 1 (Nat.min k (n - 1)))
        ++ repeat (Done None) (k - (n - 1)) /\
  TrajectoryAgent._t r.1 = Z.of_nat (Nat.min k (n - 1)) /\
  TrajectoryAgent.alive r.1 = Nat.leb k (n - 1).
Proof.
  apply (trajectory_agent_open_loop AgentScenario.maneuver_cl AgentScenario.agent
           AgentScenario.trajectory (AgentScenario.observations 5)).
  - repeat split.
  - simpl. lia.
Defined.

(** X25. In the control loop of the CARLA simulation an open-loop agent
    with a trajectory of [n >= 1] samples has the controls of the samples
    [1 .. n - 2] applied to its actor; in the next round the actor is
    destroyed and the agent joins the dead agents, so that the action of the
    last sample is worked out but not applied. *)
Theorem take_actions_open_loop maneuver_cl agent trajectory observations :
  fresh_open_loop agent trajectory ->
  (0 < List.length (AgentTrajectory.path trajectory))%nat ->
  (Nat.max 1 (List.length (AgentTrajectory.path trajectory) - 1)
   <= List.length observations)%nat ->
  CarlaSim.take_actions maneuver_cl agent observations
  = Done (map (fun i => CarlaSim.control_of (action_at trajectory i))
              (seq 1 (List.length (AgentTrajectory.path trajectory) - 2)),
          true).
Proof.
  intros (Htr & Hopen & Halive & Ht & Hacc & Hang) Hn Hlen.
  destruct agent as [id alive t open_loop tr man]. simpl in *. subst.
  pose proof (open_loop_take_actions maneuver_cl trajectory id man Hacc Hang
                observations true 0%nat Hn) as H.
  change (Z.of_nat 0) with 0%Z in H. rewrite H; [|by rewrite Nat.sub_0_r].
  by rewrite Nat.sub_0_r.
Qed.

Lemma take_actions_open_loop_witness :
  CarlaSim.take_actions AgentScenario.maneuver_cl AgentScenario.agent
    (AgentScenario.observations 5)
  = Done (map (fun i => CarlaSim.control_of (action_at AgentScenario.trajectory i))
              (seq 1 (List.length (AgentTrajectory.path AgentScenario.trajectory) - 2)),
          true).
Proof.
  apply (take_actions_open_loop AgentScenario.maneuver_cl AgentScenario.agent
           AgentScenario.trajectory (AgentScenario.observations 5)).
  - repeat split.
  - simpl. lia.
  - simpl. lia.
Defined.

Lemma py_min2_spec a b :
  CarlaSim.py_min2 a b <= a /\ CarlaSim.py_min2 a b <= b /\
  (CarlaSim.py_min2 a b = a \/ CarlaSim.py_min2 a b = b).
Proof.
  unfold CarlaSim.py_min2. destruct (Qltb b a) eqn:Hlt.
  - apply Qltb_lt in Hlt. repeat split; [lra|lra|by right].
  - apply Qltb_ge in Hlt. repeat split; [lra|lra|by left].
Qed.

(** X26. For an action whose acceleration is a number (the rationals of
    the model; a NaN acceleration is not covered), the control worked out
    keeps throttle and brake between 0 and 1 and never sets both: an
    acceleration that is not negative gives the throttle [acceleration / 5],
    capped at 1, and no brake; a negative one gives the brake
    [- acceleration / 5], capped at 1, and no throttle. The steering is the
    negated steer angle, as it is, and the hand brake is off. *)
Theorem control_of_bounds acceleration steer_angle :
  let control := CarlaSim.control_of (mkAction acceleration steer_angle) in
  0 <= CarlaSim.throttle control <= 1 /\
  0 <= CarlaSim.brake control <= 1 /\
  (0 <= acceleration ->
   CarlaSim.brake control = 0 /\
   CarlaSim.throttle control <= acceleration / 5 /\
   (CarlaSim.throttle control = 1 \/ CarlaSim.throttle control = acceleration / 5)) /\
  (acceleration < 0 ->
   CarlaSim.throttle control = 0 /\
   CarlaSim.brake control <= - (acceleration / 5) /\
   (CarlaSim.brake control = 1 \/ CarlaSim.brake control = - (acceleration / 5))) /\
  CarlaSim.steer control = - steer_angle /\
  CarlaSim.hand_brake control = false /\
  CarlaSim.manual_gear_shift control = false.
Proof.
  unfold CarlaSim.control_of, CarlaSim.MAX_ACCELERATION.
  pose proof (py_min2_spec 1 (acceleration / 5)) as (Ht1 & Ht2 & Ht3).
  pose proof (py_min2_spec (- (acceleration / 5)) 1) as (Hb1 & Hb2 & Hb3).
  assert (Hdiv : acceleration / 5 == acceleration * (1 # 5)) by reflexivity.
  destruct (Qle_bool 0 acceleration) eqn:Hsign; cbn [CarlaSim.throttle CarlaSim.brake
    CarlaSim.steer CarlaSim.hand_brake CarlaSim.manual_gear_shift].
  - apply Qle_bool_iff in Hsign.
    split; [split; [destruct Ht3 as [-> | ->]|]; lra|].
    split; [lra|]. split; [|split; [intros; lra|done]].
    intros _. split; [done|]. split; [done|]. done.
  - apply not_true_iff_false in Hsign. rewrite Qle_bool_iff in Hsign.
    split; [lra|].
    split; [split; [destruct Hb3 as [-> | ->]|]; lra|].
    split; [intros; lra|]. split; [|done].
    intros _. split; [done|]. split; [done|]. destruct Hb3; [by right|by left].
Qed.

(** ** Stepping a macro action *)

(** X27. [MacroAction.next_action] hands back an action only while the
    current maneuver is a maneuver that is not done, and then it is the
    action of that maneuver and the macro action stays as it was. When the
    current maneuver is done, the call stores the rest of the maneuver list
    in its place and raises [AttributeError]. The maneuver list itself is
    never changed. *)
Theorem next_action_returns ma frame m :
  (forall action,
     (next_action ma frame m).2 = Done action <->
     exists man,
       MacroAction._current_maneuver ma = CurManeuver man /\
       Maneuver.done man frame m = false /\
       action = Maneuver.next_action man frame m) /\
  (forall action,
     (next_action ma frame m).2 = Done action -> (next_action ma frame m).1 = ma) /\
  (forall man maneuvers,
     MacroAction._current_maneuver ma = CurManeuver man ->
     Maneuver.done man frame m = true ->
     MacroAction._maneuvers ma = Some maneuvers ->
     next_action ma frame m
     = (set_current_maneuver ma (CurList (drop 1 maneuvers)), Raise AttributeError)) /\
  MacroAction._maneuvers (next_action ma frame m).1 = MacroAction._maneuvers ma.
Proof.
  unfold next_action.
  destruct (MacroAction._current_maneuver ma) as [|man|mans] eqn:Hcur; simpl.
  - split; [|done]. intros action. split; [done|]. by intros (man & ? & _).
  - destruct (Maneuver.done man frame m) eqn:Hdone.
    + destruct (MacroAction._maneuvers ma) as [maneuvers|] eqn:Hmans; simpl.
      * split; [|split; [done|split; [|done]]].
        -- intros action. split; [done|]. intros (man' & [= <-] & Hd & _). congruence.
        -- intros man' maneuvers' [= <-] _ [= <-]. done.
      * split; [|done].
        intros action. split; [done|]. intros (man' & [= <-] & Hd & _). congruence.
    + simpl. split; [|split; [done|split; [|done]]].
      * intros action. split.
        -- intros [= <-]. by exists man.
        -- by intros (man' & [= <-] & _ & ->).
      * intros man' maneuvers [= <-] Hd. congruence.
  - split; [|done]. intros action. split; [done|]. by intros (man & ? & _).
Qed.

(** ** The outcomes of the validity check of a lane change *)

(** X28. [check_change_validity] always ends. It raises only outside a
    junction: [AttributeError] when the ego is on no lane, [ValueError] when
    the successor list of its lane is empty. It ends without a return value
    exactly when, outside a junction, the successors are not all
    single-laned and the nearest of them is not on a junction road. *)
Theorem check_change_validity_outcomes sl state m :
  let distances successor :=
    map (fun s => (Lane.boundary_distance (Map.lane m s) (AgentState.position state), s))
        successor in
  terminates (check_change_validity sl state m) /\
  (forall e,
     check_change_validity sl state m = Raise e <->
     Map.junction_at m (AgentState.position state) = None /\
     (e = AttributeError /\
      Map.best_lane_at m (AgentState.position state) (AgentState.heading state) = None \/
      e = ValueError /\
      exists current_lane,
        Map.best_lane_at m (AgentState.position state) (AgentState.heading state)
        = Some current_lane /\
        Lane.successor (Map.lane m current_lane) = Some [])) /\
  (check_change_validity sl state m = Done None <->
   Map.junction_at m (AgentState.position state) = None /\
   exists current_lane successor nearest,
     Map.best_lane_at m (AgentState.position state) (AgentState.heading state)
     = Some current_lane /\
     Lane.successor (Map.lane m current_lane) = Some successor /\
     py_min (distances successor) = Done nearest /\
     all_single_laned m successor = false /\
     in_junction_road m nearest.2 = false).
Proof.
  intros distances. unfold check_change_validity.
  destruct (Map.junction_at m (AgentState.position state)) as [j|] eqn:Hj.
  { rewrite bool_decide_eq_true_2 by by eexists.
    split; [done|]. split; [|split; [done|by intros [? _]]].
    intros e. split; [done|by intros [? _]]. }
  rewrite bool_decide_eq_false_2 by by intros [? ?].
  destruct (Map.best_lane_at m _ _) as [current_lane|] eqn:Hlane.
  2:{ split; [done|]. split; [|split; [done|by intros (_ & ? & ? & ? & ? & _)]].
      intros e. split.
      - intros [= <-]. split; [done|]. by left.
      - intros [_ [[-> _]|[_ (? & ? & _)]]]; done. }
  destruct (Lane.successor (Map.lane m current_lane)) as [successor|] eqn:Hsucc.
  2:{ split; [done|]. split.
      - intros e. split; [done|].
        intros [_ [[_ ?]|[_ (l & [= <-] & Hl)]]]; [done|congruence].
      - split; [done|]. intros (_ & l & s & n & [= <-] & Hl & _). congruence. }
  fold (distances successor).
  destruct successor as [|s0 successor].
  { simpl. split; [done|]. split.
    - intros e. split.
      + intros [= <-]. split; [done|]. right. split; [done|]. by exists current_lane.
      + intros [_ [[_ ?]|[-> _]]]; done.
    - split; [done|].
      intros (_ & l & s & n & [= <-] & Hl & Hmin & _).
      rewrite Hsucc in Hl. injection Hl as <-. done. }
  pose proof (py_min_spec (distances (s0 :: successor))) as Hmin.
  destruct (py_min (distances (s0 :: successor))) as [nearest|e|] eqn:Hpy;
    [|by destruct Hmin|done].
  remember (all_single_laned m (s0 :: successor)) as single eqn:Hall.
  simpl. destruct single.
  { split; [done|]. split.
    - intros e. split; [done|].
      intros [_ [[_ ?]|[_ (l & [= <-] & Hl)]]]; [done|congruence].
    - split; [done|].
      intros (_ & l & s & n & [= <-] & Hl & Hmin' & Hall' & _).
      rewrite Hsucc in Hl. injection Hl as <-. congruence. }
  symmetry in Hall.
  destruct (in_junction_road m nearest.2) eqn:Hjr.
  - split; [done|]. split.
    + intros e. split; [done|].
      intros [_ [[_ ?]|[_ (l & [= <-] & Hl)]]]; [done|congruence].
    + split; [done|].
      intros (_ & l & s & n & [= <-] & Hl & Hmin' & _ & Hjr').
      rewrite Hsucc in Hl. injection Hl as <-. rewrite Hpy in Hmin'.
      injection Hmin' as <-. congruence.
  - split; [done|]. split.
    + intros e. split; [done|].
      intros [_ [[_ ?]|[_ (l & [= <-] & Hl)]]]; [done|congruence].
    + split; [|done]. intros _. split; [done|].
      by exists current_lane, (s0 :: successor), nearest.
Qed.
